(** * Verification of the preflight-ai command-line reviewer

    A shallow embedding of the context resolver
    ([src/modules/contextResolver.ts]), of the remote analyzer wrapper and
    its heuristic scanner ([src/modules/groq.ts]) and of the auto-fix engine
    ([src/modules/autofix.ts]), with the properties stated about them, and
    of what a run takes from them: its context files, the synthetic diff
    of a scan of the whole project, and the patch read from an answer.

    JavaScript strings are sequences of UTF-16 code units and are modelled
    as lists of [N]; regular expressions are modelled by a backtracking
    matcher that follows the ECMAScript matching order (leftmost start,
    alternatives left to right, greedy or lazy repetition). The limits
    and the counts of the program are integers; the line counter of the
    scanner, which [parseInt] sets from the text of the diff, is the
    double it is in the program. A call that may throw returns an
    [outcome] or an [option]. What the program takes from its environment
    (the file system, Node's [path], [toLowerCase], the text of a number)
    is a parameter of the definitions that use it.

    The definitions come first, module by module; the properties follow,
    in modules of their own. *)

From Stdlib Require Import String Ascii NArith ZArith List Lia Bool.
From stdpp Require Import base option list gmap sets.

Set Default Proof Using "Type".
Local Open Scope N_scope.

(** ** JavaScript strings *)

Module Str.

Definition jsstring := list N.

(** String literals of the source are written [lit "..."]. *)
Definition lit (s : string) : jsstring :=
  List.map N_of_ascii (list_ascii_of_string s).

(** The quotes and the line feed. *)
Definition dquote : N := 34.
Definition squote : N := 39.
Definition LF : N := 10.

Definition streq (a b : jsstring) : bool := bool_decide (a = b).

(** [\s] of regular expressions and the characters removed by
    [String.prototype.trim]: WhiteSpace and LineTerminator. *)
Definition is_space (c : N) : bool :=
  (c =? 9) || (c =? 10) || (c =? 11) || (c =? 12) || (c =? 13) || (c =? 32)
  || (c =? 160) || (c =? 5760) || ((8192 <=? c) && (c <=? 8202))
  || (c =? 8232) || (c =? 8233) || (c =? 8239) || (c =? 8287)
  || (c =? 12288) || (c =? 65279).

Definition is_line_terminator (c : N) : bool :=
  (c =? 10) || (c =? 13) || (c =? 8232) || (c =? 8233).

Definition is_digit (c : N) : bool := (48 <=? c) && (c <=? 57).

Definition is_upper (c : N) : bool := (65 <=? c) && (c <=? 90).
Definition is_lower (c : N) : bool := (97 <=? c) && (c <=? 122).

(** [\w]: ASCII letters, digits and the underscore. *)
Definition is_word (c : N) : bool :=
  is_digit c || is_upper c || is_lower c || (c =? 95).

Fixpoint startsWith (s p : jsstring) {struct p} : bool :=
  match p, s with
  | [], _ => true
  | _ :: _, [] => false
  | a :: p', b :: s' => (a =? b) && startsWith s' p'
  end.

Fixpoint includes (s p : jsstring) : bool :=
  startsWith s p ||
  match s with
  | [] => false
  | _ :: s' => includes s' p
  end.

(** [s.split(sep)] for a one-character separator. *)
Fixpoint split (sep : N) (s : jsstring) : list jsstring :=
  match s with
  | [] => [[]]
  | c :: s' =>
      if c =? sep then [] :: split sep s'
      else match split sep s' with
           | [] => [[c]]
           | l :: ls => (c :: l) :: ls
           end
  end.

Fixpoint trimStart (s : jsstring) : jsstring :=
  match s with
  | c :: s' => if is_space c then trimStart s' else s
  | [] => []
  end.

Definition trim (s : jsstring) : jsstring :=
  rev (trimStart (rev (trimStart s))).

(** [s.slice(0, n)] for a non-negative [n]. *)
Fixpoint slice0 (n : N) (s : jsstring) : jsstring :=
  match s with
  | [] => []
  | c :: s' => if n =? 0 then [] else c :: slice0 (N.pred n) s'
  end.

(** A string is truthy when it is not empty. *)
Definition truthy (s : jsstring) : bool :=
  match s with [] => false | _ => true end.

End Str.
Export Str.

(** ** Regular expressions *)

Module RegExp.

Inductive regex : Type :=
| Eps
| Chr (p : N → bool)
| Seq (r1 r2 : regex)
| Alt (r1 r2 : regex)
| Star (greedy : bool) (r : regex)
| Group (i : nat) (r : regex)
| NotAhead (r : regex)
| WordBoundary
| EndLine.

(** Derived forms. *)
Definition Plus (r : regex) : regex := Seq r (Star true r).
Definition Opt (r : regex) : regex := Alt r Eps.

Fixpoint seqs (rs : list regex) : regex :=
  match rs with
  | [] => Eps
  | [r] => r
  | r :: rs' => Seq r (seqs rs')
  end.

Fixpoint alts (rs : list regex) : regex :=
  match rs with
  | [] => Eps
  | [r] => r
  | r :: rs' => Alt r (alts rs')
  end.

Definition one (c : N) : N → bool := N.eqb c.
Definition oneof (l : jsstring) : N → bool := fun c => existsb (N.eqb c) l.
Definition noneof (l : jsstring) : N → bool := fun c => negb (oneof l c).

(** Under the [i] flag an ASCII letter of the pattern matches both of its
    cases; no code unit above 127 canonicalizes to an ASCII one. *)
Definition other_case (c : N) : N :=
  if is_upper c then c + 32 else if is_lower c then c - 32 else c.
Definition one_i (c : N) : N → bool := fun d => (d =? c) || (d =? other_case c).

Fixpoint Lit (s : jsstring) : regex :=
  match s with
  | [] => Eps
  | [c] => Chr (one c)
  | c :: s' => Seq (Chr (one c)) (Lit s')
  end.

Fixpoint LitI (s : jsstring) : regex :=
  match s with
  | [] => Eps
  | [c] => Chr (one_i c)
  | c :: s' => Seq (Chr (one_i c)) (LitI s')
  end.

(** The state of a match: the input before the current position (reversed),
    the input from the current position, and the captures. *)
Record mstate : Type := MState {
  pre : jsstring;
  post : jsstring;
  caps : list (nat * jsstring)
}.

Fixpoint groups (r : regex) : list nat :=
  match r with
  | Seq a b | Alt a b => groups a ++ groups b
  | Star _ a | NotAhead a => groups a
  | Group i a => i :: groups a
  | _ => []
  end.

Definition clear_caps (gs : list nat) (st : mstate) : mstate :=
  MState (pre st) (post st)
    (List.filter (fun ic => negb (existsb (Nat.eqb ic.1) gs)) (caps st)).

Definition set_cap (i : nat) (s : jsstring) (st : mstate) : mstate :=
  MState (pre st) (post st) ((i, s) :: caps st).

Fixpoint get_cap (i : nat) (cs : list (nat * jsstring)) : option jsstring :=
  match cs with
  | [] => None
  | (j, s) :: cs' => if Nat.eqb i j then Some s else get_cap i cs'
  end.

(** The input consumed between two states of one match. *)
Definition consumed (st st' : mstate) : jsstring :=
  take (length (post st) - length (post st')) (post st).

Definition is_word_at (s : jsstring) : bool :=
  match s with c :: _ => is_word c | [] => false end.

(** One repetition loop of [r*] or [r*?]: [step] matches the body. An
    iteration that consumes nothing is rejected, so [n], the length of the
    remaining input, bounds the number of iterations. *)
Fixpoint star_loop (step : (mstate → option mstate) → mstate → option mstate)
    (g : bool) (k : mstate → option mstate) (n : nat) (st : mstate)
  {struct n} : option mstate :=
  match n with
  | O => k st
  | S n' =>
      let again st' :=
        if (length (post st') <? length (post st))%nat
        then star_loop step g k n' st' else None in
      if g then
        match step again st with
        | Some x => Some x
        | None => k st
        end
      else
        match k st with
        | Some x => Some x
        | None => step again st
        end
  end.

(** The backtracking matcher, in continuation-passing style: [m r k st]
    matches [r] at [st] and hands every end state to [k], in the order of
    priority, until [k] accepts one. *)
Fixpoint m (r : regex) (k : mstate → option mstate) (st : mstate)
  {struct r} : option mstate :=
  match r with
  | Eps => k st
  | Chr p =>
      match post st with
      | c :: s' => if p c then k (MState (c :: pre st) s' (caps st)) else None
      | [] => None
      end
  | Seq r1 r2 => m r1 (m r2 k) st
  | Alt r1 r2 =>
      match m r1 k st with
      | Some x => Some x
      | None => m r2 k st
      end
  | Star g r' =>
      star_loop (fun k' st' => m r' k' (clear_caps (groups r') st'))
        g k (length (post st)) st
  | Group i r' => m r' (fun st' => k (set_cap i (consumed st st') st')) st
  | NotAhead r' =>
      match m r' Some st with
      | Some _ => None
      | None => k st
      end
  | WordBoundary =>
      if xorb (is_word_at (pre st)) (is_word_at (post st)) then k st else None
  | EndLine =>
      match post st with
      | [] => k st
      | c :: _ => if is_line_terminator c then k st else None
      end
  end.

(** A successful match: where it starts, what it matched, what follows. *)
Record rmatch : Type := RMatch {
  m_before : jsstring;   (* reversed *)
  m_text : jsstring;
  m_after : jsstring;
  m_caps : list (nat * jsstring)
}.

Definition exec_at (r : regex) (before after : jsstring) : option rmatch :=
  match m r Some (MState before after []) with
  | Some e =>
      Some (RMatch before (take (length after - length (post e)) after)
              (post e) (caps e))
  | None => None
  end.

(** The leftmost match at or after the current position. *)
Fixpoint search (r : regex) (before after : jsstring) : option rmatch :=
  match exec_at r before after with
  | Some x => Some x
  | None =>
      match after with
      | [] => None
      | c :: after' => search r (c :: before) after'
      end
  end.

(** [rx.test(s)] and [s.match(rx)] for a regular expression without the
    [g] flag. *)
Definition test (r : regex) (s : jsstring) : bool :=
  match search r [] s with Some _ => true | None => false end.

Definition match_ (r : regex) (s : jsstring) : option rmatch := search r [] s.

(** The group [i] of a match; [None] is [undefined]. *)
Definition group (x : rmatch) (i : nat) : option jsstring := get_cap i (m_caps x).

(** [GetSubstitution]: the replacement text of a match for a template,
    where [ng] is the number of groups of the pattern. *)
Definition digit_val (c : N) : nat := N.to_nat (c - 48).

Definition cap_text (x : rmatch) (i : nat) : jsstring :=
  match group x i with Some s => s | None => [] end.

Fixpoint substitution (ng : nat) (x : rmatch) (t : jsstring) : jsstring :=
  match t with
  | 36 :: t1 =>
      match t1 with
      | 36 :: t2 => 36 :: substitution ng x t2
      | 38 :: t2 => m_text x ++ substitution ng x t2
      | 96 :: t2 => rev (m_before x) ++ substitution ng x t2
      | 39 :: t2 => m_after x ++ substitution ng x t2
      | d1 :: t2 =>
          if is_digit d1 then
            let one_digit :=
              let n1 := digit_val d1 in
              if ((1 <=? n1) && (n1 <=? ng))%nat
              then cap_text x n1 ++ substitution ng x t2
              else 36 :: substitution ng x t1 in
            match t2 with
            | d2 :: t3 =>
                let n2 := (10 * digit_val d1 + digit_val d2)%nat in
                if is_digit d2 && ((1 <=? n2) && (n2 <=? ng))%nat
                then cap_text x n2 ++ substitution ng x t3
                else one_digit
            | [] => one_digit
            end
          else 36 :: substitution ng x t1
      | [] => [36]
      end
  | c :: t1 => c :: substitution ng x t1
  | [] => []
  end.

(** [s.replace(rx, template)] for a regular expression with the [g] flag:
    every match from left to right; after an empty match the search moves
    one code unit on. *)
Fixpoint replace_go (fuel : nat) (r : regex) (t : jsstring)
    (before after : jsstring) : jsstring :=
  match fuel with
  | O => after
  | S fuel' =>
      match exec_at r before after with
      | Some x =>
          let ng := length (groups r) in
          match m_text x with
          | [] =>
              substitution ng x t ++
              match after with
              | [] => []
              | c :: after' => c :: replace_go fuel' r t (c :: before) after'
              end
          | _ =>
              substitution ng x t ++
              replace_go fuel' r t (rev (m_text x) ++ before) (m_after x)
          end
      | None =>
          match after with
          | [] => []
          | c :: after' => c :: replace_go fuel' r t (c :: before) after'
          end
      end
  end.

Definition replace_all (r : regex) (t : jsstring) (s : jsstring) : jsstring :=
  replace_go (S (length s)) r t [] s.

(** [s.replace(pat, template)] for a string [pat]: the first occurrence;
    the template is still read by [GetSubstitution], with no group. *)
Fixpoint find_str (pat : jsstring) (before after : jsstring) : option rmatch :=
  if startsWith after pat
  then Some (RMatch before pat (drop (length pat) after) [])
  else match after with
       | [] => None
       | c :: after' => find_str pat (c :: before) after'
       end.

Definition replace_str (s pat t : jsstring) : jsstring :=
  match find_str pat [] s with
  | Some x => rev (m_before x) ++ substitution 0 x t ++ m_after x
  | None => s
  end.

(** The loop [while ((m = rx.exec(src)))] for a regular expression with the
    [g] flag: every match, each search starting where the last match ended.
    A match of the empty string leaves [lastIndex] in place, so the loop
    of the source does not end; here the fuel runs out. *)
Fixpoint exec_loop (fuel : nat) (r : regex) (before after : jsstring)
  : option (list rmatch) :=
  match fuel with
  | O => None
  | S fuel' =>
      match search r before after with
      | None => Some []
      | Some x =>
          match exec_loop fuel' r (rev (m_text x) ++ m_before x) (m_after x) with
          | Some xs => Some (x :: xs)
          | None => None
          end
      end
  end.

(** *** Notions used to state the properties of the matcher *)

(** [st'] is [st] after some input [w] has been consumed. *)
Definition advances (st st' : mstate) : Prop :=
  ∃ w, post st = w ++ post st' ∧ pre st' = rev w ++ pre st.

(** Whatever a matcher returns was accepted by its continuation, at a state
    reached from the one it started from. *)
Definition shrinks
    (step : (mstate → option mstate) → mstate → option mstate) : Prop :=
  ∀ k st x, step k st = Some x → ∃ st', k st' = Some x ∧ advances st st'.

(** Patterns that begin with a character cannot match the empty string. *)
Fixpoint starts_chr (r : regex) : bool :=
  match r with
  | Chr _ => true
  | Seq a _ => starts_chr a
  | Alt a b => starts_chr a && starts_chr b
  | Group _ a => starts_chr a
  | _ => false
  end.

(** [Matches r before w after]: the pattern [r] can match the input [w]
    found between [before] (reversed) and [after]. *)
Inductive Matches : regex → jsstring → jsstring → jsstring → Prop :=
| M_Eps b a : Matches Eps b [] a
| M_Chr (p : N → bool) c b a : p c = true → Matches (Chr p) b [c] a
| M_Seq r1 r2 b w1 w2 a :
    Matches r1 b w1 (w2 ++ a) → Matches r2 (rev w1 ++ b) w2 a →
    Matches (Seq r1 r2) b (w1 ++ w2) a
| M_AltL r1 r2 b w a : Matches r1 b w a → Matches (Alt r1 r2) b w a
| M_AltR r1 r2 b w a : Matches r2 b w a → Matches (Alt r1 r2) b w a
| M_Star0 g r b a : Matches (Star g r) b [] a
| M_StarS g r b w1 w2 a :
    w1 ≠ [] → Matches r b w1 (w2 ++ a) →
    Matches (Star g r) (rev w1 ++ b) w2 a →
    Matches (Star g r) b (w1 ++ w2) a
| M_Group i r b w a : Matches r b w a → Matches (Group i r) b w a
| M_NotAhead r b a :
    (∀ cs, m r Some (MState b a cs) = None) → Matches (NotAhead r) b [] a
| M_WordBoundary b a :
    xorb (is_word_at b) (is_word_at a) = true → Matches WordBoundary b [] a
| M_EndLine b a :
    match a with [] => True | c :: _ => is_line_terminator c = true end →
    Matches EndLine b [] a.

(** The first position, from the current one on, that [k] accepts. *)
Fixpoint first_accept (k : mstate → option mstate) (b s : jsstring)
    (cs : list (nat * jsstring)) : option mstate :=
  match k (MState b s cs) with
  | Some x => Some x
  | None =>
      match s with
      | [] => None
      | c :: s' => first_accept k (c :: b) s' cs
      end
  end.

(** The continuation [k] accepts the position between [b] and [a],
    whatever the captures. *)
Definition accepts (k : mstate → option mstate) (b a : jsstring) : Prop :=
  ∀ cs, is_Some (k (MState b a cs)).

End RegExp.

(** ** The context resolver ([src/modules/contextResolver.ts]) *)

Module ContextResolver.
Import RegExp.

Record ContextFile : Type := { path : jsstring; content : jsstring }.

Definition quote : regex := Chr (oneof [squote; dquote]).
Definition spaces1 : regex := Plus (Chr is_space).
Definition nonspaces1 : regex := Plus (Chr (fun c => negb (is_space c))).
Definition words1 : regex := Plus (Chr is_word).

(** The captured relative path [(\.[^'\x22\n]+)]; in the comments below
    [\x22] stands for the double quote of the source. *)
Definition rel_path : regex :=
  Group 1 (Seq (Chr (one 46)) (Plus (Chr (noneof [squote; dquote; LF])))).

(** The bank [regexes] of [parseRelativeImports], in the order of the
    source. *)
Definition regexes : list regex :=
  [ (* /import\s+[^'\x22\n]+from\s+['\x22](\.[^'\x22\n]+)['\x22]/g *)
    seqs [Lit (lit "import"); spaces1;
          Plus (Chr (noneof [squote; dquote; LF]));
          Lit (lit "from"); spaces1; quote; rel_path; quote];
    (* /require\(\s*['\x22](\.[^'\x22\n]+)['\x22]\s*\)/g *)
    seqs [Lit (lit "require("); Star true (Chr is_space); quote; rel_path;
          quote; Star true (Chr is_space); Lit (lit ")")];
    (* /export\s+\*\s+from\s+['\x22](\.[^'\x22\n]+)['\x22]/g *)
    seqs [Lit (lit "export"); spaces1; Lit (lit "*"); spaces1;
          Lit (lit "from"); spaces1; quote; rel_path; quote];
    (* /from\s+\.\S+\s+import/g *)
    seqs [Lit (lit "from"); spaces1; Lit (lit "."); nonspaces1; spaces1;
          Lit (lit "import")];
    (* /import\s+\.\S+/g *)
    seqs [Lit (lit "import"); spaces1; Lit (lit "."); nonspaces1];
    (* /import\s+['\x22](\.[^'\x22\n]+)['\x22]/g *)
    seqs [Lit (lit "import"); spaces1; quote; rel_path; quote];
    (* /import\s+(\w+\.)+\w+/g *)
    seqs [Lit (lit "import"); spaces1;
          Plus (Group 1 (Seq words1 (Lit (lit ".")))); words1];
    (* /#include\s+['\x22](\.[^'\x22\n]+)['\x22]/g *)
    seqs [Lit (lit "#include"); spaces1; quote; rel_path; quote];
    (* /require_once\s+['\x22](\.[^'\x22\n]+)['\x22]/g *)
    seqs [Lit (lit "require_once"); spaces1; quote; rel_path; quote];
    (* /include\s+['\x22](\.[^'\x22\n]+)['\x22]/g *)
    seqs [Lit (lit "include"); spaces1; quote; rel_path; quote];
    (* /require_relative\s+['\x22](\.[^'\x22\n]+)['\x22]/g *)
    seqs [Lit (lit "require_relative"); spaces1; quote; rel_path; quote];
    (* /use\s+crate::/g *)
    seqs [Lit (lit "use"); spaces1; Lit (lit "crate::")];
    (* /mod\s+\w+/g *)
    seqs [Lit (lit "mod"); spaces1; words1] ].

(** [Array.from(new Set(found))]: the first occurrence of each element, in
    order. *)
Fixpoint uniq (seen : list jsstring) (l : list jsstring) : list jsstring :=
  match l with
  | [] => []
  | x :: l' =>
      if existsb (streq x) seen then uniq seen l'
      else x :: uniq (x :: seen) l'
  end.

(** The tokens [m[1]] of the matches of one expression, where truthy. *)
Definition found_of (xs : list rmatch) : list jsstring :=
  omap (fun x => match group x 1 with
                 | Some s => if truthy s then Some s else None
                 | None => None
                 end) xs.

(** The loop over [regexes]; [None] when an [exec] loop does not end. *)
Fixpoint collect (rs : list regex) (src : jsstring) : option (list jsstring) :=
  match rs with
  | [] => Some []
  | rx :: rs' =>
      match exec_loop (S (length src)) rx [] src with
      | None => None
      | Some xs =>
          match collect rs' src with
          | None => None
          | Some found => Some (found_of xs ++ found)
          end
      end
  end.

Definition parseRelativeImports (src : jsstring) : option (list jsstring) :=
  match collect regexes src with
  | Some found => Some (uniq [] found)
  | None => None
  end.

Definition extensions : list jsstring :=
  [] :: List.map lit
    [ ".ts"; ".tsx"; ".js"; ".jsx"; ".mjs"; ".cjs"; ".py"; ".pyi"; ".go";
      ".java"; ".kt"; ".kts"; ".c"; ".cpp"; ".cc"; ".cxx"; ".h"; ".hpp";
      ".php"; ".rb"; ".rs"; ".swift"; ".cs"; ".vue"; ".svelte"; ".dart";
      ".scala"; ".lua"; ".r"; ".R" ]%string.

Definition indexFiles : list jsstring :=
  List.map lit
    [ "index.ts"; "index.tsx"; "index.js"; "index.jsx"; "__init__.py";
      "mod.rs" ]%string.

(** The file system and Node's [path] module, as the resolver uses them.
    [readFileSync] is [None] where the call of the source throws. *)
Record Env : Type := {
  cwd : jsstring;
  path_join : list jsstring → jsstring;
  path_dirname : jsstring → jsstring;
  path_isAbsolute : jsstring → bool;
  path_relative : jsstring → jsstring → jsstring;
  existsSync : jsstring → bool;
  readFileSync : jsstring → option jsstring
}.

Section resolver.
Context (E : Env).

(** [files.slice(0, limit)]. *)
Definition slice_limit {A} (l : list A) (limit : Z) : list A :=
  if (limit <? 0)%Z then take (length l - Z.to_nat (- limit)) l
  else take (Z.to_nat limit) l.

Fixpoint read_all (files : list jsstring) : list ContextFile :=
  match files with
  | [] => []
  | f :: fs =>
      match readFileSync E f with
      | Some c => {| path := f; content := slice0 20000 c |} :: read_all fs
      | None => read_all fs
      end
  end.

Definition pickContextFiles (files : list jsstring) (limit : Z)
  : list ContextFile :=
  read_all (slice_limit files limit).

Definition resolveImportPath (fromFile rel : jsstring) : option jsstring :=
  let baseDir :=
    path_dirname E
      (if path_isAbsolute E fromFile then fromFile
       else path_join E [cwd E; fromFile]) in
  let candidates :=
    List.map (fun ext => path_join E [baseDir; rel ++ ext]) extensions ++
    List.map (fun idx => path_join E [baseDir; rel; idx]) indexFiles in
  match List.find (existsSync E) candidates with
  | Some c => Some (path_relative E (cwd E) c)
  | None => None
  end.

(** The variables [out], [seen] and [queue] of [expandContextByImports]. *)
Record xstate : Type := XState {
  out : list ContextFile;
  seen : gset jsstring;
  queue : list ContextFile
}.

(** The loop [for (const imp of imports)] for one dequeued item. *)
Fixpoint expand_item (maxFiles : Z) (from : jsstring) (imports : list jsstring)
    (st : xstate) : xstate :=
  match imports with
  | [] => st
  | imp :: rest =>
      match resolveImportPath from imp with
      | None => expand_item maxFiles from rest st
      | Some resolved =>
          if negb (truthy resolved) then expand_item maxFiles from rest st
          else if bool_decide (resolved ∈ seen st)
          then expand_item maxFiles from rest st
          else
            match readFileSync E resolved with
            | None => expand_item maxFiles from rest st
            | Some c =>
                let entry := {| path := resolved; content := slice0 20000 c |} in
                let st' := XState (out st ++ [entry]) ({[resolved]} ∪ seen st)
                             (queue st ++ [entry]) in
                if (Z.of_nat (length (out st')) >=? maxFiles)%Z then st'
                else expand_item maxFiles from rest st'
            end
      end
  end.

(** The loop [while (queue.length && out.length < maxFiles)]; [None] when
    the fuel runs out. *)
Fixpoint expand_loop (fuel : nat) (maxFiles : Z) (st : xstate)
  : option (list ContextFile) :=
  match fuel with
  | O => None
  | S fuel' =>
      match queue st with
      | [] => Some (out st)
      | item :: queue' =>
          if (Z.of_nat (length (out st)) <? maxFiles)%Z then
            match parseRelativeImports (content item) with
            | None => None
            | Some imports =>
                expand_loop fuel' maxFiles
                  (expand_item maxFiles (path item) imports
                     (XState (out st) (seen st) queue'))
            end
          else Some (out st)
      end
  end.

Definition init_state (seed : list ContextFile) : xstate :=
  XState seed (list_to_set (List.map path seed)) seed.

Definition expand_fuel (seed : list ContextFile) (maxFiles : Z) : nat :=
  S (length seed + Z.to_nat maxFiles).

Definition expandContextByImports (seed : list ContextFile) (maxFiles : Z)
  : option (list ContextFile) :=
  expand_loop (expand_fuel seed maxFiles) maxFiles (init_state seed).

(** The invariant of the outer loop: [seen] holds the paths of [out]. *)
Definition seen_ok (st : xstate) : Prop :=
  seen st = list_to_set (path <$> out st).

End resolver.

(** *** A small file system to run the resolver on

    A simplified model of Node's [path] for POSIX paths and a file system
    given by a list of files. The properties below hold for every [Env];
    this one serves the examples. *)

Definition slash : N := 47.

Fixpoint join_segments (segs : list jsstring) : jsstring :=
  match segs with
  | [] => []
  | [s] => s
  | s :: segs' => s ++ slash :: join_segments segs'
  end.

Fixpoint normalize_go (segs acc : list jsstring) : list jsstring :=
  match segs with
  | [] => rev acc
  | s :: segs' =>
      if streq s [] || streq s (lit ".") then normalize_go segs' acc
      else if streq s (lit "..") then normalize_go segs' (tail acc)
      else normalize_go segs' (s :: acc)
  end.

Definition posix_normalize (p : jsstring) : jsstring :=
  (if startsWith p [slash] then [slash] else [])
  ++ join_segments (normalize_go (split slash p) []).

Definition posix_join (parts : list jsstring) : jsstring :=
  posix_normalize (join_segments (List.filter truthy parts)).

Definition posix_dirname (p : jsstring) : jsstring :=
  (if startsWith p [slash] then [slash] else [])
  ++ join_segments (removelast (normalize_go (split slash p) [])).

Definition posix_relative (from to : jsstring) : jsstring :=
  if startsWith to (from ++ [slash]) then drop (S (length from)) to
  else if streq from to then [] else to.

Definition lookup_file (files : list (jsstring * jsstring)) (p : jsstring)
  : option jsstring :=
  match List.find (fun f => streq f.1 p) files with
  | Some f => Some f.2
  | None => None
  end.

Definition env_of (dir : jsstring) (files : list (jsstring * jsstring)) : Env :=
  let absolute p :=
    if startsWith p [slash] then posix_normalize p else posix_join [dir; p] in
  {| cwd := dir;
     path_join := posix_join;
     path_dirname := posix_dirname;
     path_isAbsolute := fun p => startsWith p [slash];
     path_relative := posix_relative;
     existsSync := fun p =>
       match lookup_file files (absolute p) with Some _ => true | None => false end;
     readFileSync := fun p => lookup_file files (absolute p) |}.

Definition demo_env : Env :=
  env_of (lit "/w")
    [ (lit "/w/a.ts", lit "import x from './b'");
      (lit "/w/b.ts", lit "export const b = 1") ].

Definition file_a : ContextFile :=
  {| path := lit "a.ts"; content := lit "import x from './b'" |}.
Definition file_b : ContextFile :=
  {| path := lit "b.ts"; content := lit "export const b = 1" |}.

End ContextResolver.

(** ** JSON values and [JSON.parse] *)

Module Json.

Inductive JSON : Type :=
| JNull
| JBool (b : bool)
| JNumber (lexeme : jsstring)
| JString (s : jsstring)
| JArray (elems : list JSON)
| JObject (members : list (jsstring * JSON)).

(** The result of a parsing function: out of fuel, a syntax error, or a
    value and the input that follows it. *)
Inductive pres (A : Type) : Type :=
| NoFuel
| Bad
| Ok (a : A) (rest : jsstring).
Arguments NoFuel {A}.
Arguments Bad {A}.
Arguments Ok {A} a rest.

Definition is_json_ws (c : N) : bool :=
  (c =? 9) || (c =? 10) || (c =? 13) || (c =? 32).

Fixpoint skip_ws (s : jsstring) : jsstring :=
  match s with
  | c :: s' => if is_json_ws c then skip_ws s' else s
  | [] => []
  end.

Definition hex_val (c : N) : option N :=
  if is_digit c then Some (c - 48)
  else if (97 <=? c) && (c <=? 102) then Some (c - 87)
  else if (65 <=? c) && (c <=? 70) then Some (c - 55)
  else None.

Definition hex4 (a b c d : N) : option N :=
  match hex_val a, hex_val b, hex_val c, hex_val d with
  | Some x, Some y, Some z, Some w => Some (((x * 16 + y) * 16 + z) * 16 + w)
  | _, _, _, _ => None
  end.

(** The character an escape letter stands for. *)
Definition escape_char (e : N) : option N :=
  if (e =? 34) || (e =? 92) || (e =? 47) then Some e
  else if e =? 98 then Some 8
  else if e =? 102 then Some 12
  else if e =? 110 then Some 10
  else if e =? 114 then Some 13
  else if e =? 116 then Some 9
  else None.

(** The characters of a string after its opening quote, up to and
    including the closing quote; [acc] is reversed. *)
Fixpoint parse_chars (s acc : jsstring) : option (jsstring * jsstring) :=
  match s with
  | [] => None
  | c :: r =>
      if c =? 34 then Some (rev acc, r)
      else if c =? 92 then
        match r with
        | [] => None
        | e :: r1 =>
            if e =? 117 then
              match r1 with
              | a :: b :: c :: d :: r2 =>
                  match hex4 a b c d with
                  | Some u => parse_chars r2 (u :: acc)
                  | None => None
                  end
              | _ => None
              end
            else
              match escape_char e with
              | Some x => parse_chars r1 (x :: acc)
              | None => None
              end
        end
      else if c <? 32 then None
      else parse_chars r (c :: acc)
  end.

Fixpoint span_digits (s : jsstring) : jsstring * jsstring :=
  match s with
  | c :: s' =>
      if is_digit c then let '(ds, r) := span_digits s' in (c :: ds, r)
      else ([], s)
  | [] => ([], [])
  end.

(** A number: an optional minus sign, an integer part without a leading
    zero, an optional fraction and an optional exponent. The value keeps
    its lexeme. *)
Definition parse_exp (lx s : jsstring) : option (jsstring * jsstring) :=
  match s with
  | e :: r =>
      if (e =? 101) || (e =? 69) then
        let '(sign, r1) :=
          match r with
          | sg :: r' => if (sg =? 43) || (sg =? 45) then ([sg], r') else ([], r)
          | [] => ([], r)
          end in
        match span_digits r1 with
        | ([], _) => None
        | (ds, r2) => Some (lx ++ e :: sign ++ ds, r2)
        end
      else Some (lx, s)
  | [] => Some (lx, s)
  end.

Definition parse_frac (lx s : jsstring) : option (jsstring * jsstring) :=
  match s with
  | c :: r =>
      if c =? 46 then
        match span_digits r with
        | ([], _) => None
        | (ds, r1) => parse_exp (lx ++ 46 :: ds) r1
        end
      else parse_exp lx s
  | [] => parse_exp lx s
  end.

Definition parse_int (sign s : jsstring) : option (jsstring * jsstring) :=
  match s with
  | c :: r =>
      if c =? 48 then parse_frac (sign ++ [48]) r
      else if is_digit c then
        let '(ds, r1) := span_digits r in parse_frac (sign ++ c :: ds) r1
      else None
  | [] => None
  end.

Definition parse_number (s : jsstring) : option (jsstring * jsstring) :=
  match s with
  | c :: r => if c =? 45 then parse_int [45] r else parse_int [] s
  | [] => None
  end.

(** A value, the elements of an array after its first bracket, and the
    members of an object after its first brace. *)
Fixpoint parse_value (fuel : nat) (s : jsstring) : pres JSON :=
  match fuel with
  | O => NoFuel
  | S f =>
      match skip_ws s with
      | [] => Bad
      | c :: r =>
          if c =? 123 then
            match skip_ws r with
            | [] => Bad
            | c1 :: r1 =>
                if c1 =? 125 then Ok (JObject []) r1
                else parse_members f (c1 :: r1) []
            end
          else if c =? 91 then
            match skip_ws r with
            | [] => Bad
            | c1 :: r1 =>
                if c1 =? 93 then Ok (JArray []) r1
                else parse_elems f (c1 :: r1) []
            end
          else if c =? 34 then
            match parse_chars r [] with
            | Some (str, r1) => Ok (JString str) r1
            | None => Bad
            end
          else if startsWith (c :: r) (lit "true")
          then Ok (JBool true) (drop 4 (c :: r))
          else if startsWith (c :: r) (lit "false")
          then Ok (JBool false) (drop 5 (c :: r))
          else if startsWith (c :: r) (lit "null")
          then Ok JNull (drop 4 (c :: r))
          else
            match parse_number (c :: r) with
            | Some (lx, r1) => Ok (JNumber lx) r1
            | None => Bad
            end
      end
  end
with parse_elems (fuel : nat) (s : jsstring) (acc : list JSON) : pres JSON :=
  match fuel with
  | O => NoFuel
  | S f =>
      match parse_value f s with
      | Ok v r =>
          match skip_ws r with
          | [] => Bad
          | c :: r1 =>
              if c =? 44 then parse_elems f r1 (v :: acc)
              else if c =? 93 then Ok (JArray (rev (v :: acc))) r1
              else Bad
          end
      | Bad => Bad
      | NoFuel => NoFuel
      end
  end
with parse_members (fuel : nat) (s : jsstring) (acc : list (jsstring * JSON))
  : pres JSON :=
  match fuel with
  | O => NoFuel
  | S f =>
      match skip_ws s with
      | [] => Bad
      | q :: r =>
          if q =? 34 then
            match parse_chars r [] with
            | None => Bad
            | Some (key, r1) =>
                match skip_ws r1 with
                | [] => Bad
                | c :: r2 =>
                    if c =? 58 then
                      match parse_value f r2 with
                      | Ok v r3 =>
                          match skip_ws r3 with
                          | [] => Bad
                          | d :: r4 =>
                              if d =? 44
                              then parse_members f r4 ((key, v) :: acc)
                              else if d =? 125
                              then Ok (JObject (rev ((key, v) :: acc))) r4
                              else Bad
                          end
                      | Bad => Bad
                      | NoFuel => NoFuel
                      end
                    else Bad
                end
            end
          else Bad
      end
  end.

(** [JSON.parse(text)]; [None] where the call throws a [SyntaxError]. *)
Definition JSON_parse (text : jsstring) : option JSON :=
  match parse_value (2 * length text + 1) text with
  | Ok v rest => match skip_ws rest with [] => Some v | _ => None end
  | _ => None
  end.

(** [v[key]] for a property that no prototype defines: an own property of
    an object, the last one when the text repeats the key. [None] is
    [undefined]. *)
Fixpoint last_member (key : jsstring) (ms : list (jsstring * JSON))
  : option JSON :=
  match ms with
  | [] => None
  | (k, v) :: ms' =>
      match last_member key ms' with
      | Some v' => Some v'
      | None => if streq k key then Some v else None
      end
  end.

Definition get (v : JSON) (key : jsstring) : option JSON :=
  match v with
  | JObject ms => last_member key ms
  | _ => None
  end.

(** [v ?? d]. *)
Definition nullish (v : option JSON) (d : JSON) : JSON :=
  match v with
  | None | Some JNull => d
  | Some x => x
  end.

Section to_string.
(** [Number.prototype.toString] of the number a lexeme denotes. *)
Context (number_to_string : jsstring → jsstring).

(** An object of a parsed text has its own property [key]. *)
Definition own_key (key : jsstring) (ms : list (jsstring * JSON)) : bool :=
  existsb (fun kv => streq (fst kv) key) ms.

(** [Array.prototype.join] with the strings [f] gives for the elements,
    from left to right; [None] as soon as one of them throws. *)
Fixpoint joined (f : JSON → option jsstring) (l : list JSON)
  : option jsstring :=
  match l with
  | [] => Some []
  | [x] => f x
  | x :: l' =>
      match f x with
      | Some s =>
          match joined f l' with
          | Some t => Some (s ++ 44 :: t)
          | None => None
          end
      | None => None
      end
  end.

(** [String(v)]; [None] where the conversion throws a [TypeError]. An
    array is joined, [null] elements giving the empty string. An object is
    converted by its [toString]: the one of [Object.prototype], unless the
    object has an own property of that name, which in a parsed text is
    never a function; [valueOf] then gives the object itself and the
    conversion throws. *)
Fixpoint ToString (v : JSON) : option jsstring :=
  match v with
  | JNull => Some (lit "null")
  | JBool true => Some (lit "true")
  | JBool false => Some (lit "false")
  | JNumber lx => Some (number_to_string lx)
  | JString s => Some s
  | JArray l =>
      joined (fun x => match x with JNull => Some [] | _ => ToString x end) l
  | JObject ms =>
      if own_key (lit "toString") ms then None
      else Some (lit "[object Object]")
  end.

End to_string.

End Json.

(** ** The analyzer and its heuristic scanner ([src/modules/groq.ts]) *)

Module Groq.
Import RegExp Json.

(** The result of a call that may throw. *)
Inductive outcome (A : Type) : Type :=
| Return (a : A)
| Throw.
Arguments Return {A} a.
Arguments Throw {A}.

(** The values of a line counter. The counter is a double that starts at
    zero, is set by [parseInt] on a string of digits and is incremented:
    it holds a non-negative integer, or [Infinity]. *)
Inductive number : Type :=
| Fin (n : Z)
| Infinity.
Coercion Fin : Z >-> number.
Bind Scope Z_scope with number.

(** The double nearest to an integer [n ≥ 0], ties going to the even
    significand. Up to [2 ^ 53] every integer is a double; above, [n] is
    rounded to a multiple of [2 ^ e] that has 53 significant bits, and the
    result is [Infinity] when that multiple reaches [2 ^ 1024]. *)
Definition to_number (n : Z) : number :=
  if (n <? 2 ^ 53)%Z then Fin n
  else
    let e := (Z.log2 n - 52)%Z in
    let q := (n / 2 ^ e)%Z in
    let r := (n mod 2 ^ e)%Z in
    let half := (2 ^ (e - 1))%Z in
    let q' := if (half <? r)%Z || ((r =? half)%Z && Z.odd q)
              then (q + 1)%Z else q in
    if (q' * 2 ^ e <? 2 ^ 1024)%Z then Fin (q' * 2 ^ e) else Infinity.

(** [x + 1], as [lineNumber++] computes it. *)
Definition increment (x : number) : number :=
  match x with
  | Fin n => to_number (n + 1)
  | Infinity => Infinity
  end.

(** [x <= y]. *)
Definition number_le (x y : number) : Prop :=
  match x, y with
  | Fin a, Fin b => (a ≤ b)%Z
  | _, Infinity => True
  | Infinity, Fin _ => False
  end.

(** [ReviewIssue]. An optional field is [None] when the object does not
    have it. [severity] holds whatever value the object carries. *)
Record ReviewIssue : Type := {
  file : jsstring;
  problem : jsstring;
  fix_ : jsstring;
  severity : option JSON;
  line : option number;
  snippet : option jsstring;
  autoFixable : option bool;
  fixedCode : option jsstring
}.

(** *** [HEURISTIC_PATTERNS] *)

Definition space0 : regex := Star true (Chr is_space).
Definition quote : regex := Chr (oneof [dquote; squote]).

(* /JSON\.parse\(\s*[^)]+\s*\)\.\w+/ *)
Definition jsonParse : regex :=
  seqs [Lit (lit "JSON.parse("); space0; Plus (Chr (noneof (lit ")")));
        space0; Lit (lit ")."); Plus (Chr is_word)].

(* /\.\w+\(\)\.then\(/ *)
Definition unhandledPromise : regex :=
  seqs [Lit (lit "."); Plus (Chr is_word); Lit (lit "().then(")].

(* /catch\(/ *)
Definition catchHandler : regex := Lit (lit "catch(").

(* /eval\(/ *)
Definition eval : regex := Lit (lit "eval(").

(* /(password|secret|api[_-]?key|token)[\s]*=[\s]*['\x22][^'\x22]+['\x22]/i,
   where \x22 stands for the double quote of the source *)
Definition hardcodedSecret : regex :=
  seqs [Group 1 (alts [LitI (lit "password"); LitI (lit "secret");
                       seqs [LitI (lit "api"); Opt (Chr (oneof (lit "_-")));
                             LitI (lit "key")];
                       LitI (lit "token")]);
        space0; Lit (lit "="); space0;
        Chr (oneof [squote; dquote]);
        Plus (Chr (noneof [squote; dquote]));
        Chr (oneof [squote; dquote])].

(* /innerHTML[\s]*=/ *)
Definition innerHTML : regex := seqs [Lit (lit "innerHTML"); space0; Lit (lit "=")].

(* /DOMPurify|sanitize/ *)
Definition sanitize : regex := Alt (Lit (lit "DOMPurify")) (Lit (lit "sanitize")).

(* /<img[^>]+src\s*=\s*[\x22']\s*[\x22']/ *)
Definition emptySrc : regex :=
  seqs [Lit (lit "<img"); Plus (Chr (noneof (lit ">"))); Lit (lit "src");
        space0; Lit (lit "="); space0; quote; space0; quote].

(* /<a[^>]+href\s*=\s*[\x22']\s*[\x22']/ *)
Definition emptyHref : regex :=
  seqs [Lit (lit "<a"); Plus (Chr (noneof (lit ">"))); Lit (lit "href");
        space0; Lit (lit "="); space0; quote; space0; quote].

(* /addEventListener\(/ *)
Definition addEventListener : regex := Lit (lit "addEventListener(").

(* /setInterval\(/ *)
Definition setInterval : regex := Lit (lit "setInterval(").

(* /<img/ *)
Definition imgTag : regex := Lit (lit "<img").

(* /<img[^>]+(?!alt=)/ *)
Definition missingAlt : regex :=
  seqs [Lit (lit "<img"); Plus (Chr (noneof (lit ">")));
        NotAhead (Lit (lit "alt="))].

(** *** [heuristicScan] *)

(** An issue pushed by the scanner. *)
Definition found (problem remedy severity : string) (currentFile : jsstring)
    (lineNumber : number) (added : jsstring) : ReviewIssue :=
  {| file := currentFile;
     problem := lit problem;
     fix_ := lit remedy;
     severity := Some (JString (lit severity));
     line := Some lineNumber;
     snippet := Some (trim added);
     autoFixable := None;
     fixedCode := None |}.

Definition when (b : bool) (i : ReviewIssue) : list ReviewIssue :=
  if b then [i] else [].

(** The checks run on one added line, in the order of the source. *)
Definition line_issues (currentFile : jsstring) (lineNumber : number)
    (added : jsstring) : list ReviewIssue :=
  when (includes added (lit "JSON.parse") && test jsonParse added)
    (found "Unsafe JSON.parse - accessing properties without validation"
       "Validate parsed data before accessing properties" "critical"
       currentFile lineNumber added)
  ++ when (includes added (lit ".then(") && test unhandledPromise added
           && negb (test catchHandler added))
    (found "Unhandled promise rejection - missing .catch()"
       "Add .catch() handler or use try/catch" "critical"
       currentFile lineNumber added)
  ++ when (includes added (lit "eval") && test eval added)
    (found "Security: eval() executes arbitrary code"
       "Use JSON.parse() or safer alternatives" "critical"
       currentFile lineNumber added)
  ++ when ((includes added (lit "password") || includes added (lit "secret")
            || includes added (lit "key") || includes added (lit "token"))
           && test hardcodedSecret added)
    (found "Security: Hardcoded secret detected"
       "Move to environment variables (.env)" "critical"
       currentFile lineNumber added)
  ++ when (includes added (lit "innerHTML") && test innerHTML added
           && negb (test sanitize added))
    (found "XSS vulnerability: innerHTML without sanitization"
       "Use textContent or sanitize with DOMPurify" "critical"
       currentFile lineNumber added)
  ++ when (includes added (lit "<img")
           && includes added (lit "src=" ++ [dquote; dquote])
           && test emptySrc added)
    (found "Empty img src causes 404 errors"
       "Provide valid src or remove tag" "critical"
       currentFile lineNumber added)
  ++ when (includes added (lit "<a")
           && includes added (lit "href=" ++ [dquote; dquote])
           && test emptyHref added)
    (found "Empty href causes page reload"
       "Use valid href or replace with button" "critical"
       currentFile lineNumber added)
  ++ when (includes added (lit "addEventListener")
           && test addEventListener added)
    (found "Memory leak: addEventListener without cleanup"
       "Remove listener in cleanup function" "warning"
       currentFile lineNumber added)
  ++ when (includes added (lit "setInterval") && test setInterval added)
    (found "Memory leak: setInterval without clearInterval"
       "Call clearInterval in cleanup" "warning"
       currentFile lineNumber added)
  ++ when (includes added (lit "<img") && test imgTag added
           && test missingAlt added)
    (found "Accessibility: Missing alt attribute"
       "Add alt text for screen readers" "warning"
       currentFile lineNumber added).

(** The integer a string of decimal digits denotes. *)
Definition decimal (s : jsstring) : Z :=
  fold_left (fun n c => (10 * n + Z.of_N (c - 48))%Z) s 0%Z.

(** [parseInt(s, 10)] for a string of decimal digits: the double nearest
    to the integer the digits denote. *)
Definition parseInt (s : jsstring) : number := to_number (decimal s).

(* /\+(\d+)/ *)
Definition hunkStart : regex :=
  Seq (Lit (lit "+")) (Group 1 (Plus (Chr is_digit))).

(** The variables of the scanner. *)
Record scan : Type := Scan {
  results : list ReviewIssue;
  currentFile : jsstring;
  lineNumber : number
}.

(** One turn of [for (const line of lines)]. *)
Definition scan_line (st : scan) (line : jsstring) : scan :=
  if startsWith line (lit "+++ b/") then
    Scan (results st) (trim (replace_str line (lit "+++ b/") [])) 0%Z
  else if startsWith line (lit "@@") then
    match match_ hunkStart line with
    | Some x => Scan (results st) (currentFile st) (parseInt (cap_text x 1))
    | None => st
    end
  else if startsWith line (lit "+") && negb (startsWith line (lit "+++")) then
    let lineNumber := increment (lineNumber st) in
    let added := drop 1 line in
    Scan (results st ++ line_issues (currentFile st) lineNumber added)
      (currentFile st) lineNumber
  else st.

Definition ContextFile := ContextResolver.ContextFile.

Definition heuristicScan (diff : jsstring) (_context : list ContextFile)
  : list ReviewIssue :=
  results (fold_left scan_line (split LF diff) (Scan [] [] 0%Z)).

(** *** [safeParseIssues] and [normalizeIssues] *)

Section analyzer.
Context (number_to_string : jsstring → jsstring).

Definition String_ (v : JSON) : outcome jsstring :=
  match ToString number_to_string v with
  | Some s => Return s
  | None => Throw
  end.

(** The object built for one element [it]: reading a property of [null]
    throws, and so does [String] on a [file], [problem] or [fix] that
    cannot be converted. *)
Definition normalize_one (it : JSON) : outcome ReviewIssue :=
  match it with
  | JNull => Throw
  | _ =>
      match String_ (nullish (get it (lit "file")) (JString [])) with
      | Throw => Throw
      | Return file_ =>
          match String_ (nullish (get it (lit "problem")) (JString [])) with
          | Throw => Throw
          | Return problem_ =>
              match String_ (nullish (get it (lit "fix")) (JString [])) with
              | Throw => Throw
              | Return fix' =>
                  Return
                    {| file := file_;
                       problem := problem_;
                       fix_ := fix';
                       severity :=
                         Some (nullish (get it (lit "severity"))
                                 (JString (lit "warning")));
                       line := None;
                       snippet := None;
                       autoFixable := None;
                       fixedCode := None |}
              end
          end
      end
  end.

Fixpoint map_outcome {A B} (f : A → outcome B) (l : list A) : outcome (list B) :=
  match l with
  | [] => Return []
  | x :: l' =>
      match f x with
      | Throw => Throw
      | Return y =>
          match map_outcome f l' with
          | Throw => Throw
          | Return ys => Return (y :: ys)
          end
      end
  end.

Definition normalizeIssues (arr : list JSON) : outcome (list ReviewIssue) :=
  match map_outcome normalize_one arr with
  | Throw => Throw
  | Return its =>
      Return (List.filter
                (fun it => truthy (file it) && truthy (problem it)
                           && truthy (fix_ it)) its)
  end.

(** The class [[\s\S]]. *)
Definition any_char (c : N) : bool := is_space c || negb (is_space c).

(* /\[([\s\S]*?)\]/ *)
Definition jsonBlock : regex :=
  seqs [Lit (lit "["); Group 1 (Star false (Chr any_char)); Lit (lit "]")].

(** One [try] block of [safeParseIssues]: [None] when the block is left
    without a [return], by an exception or because the value is not an
    array. *)
Definition try_parse (text : jsstring) : option (list ReviewIssue) :=
  match JSON_parse text with
  | Some (JArray arr) =>
      match normalizeIssues arr with
      | Return issues => Some issues
      | Throw => None
      end
  | _ => None
  end.

Definition safeParseIssues (text : jsstring) : list ReviewIssue :=
  match try_parse text with
  | Some issues => issues
  | None =>
      match match_ jsonBlock text with
      | Some x =>
          match try_parse (m_text x) with
          | Some issues => issues
          | None => []
          end
      | None => []
      end
  end.

(** The text from the first opening bracket to the first closing bracket
    that follows it. *)
Fixpoint upto_close (s : jsstring) : option jsstring :=
  match s with
  | [] => None
  | c :: s' =>
      if c =? 93 then Some [93]
      else match upto_close s' with
           | Some t => Some (c :: t)
           | None => None
           end
  end.

Fixpoint first_block (s : jsstring) : option jsstring :=
  match s with
  | [] => None
  | c :: s' =>
      if c =? 91 then
        match upto_close s' with
        | Some t => Some (91 :: t)
        | None => None
        end
      else first_block s'
  end.

(** The block as the specification words it, to compare with the code:
    the first balanced bracketed array of a text. [close_of depth s] is
    the text up to the bracket that closes the array opened [depth] levels
    above. *)
Fixpoint close_of (depth : nat) (s : jsstring) : option jsstring :=
  match s with
  | [] => None
  | c :: s' =>
      if c =? 93 then
        match depth with
        | O => Some [93]
        | S d => match close_of d s' with
                 | Some t => Some (c :: t)
                 | None => None
                 end
        end
      else
        match close_of (if c =? 91 then S depth else depth) s' with
        | Some t => Some (c :: t)
        | None => None
        end
  end.

Fixpoint balanced_block (s : jsstring) : option jsstring :=
  match s with
  | [] => None
  | c :: s' =>
      if c =? 91 then
        match close_of 0 s' with
        | Some t => Some (91 :: t)
        | None => balanced_block s'
        end
      else balanced_block s'
  end.

(** The extraction as the specification words it: a direct parse, else
    the first balanced bracketed array, else nothing. *)
Definition safeParseIssues_spec (text : jsstring) : list ReviewIssue :=
  match try_parse text with
  | Some issues => issues
  | None =>
      match balanced_block text with
      | Some block => default [] (try_parse block)
      | None => []
      end
  end.

(** [safeParseIssues] on a value that is not a string: [JSON.parse]
    converts it to a string, inside the first [try] block, and
    [text.match] is not a function. *)
Definition safeParseIssues_any (content : JSON) : outcome (list ReviewIssue) :=
  match content with
  | JString text => Return (safeParseIssues text)
  | _ =>
      match String_ content with
      | Return text =>
          match try_parse text with
          | Some issues => Return issues
          | None => Throw
          end
      | Throw => Throw
      end
  end.

(** *** [analyzeWithGroq] *)

(** What the awaited [fetch] gives: a rejection, or a response with its
    [ok] flag, its status, and the results of [text()] and [json()], [None]
    where the promise rejects. *)
Record response : Type := {
  ok : bool;
  status : Z;
  text : option jsstring;
  json : option JSON
}.

Inductive fetched : Type :=
| Rejected
| Resolved (r : response).

(** [v?.[0]] and [v?.key]. *)
Definition index0 (v : option JSON) : option JSON :=
  match v with
  | None | Some JNull => None
  | Some (JArray (x :: _)) => Some x
  | Some (JString (c :: _)) => Some (JString [c])
  | Some x => get x (lit "0")
  end.

Definition member (v : option JSON) (key : jsstring) : option JSON :=
  match v with
  | None | Some JNull => None
  | Some x => get x key
  end.

(** [data?.choices?.[0]?.message?.content ?? "[]"]. *)
Definition content_of (data : JSON) : JSON :=
  nullish
    (member (member (index0 (member (Some data) (lit "choices")))
               (lit "message")) (lit "content"))
    (JString (lit "[]")).

(** The body of the [try] block, from the awaited response on. *)
Definition analyze_try (res : fetched) (diff : jsstring)
    (contextFiles : list ContextFile) : outcome (list ReviewIssue) :=
  match res with
  | Rejected => Throw
  | Resolved r =>
      if negb (ok r) then Throw
      else
        match json r with
        | None => Throw
        | Some data =>
            match safeParseIssues_any (content_of data) with
            | Throw => Throw
            | Return issues =>
                Return (match issues with
                        | [] => heuristicScan diff contextFiles
                        | _ => issues
                        end)
            end
        end
  end.

(** [analyzeWithGroq]: [apiKey] is [process.env.GROQ_API_KEY] and [res] the
    outcome of the request. *)
Definition analyzeWithGroq (apiKey : option jsstring) (res : fetched)
    (diff : jsstring) (contextFiles : list ContextFile)
  : outcome (list ReviewIssue) :=
  match apiKey with
  | None | Some [] => Throw
  | Some _ =>
      match analyze_try res diff contextFiles with
      | Return issues => Return issues
      | Throw => Return (heuristicScan diff contextFiles)
      end
  end.

(** The ways in which the remote analysis fails or finds nothing: the
    request throws, the response is not OK, its body is not JSON,
    the extraction of the issues throws, or it yields no issue. *)
Inductive remote_failed : fetched → Prop :=
| failed_rejected : remote_failed Rejected
| failed_not_ok r : ok r = false → remote_failed (Resolved r)
| failed_no_json r : json r = None → remote_failed (Resolved r)
| failed_extraction r data :
    json r = Some data → safeParseIssues_any (content_of data) = Throw →
    remote_failed (Resolved r)
| failed_no_issue r data :
    json r = Some data → safeParseIssues_any (content_of data) = Return [] →
    remote_failed (Resolved r).

End analyzer.

(** An issue that carries the four normalized fields only. *)
Definition bare (issue : ReviewIssue) : Prop :=
  line issue = None ∧ snippet issue = None ∧ autoFixable issue = None ∧
  fixedCode issue = None.

(** The issues of a list that state a given problem. *)
Definition stating (p : jsstring) (l : list ReviewIssue) : list ReviewIssue :=
  List.filter (fun i => streq (problem i) p) l.

(** The names the pattern [hardcodedSecret] knows, in lower case. *)
Definition secret_names : list jsstring :=
  List.map lit
    [ "password"; "secret"; "apikey"; "api_key"; "api-key"; "token" ]%string.

Definition is_quote (c : N) : bool := oneof [squote; dquote] c.

(** The added text assigns a quoted, non-empty literal to one of these
    names: the name, optional white space, [=], optional white space, a
    quote, at least one character that is not a quote, and a quote. *)
Definition assigns_secret (added : jsstring) : Prop :=
  ∃ before name ws1 ws2 q1 value q2 after,
    added = before ++ name ++ ws1 ++ lit "=" ++ ws2 ++ q1 :: value
                   ++ q2 :: after ∧
    name ∈ secret_names ∧
    Forall (fun c => is_space c = true) ws1 ∧
    Forall (fun c => is_space c = true) ws2 ∧
    is_quote q1 = true ∧ is_quote q2 = true ∧
    value ≠ [] ∧ Forall (fun c => is_quote c = false) value.

(** What follows [<img] up to the end of the tag, and the rest. *)
Fixpoint upto_gt (s : jsstring) : jsstring :=
  match s with
  | c :: s' => if c =? 62 then [] else c :: upto_gt s'
  | [] => []
  end.

Fixpoint from_gt (s : jsstring) : jsstring :=
  match s with
  | c :: s' => if c =? 62 then s else from_gt s'
  | [] => []
  end.

(** *** Inputs of the examples *)

(** One file header, the hunk header [@@ -1,3 +10,3 @@] and three added
    lines, each of which a rule flags. *)
Definition diff_three_added : jsstring :=
  lit "+++ b/src/a.ts" ++ [LF] ++ lit "@@ -1,3 +10,3 @@" ++ [LF]
  ++ lit "+eval(a)" ++ [LF] ++ lit "+eval(b)" ++ [LF] ++ lit "+eval(c)".

Definition hunk_header : jsstring := lit "@@ -1,3 +10,3 @@".

(** The same three lines as [buildSyntheticDiff] writes them, without a
    hunk header. *)
Definition diff_three_synthetic : jsstring :=
  lit "+++ b/src/a.ts" ++ [LF]
  ++ lit "+eval(a)" ++ [LF] ++ lit "+eval(b)" ++ [LF] ++ lit "+eval(c)".

(** An image with an [alt] attribute, and one without any attribute. *)
Definition diff_img_with_alt : jsstring :=
  lit "+++ b/index.html" ++ [LF] ++ lit "+<img src='logo.png' alt='logo'>".
Definition diff_img_bare : jsstring :=
  lit "+++ b/index.html" ++ [LF] ++ lit "+<img>".

(** A text with its single quotes read as double quotes. *)
Definition dq (s : jsstring) : jsstring :=
  List.map (fun c => if c =? squote then dquote else c) s.

(** An answer in prose whose array of issues holds a nested array. *)
Definition answer_nested : jsstring :=
  dq (lit "Issues: [{'file':'a.js','problem':'loop','fix':'use map','lines':[1,2]}]").

(** An answer in prose whose array of issues holds no other bracket. *)
Definition answer_flat : jsstring :=
  dq (lit "Issues: [{'file':'a.js','problem':'loop','fix':'use map'}] Done.").

(** An answer whose [file] is an object with an own property [toString],
    and a response that carries it. *)
Definition answer_unconvertible : jsstring :=
  dq (lit "[{'file':{'toString':1},'problem':'loop','fix':'use map'}]").

Definition response_with (content : JSON) : response :=
  {| ok := true; status := 200; text := None;
     json := Some (JObject [(lit "choices",
               JArray [JObject [(lit "message",
                 JObject [(lit "content", content)])]])]) |}.


Definition issue_loop : ReviewIssue :=
  {| file := lit "a.js"; problem := lit "loop"; fix_ := lit "use map";
     severity := Some (JString (lit "warning")); line := None;
     snippet := None; autoFixable := None; fixedCode := None |}.


(** An added line that starts with an increment. *)
Definition added_increment : jsstring := lit "++n; token = 'abc123';".

Definition missing_alt : jsstring := lit "Accessibility: Missing alt attribute".

End Groq.

(** ** The auto-fix engine ([src/modules/autofix.ts]) *)

Module Autofix.
Import RegExp Json Groq.

(** *** [SAFE_AUTOFIX_PATTERNS] *)

(* code.replace(/\bvar\s+(\w+)/g, "const $1") *)
Definition var_to_const_rx : regex :=
  seqs [WordBoundary; Lit (lit "var"); Plus (Chr is_space);
        Group 1 (Plus (Chr is_word))].
Definition var_to_const (code : jsstring) : jsstring :=
  replace_all var_to_const_rx (lit "const $1") code.

(* code.replace(/console\.(log|debug|info)\([^)]*\);?\n?/g, '') *)
Definition remove_console_rx : regex :=
  seqs [Lit (lit "console.");
        Group 1 (alts [Lit (lit "log"); Lit (lit "debug"); Lit (lit "info")]);
        Lit (lit "("); Star true (Chr (noneof (lit ")"))); Lit (lit ")");
        Opt (Lit (lit ";")); Opt (Chr (one LF))].
Definition remove_console (code : jsstring) : jsstring :=
  replace_all remove_console_rx [] code.

(* code.replace(/([^;\s])\n/g, "$1;\n") *)
Definition add_semicolons_rx : regex :=
  seqs [Group 1 (Chr (fun c => negb ((c =? 59) || is_space c)));
        Chr (one LF)].
Definition add_semicolons (code : jsstring) : jsstring :=
  replace_all add_semicolons_rx (lit "$1;" ++ [LF]) code.

(* code.replace(rx, "'$1'") where rx is, between two double quotes, the
   group 1 made of [^\x22\\]* and then of the group 2, \\.[^\x22\\]*, any
   number of times; \x22 stands for the double quote of the source *)
Definition quotes_single_rx : regex :=
  seqs [Chr (one dquote);
        Group 1
          (Seq (Star true (Chr (noneof [dquote; 92])))
             (Star true
                (Group 2
                   (seqs [Chr (one 92);
                          Chr (fun c => negb (is_line_terminator c));
                          Star true (Chr (noneof [dquote; 92]))]))));
        Chr (one dquote)].
Definition quotes_single (code : jsstring) : jsstring :=
  replace_all quotes_single_rx (lit "'$1'") code.

(** The class [[ \t]]. *)
Definition is_blank (c : N) : bool := oneof [32; 9] c.

(* code.replace(/[ \t]+$/gm, '') *)
Definition trim_whitespace_rx : regex := Seq (Plus (Chr is_blank)) EndLine.
Definition trim_whitespace (code : jsstring) : jsstring :=
  replace_all trim_whitespace_rx [] code.

(* code.replace(/([^=!])={2}([^=])/g, "$1===$2") *)
Definition strict_equality_rx : regex :=
  seqs [Group 1 (Chr (noneof (lit "=!"))); Lit (lit "==");
        Group 2 (Chr (noneof (lit "=")))].
Definition strict_equality (code : jsstring) : jsstring :=
  replace_all strict_equality_rx (lit "$1===$2") code.

(** The three transforms of the idempotence property, one after the
    other. *)
Definition fix_three (code : jsstring) : jsstring :=
  remove_console (trim_whitespace (strict_equality code)).

Definition SAFE_AUTOFIX_PATTERNS : list (string * (jsstring → jsstring)) :=
  [ ("var-to-const", var_to_const);
    ("remove-console", remove_console);
    ("add-semicolons", add_semicolons);
    ("quotes-single", quotes_single);
    ("trim-whitespace", trim_whitespace);
    ("strict-equality", strict_equality) ]%string.

(** What [trim_whitespace] computes, by recursion on the text: a space or
    a tab is dropped when only spaces and tabs separate it from the end of
    its line. *)
Fixpoint blank_to_eol (s : jsstring) : bool :=
  match s with
  | [] => true
  | c :: s' => if is_blank c then blank_to_eol s' else is_line_terminator c
  end.

Fixpoint trim_spec (s : jsstring) : jsstring :=
  match s with
  | [] => []
  | c :: s' =>
      if is_blank c && blank_to_eol s' then trim_spec s'
      else c :: trim_spec s'
  end.

(** The spaces and tabs a text starts with, and what follows them. *)
Fixpoint blank_run (s : jsstring) : jsstring :=
  match s with
  | c :: s' => if is_blank c then c :: blank_run s' else []
  | [] => []
  end.

Fixpoint after_blank (s : jsstring) : jsstring :=
  match s with
  | c :: s' => if is_blank c then after_blank s' else s
  | [] => []
  end.

(** *** [canAutoFix] and [applyIssueFix] *)

Definition console_call (i : bool) : regex :=
  let L := if i then LitI else Lit in
  Seq (L (lit "console."))
    (Group 1 (alts [L (lit "log"); L (lit "debug"); L (lit "info")])).

(** The list [safePatterns], every pattern under the [i] flag. *)
Definition safePatterns : list regex :=
  [ (* /var\s+\w+/i *)
    seqs [LitI (lit "var"); Plus (Chr is_space); Plus (Chr is_word)];
    (* /console\.(log|debug|info)/i *)
    console_call true;
    (* /trailing\s+whitespace/i *)
    seqs [LitI (lit "trailing"); Plus (Chr is_space); LitI (lit "whitespace")];
    (* /use\s+const\/let/i *)
    seqs [LitI (lit "use"); Plus (Chr is_space); LitI (lit "const/let")];
    (* /strict\s+equality/i *)
    seqs [LitI (lit "strict"); Plus (Chr is_space); LitI (lit "equality")];
    (* /missing\s+semicolon/i *)
    seqs [LitI (lit "missing"); Plus (Chr is_space); LitI (lit "semicolon")] ].

(** The write-once file system of the engine: a path holds a file or is a
    directory. *)
Inductive node : Type :=
| File (content : jsstring)
| Dir.

Definition existsSync (fs : gmap jsstring node) (p : jsstring) : bool :=
  match fs !! p with Some _ => true | None => false end.

Definition readFileSync (fs : gmap jsstring node) (p : jsstring)
  : outcome jsstring :=
  match fs !! p with
  | Some (File c) => Return c
  | _ => Throw
  end.

Definition writeFileSync (fs : gmap jsstring node) (p data : jsstring)
  : outcome (gmap jsstring node) :=
  match fs !! p with
  | Some Dir => Throw
  | _ => Return (<[p := File data]> fs)
  end.

Record options : Type := { dryRun : bool; backup : bool }.

(** [AutoFixResult]; [result_file] is its field [file]. *)
Record AutoFixResult : Type := {
  result_file : jsstring;
  fixesApplied : Z;
  issues : list ReviewIssue
}.

(** The own properties of [Object.prototype]: [grouped[key]] is truthy for
    them although [grouped] has no such entry. *)
Definition object_prototype_keys : list jsstring :=
  List.map lit
    [ "constructor"; "__defineGetter__"; "__defineSetter__"; "hasOwnProperty";
      "__lookupGetter__"; "__lookupSetter__"; "isPrototypeOf";
      "propertyIsEnumerable"; "toString"; "valueOf"; "__proto__";
      "toLocaleString" ]%string.

(** [grouped[issue.file].push(issue)], creating the entry when missing. *)
Fixpoint push_issue (issue : ReviewIssue)
    (grouped : list (jsstring * list ReviewIssue))
  : list (jsstring * list ReviewIssue) :=
  match grouped with
  | [] => [(file issue, [issue])]
  | (k, l) :: grouped' =>
      if streq k (file issue) then (k, l ++ [issue]) :: grouped'
      else (k, l) :: push_issue issue grouped'
  end.

(** [groupByFile], the entries in the order of their creation. A file name
    that [Object.prototype] defines finds a value without [push]. *)
Fixpoint group_go (issues : list ReviewIssue)
    (grouped : list (jsstring * list ReviewIssue))
  : outcome (list (jsstring * list ReviewIssue)) :=
  match issues with
  | [] => Return grouped
  | issue :: rest =>
      if existsb (streq (file issue)) object_prototype_keys then Throw
      else group_go rest (push_issue issue grouped)
  end.

Definition groupByFile (issues : list ReviewIssue)
  : outcome (list (jsstring * list ReviewIssue)) :=
  group_go issues [].

(** [Object.entries]: the keys that are array indices first, in ascending
    order, then the other keys in the order of their creation. *)
Definition array_index (key : jsstring) : option N :=
  match key with
  | [48] => Some 0
  | c :: _ =>
      if (49 <=? c) && (c <=? 57) && forallb is_digit key
         && (length key <=? 10)%nat
      then
        let n := fold_left (fun n d => 10 * n + (d - 48)) key 0 in
        if n <=? 4294967294 then Some n else None
      else None
  | [] => None
  end.

Fixpoint insert_index {A} (n : N) (x : A) (l : list (N * A)) : list (N * A) :=
  match l with
  | [] => [(n, x)]
  | (k, y) :: l' =>
      if n <? k then (n, x) :: l else (k, y) :: insert_index n x l'
  end.

Definition entries {A} (obj : list (jsstring * A)) : list (jsstring * A) :=
  List.map snd
    (fold_left (fun acc kv =>
                  match array_index kv.1 with
                  | Some n => insert_index n kv acc
                  | None => acc
                  end) obj [])
  ++ List.filter (fun kv => match array_index kv.1 with
                            | Some _ => false
                            | None => true
                            end) obj.

Definition backup_suffix : jsstring := lit ".prefl-backup".

Section engine.
(** [String.prototype.toLowerCase], [process.cwd()] and [path.join]. *)
Context (toLowerCase : jsstring → jsstring).
Context (cwd : jsstring) (path_join : list jsstring → jsstring).

(** The file an entry names and its backup. *)
Definition target (filePath : jsstring) : jsstring := path_join [cwd; filePath].
Definition backup_path (filePath : jsstring) : jsstring :=
  target filePath ++ backup_suffix.

Definition canAutoFix (issue : ReviewIssue) : bool :=
  let problem := toLowerCase (problem issue) in
  existsb (fun pattern => test pattern problem) safePatterns.


(** The pattern-based part of [applyIssueFix]. *)
Definition pattern_fix (content : jsstring) (issue : ReviewIssue) : jsstring :=
  let problem := toLowerCase (problem issue) in
  (* /var\s+/ *)
  if test (Seq (Lit (lit "var")) (Plus (Chr is_space))) problem
  then var_to_const content
  (* /console\.(log|debug|info)/ *)
  else if test (console_call false) problem
  then remove_console content
  (* /trailing\s+whitespace/ *)
  else if test (seqs [Lit (lit "trailing"); Plus (Chr is_space);
                      Lit (lit "whitespace")]) problem
  then trim_whitespace content
  (* /strict\s+equality|==\s+to\s+===/ *)
  else if test (Alt (seqs [Lit (lit "strict"); Plus (Chr is_space);
                           Lit (lit "equality")])
                    (seqs [Lit (lit "=="); Plus (Chr is_space); Lit (lit "to");
                           Plus (Chr is_space); Lit (lit "===")])) problem
  then strict_equality content
  else content.

Definition applyIssueFix (content : jsstring) (issue : ReviewIssue) : jsstring :=
  match fixedCode issue, snippet issue with
  | Some f, Some s =>
      if truthy f && truthy s then replace_str content s f
      else pattern_fix content issue
  | _, _ => pattern_fix content issue
  end.

(** The loop [for (const issue of autoFixableIssues)]: the content and the
    number of fixes that changed it. *)
Fixpoint apply_fixes (autoFixableIssues : list ReviewIssue)
    (content : jsstring) (fixCount : Z) : jsstring * Z :=
  match autoFixableIssues with
  | [] => (content, fixCount)
  | issue :: rest =>
      let fixed := applyIssueFix content issue in
      if streq fixed content then apply_fixes rest content fixCount
      else apply_fixes rest fixed (fixCount + 1)%Z
  end.

(** One turn of the loop over the files: the file system after it and the
    result pushed, if any. *)
Definition fix_file (opts : options) (filePath : jsstring)
    (fileIssueList : list ReviewIssue) (fs : gmap jsstring node)
  : outcome (gmap jsstring node * option AutoFixResult) :=
  let autoFixableIssues := List.filter canAutoFix fileIssueList in
  match autoFixableIssues with
  | [] => Return (fs, None)
  | _ =>
      let fullPath := path_join [cwd; filePath] in
      if negb (existsSync fs fullPath) then Return (fs, None)
      else
        match readFileSync fs fullPath with
        | Throw => Throw
        | Return originalContent =>
            let '(content, fixCount) :=
              apply_fixes autoFixableIssues originalContent 0 in
            if (fixCount >? 0)%Z then
              let backed :=
                if backup opts
                then writeFileSync fs (fullPath ++ backup_suffix) originalContent
                else Return fs in
              match backed with
              | Throw => Throw
              | Return fs1 =>
                  let written :=
                    if negb (dryRun opts)
                    then writeFileSync fs1 fullPath content
                    else Return fs1 in
                  match written with
                  | Throw => Throw
                  | Return fs2 =>
                      Return (fs2,
                              Some {| result_file := filePath;
                                      fixesApplied := fixCount;
                                      issues := autoFixableIssues |})
                  end
              end
            else Return (fs, None)
        end
  end.

(** The loop over [Object.entries(fileIssues)]. The file system is
    returned also when a later file makes the call throw. *)
Fixpoint fix_files (opts : options)
    (files : list (jsstring * list ReviewIssue)) (fs : gmap jsstring node)
  : gmap jsstring node * outcome (list AutoFixResult) :=
  match files with
  | [] => (fs, Return [])
  | (filePath, fileIssueList) :: files' =>
      match fix_file opts filePath fileIssueList fs with
      | Throw => (fs, Throw)
      | Return (fs1, r) =>
          match fix_files opts files' fs1 with
          | (fs2, Return rs) =>
              (fs2, Return (match r with Some x => x :: rs | None => rs end))
          | (fs2, Throw) => (fs2, Throw)
          end
      end
  end.

Definition applyAutoFixes (issues : list ReviewIssue) (opts : options)
    (fs : gmap jsstring node)
  : gmap jsstring node * outcome (list AutoFixResult) :=
  match groupByFile issues with
  | Throw => (fs, Throw)
  | Return fileIssues => fix_files opts (entries fileIssues) fs
  end.

End engine.

(** [toLowerCase] on ASCII text, for the examples. *)
Definition ascii_lower (s : jsstring) : jsstring :=
  List.map (fun c => if is_upper c then c + 32 else c) s.

(** *** Inputs of the examples *)

Definition dry_run_with_backup : options := {| dryRun := true; backup := true |}.

Definition issue_var (f : string) : ReviewIssue :=
  {| file := lit f; problem := lit "uses var x"; fix_ := lit "use let";
     severity := Some (JString (lit "warning")); line := None;
     snippet := None; autoFixable := None; fixedCode := None |}.

(** A project with a file and the backup that an earlier run left. *)
Definition disk : gmap jsstring node :=
  <[lit "/w/a.js" := File (lit "var a = 1;")]>
    (<[lit "/w/a.js.prefl-backup" := File (lit "var old = 0;")]> ∅).


Definition result_a : AutoFixResult :=
  {| result_file := lit "a.js"; fixesApplied := 1;
     issues := [issue_var "a.js"] |}.

Definition run (issues : list ReviewIssue) (fs : gmap jsstring node)
  : gmap jsstring node * outcome (list AutoFixResult) :=
  applyAutoFixes ascii_lower (lit "/w") ContextResolver.posix_join issues
    dry_run_with_backup fs.

End Autofix.


(** ** Notions used to state more about the context resolver *)

Module ContextNotions.
Import RegExp ContextResolver.

Section notions.
Context (E : Env).

Definition readable (p : jsstring) : bool :=
  match readFileSync E p with Some _ => true | None => false end.

(** An entry holds what is on disk at its path, cut at 20000 code units. *)
Definition from_disk (f : ContextFile) : Prop :=
  ∃ c, readFileSync E (path f) = Some c ∧ content f = slice0 20000 c.

(** The content of [g] imports a token that resolves to the path [p]. *)
Definition imports_path (g : ContextFile) (p : jsstring) : Prop :=
  ∃ imports imp,
    parseRelativeImports (content g) = Some imports ∧ imp ∈ imports ∧
    resolveImportPath E (path g) imp = Some p.

(** Every readable file that [f] imports has its path in [S]. *)
Definition closed_at (S : gset jsstring) (f : ContextFile) : Prop :=
  ∀ p, imports_path f p → truthy p = true → readable p = true → p ∈ S.

(** Where an entry of an expansion comes from: the seed, or the disk, at a
    path that an entry of the expansion imports. *)
Definition justified (seed res : list ContextFile) (f : ContextFile) : Prop :=
  f ∈ seed ∨
  (truthy (path f) = true ∧ from_disk f ∧ ∃ g, g ∈ res ∧ imports_path g (path f)).

End notions.
End ContextNotions.

(** ** The context of a run ([runAnalyze]) *)

Module Analyze.
Import ContextResolver.

(** The context files of a run, as [runAnalyze] builds them from the
    files it keeps and the two limits of the configuration. *)
Definition contextFiles (E : Env) (filtered : list jsstring)
    (baseLimit importExpansionLimit : Z) : option (list ContextFile) :=
  let baseContext := pickContextFiles E filtered baseLimit in
  expandContextByImports E baseContext importExpansionLimit.

End Analyze.

(** ** Notions used to state more about the scanner *)

Module GroqNotions.
Import RegExp Json Groq.

(** The problems the scanner states. *)
Definition unsafe_eval : jsstring := lit "Security: eval() executes arbitrary code".
Definition listener_leak : jsstring :=
  lit "Memory leak: addEventListener without cleanup".
Definition interval_leak : jsstring :=
  lit "Memory leak: setInterval without clearInterval".
Definition xss_inner_html : jsstring :=
  lit "XSS vulnerability: innerHTML without sanitization".
Definition unhandled_promise : jsstring :=
  lit "Unhandled promise rejection - missing .catch()".

Definition empty_src : jsstring := lit "Empty img src causes 404 errors".

(** The shape of an issue of the scanner: a line number from 1 on, one of
    two severities, a snippet without white space around it, and no fixed
    code. *)
Definition scanner_issue (i : ReviewIssue) : Prop :=
  (∃ n, line i = Some n ∧ number_le 1%Z n) ∧
  (severity i = Some (JString (lit "critical")) ∨
   severity i = Some (JString (lit "warning"))) ∧
  (∃ s, snippet i = Some s ∧ trim s = s) ∧
  autoFixable i = None ∧ fixedCode i = None.

(** A line of a diff that the scanner reads as added. *)
Definition is_added (l : jsstring) : bool :=
  startsWith l (lit "+") && negb (startsWith l (lit "+++")).

(** The shape of an issue taken from an answer: the three texts are not
    empty, a severity is present, and nothing else is. *)
Definition answer_issue (i : ReviewIssue) : Prop :=
  file i ≠ [] ∧ problem i ≠ [] ∧ fix_ i ≠ [] ∧ severity i ≠ None ∧
  severity i ≠ Some JNull ∧
  line i = None ∧ snippet i = None ∧ autoFixable i = None ∧
  fixedCode i = None.

End GroqNotions.

(** ** The texts sent to the remote analyzer ([src/modules/groq.ts]) *)

Module GroqText.
Import RegExp Groq.

Definition truncated_mark : jsstring := LF :: lit "...<truncated>".

(** [truncate(s, max)] for an integer [max]. *)
Definition truncate (s : jsstring) (max : Z) : jsstring :=
  if (Z.of_nat (length s) <=? max)%Z then s
  else ContextResolver.slice_limit s max ++ truncated_mark.

End GroqText.

(** ** The synthetic diff of a scan of the whole project
    ([buildSyntheticDiff] of the analyze and fix modules) *)

Module SyntheticDiff.
Import RegExp Groq.

Section files.
(** [fs.readFileSync(f, "utf8")], [None] where it throws. *)
Context (readFileSync : jsstring → option jsstring).

(** What one turn of [for (const f of files)] appends to [out]. *)
Definition file_diff (f : jsstring) : jsstring :=
  match readFileSync f with
  | Some content =>
      (lit "diff --git a/" ++ f ++ lit " b/" ++ f ++ [LF])
      ++ (lit "--- a/" ++ f ++ [LF])
      ++ (lit "+++ b/" ++ f ++ [LF])
      ++ fold_left (fun out line => out ++ lit "+" ++ line ++ [LF])
           (split LF content) []
  | None => []
  end.

Definition buildSyntheticDiff (files : list jsstring) : jsstring :=
  fold_left (fun out f => out ++ file_diff f) files [].

(** The issues of the lines of one file, numbered from [n] on as the
    counter of the scanner counts. *)
Fixpoint issues_from (currentFile : jsstring) (n : number)
    (lines : list jsstring) : list ReviewIssue :=
  match lines with
  | [] => []
  | l :: ls =>
      line_issues currentFile n l ++ issues_from currentFile (increment n) ls
  end.

(** The issues of the files that can be read, each under its trimmed name
    and with its lines numbered from 1. *)
Definition issues_of_files (files : list jsstring) : list ReviewIssue :=
  flat_map (fun f => match readFileSync f with
                     | Some content => issues_from (trim f) 1 (split LF content)
                     | None => []
                     end) files.

End files.

(** The lines of a file as the diff holds them, each after a plus sign
    and before a line feed. *)
Definition plus_lines (lines : list jsstring) : jsstring :=
  flat_map (fun line => 43 :: line ++ [LF]) lines.

(** A project of one file, for the examples. *)
Definition read_demo (p : jsstring) : option jsstring :=
  if streq p (lit "src/a.js")
  then Some (lit "let x = 1;" ++ [LF] ++ lit "eval(x);")
  else None.

End SyntheticDiff.

(** ** Notions used to state more about the auto-fix engine *)

Module AutofixNotions.
Import RegExp Json Groq Autofix.

(** The issues of a list that name the file [k], in their order. *)
Definition group_of (issues : list ReviewIssue) (k : jsstring)
  : list ReviewIssue :=
  List.filter (fun i => streq (file i) k) issues.

(** [content.replace(pat, f)] when [f] is taken literally: the first
    occurrence of [pat] gives way to [f]. *)
Fixpoint replace_first (s pat f : jsstring) : jsstring :=
  if startsWith s pat then f ++ drop (length pat) s
  else match s with
       | [] => []
       | c :: s' => c :: replace_first s' pat f
       end.

(** The table built so far groups the issues seen so far. *)
Definition groups_ok (P : list ReviewIssue)
    (g : list (jsstring * list ReviewIssue)) : Prop :=
  NoDup g.*1 ∧
  Forall (fun kl => kl.2 = group_of P kl.1 ∧ kl.2 ≠ []) g ∧
  ∀ i, i ∈ P → file i ∈ g.*1.

Section paths.
Context (cwd : jsstring) (path_join : list jsstring → jsstring).

(** What the engine writes for one file, under any options. *)
Definition written (opts : options) (f : jsstring) (original content : jsstring)
    (fs : gmap jsstring node) : gmap jsstring node :=
  let fs1 :=
    if backup opts
    then <[backup_path cwd path_join f := File original]> fs else fs in
  if dryRun opts then fs1 else <[target cwd path_join f := File content]> fs1.

End paths.

End AutofixNotions.

(** ** Inputs of more examples of the auto-fix engine *)

Module AutofixExamples.
Import RegExp Json Groq Autofix AutofixNotions.

(** A run that writes, with backups. *)
Definition write_with_backup : options := {| dryRun := false; backup := true |}.

Definition run_with (opts : options) (issues : list ReviewIssue)
    (fs : gmap jsstring node)
  : gmap jsstring node * outcome (list AutoFixResult) :=
  applyAutoFixes ascii_lower (lit "/w") ContextResolver.posix_join issues
    opts fs.

End AutofixExamples.

(** ** The patch taken from an answer ([src/modules/groq.ts]) *)

Module GroqPatch.
Import RegExp Groq.

(** [^] under the [m] flag holds at the start of the input and after a
    line terminator. *)
Definition at_line_start (before : jsstring) : bool :=
  match before with
  | [] => true
  | c :: _ => is_line_terminator c
  end.

(** The leftmost match of a pattern that [^] anchors, under the [m]
    flag. *)
Fixpoint search_line_start (r : regex) (before after : jsstring)
  : option rmatch :=
  match (if at_line_start before then exec_at r before after else None) with
  | Some x => Some x
  | None =>
      match after with
      | [] => None
      | c :: after' => search_line_start r (c :: before) after'
      end
  end.

Definition test_line_start (r : regex) (s : jsstring) : bool :=
  match search_line_start r [] s with Some _ => true | None => false end.

(* /^diff --git /m, without its anchor *)
Definition diffHeader : regex := Lit (lit "diff --git ").

(* /^\+\+\+\s|^---\s/m, without its anchors *)
Definition fileHeader : regex :=
  Alt (Seq (Lit (lit "+++")) (Chr is_space))
      (Seq (Lit (lit "---")) (Chr is_space)).

Definition sanitizeUnifiedDiff (patch : jsstring) : jsstring :=
  if test_line_start diffHeader patch || test_line_start fileHeader patch
  then trim patch ++ [LF]
  else trim patch ++ [LF].

Definition fence : jsstring := lit "```".

(* /```diff[\s\S]*?```|```patch[\s\S]*?```|```[\s\S]*?```/ *)
Definition codeFence : regex :=
  alts [ seqs [Lit (lit "```diff"); Star false (Chr any_char); Lit fence];
         seqs [Lit (lit "```patch"); Star false (Chr any_char); Lit fence];
         seqs [Lit fence; Star false (Chr any_char); Lit fence] ].

(* /^```(?:diff|patch)?\n?/, without its anchor *)
Definition fenceOpen : regex :=
  seqs [Lit fence; Opt (Alt (Lit (lit "diff")) (Lit (lit "patch")));
        Opt (Chr (one LF))].

(* /```\s*$/: without the [m] flag, [$] holds at the end of the input
   only, where no character follows *)
Definition fenceClose : regex :=
  seqs [Lit fence; Star true (Chr is_space); NotAhead (Chr (fun _ => true))].

(** [s.replace(rx, t)] for a pattern without the [g] flag: the first
    match only. *)
Definition replace_one (r : regex) (t s : jsstring) : jsstring :=
  match search r [] s with
  | Some x => rev (m_before x) ++ substitution (length (groups r)) x t ++ m_after x
  | None => s
  end.

(** The same for a pattern that [^] anchors, without the [m] flag: it can
    match at the start of the input only. *)
Definition replace_at_start (r : regex) (t s : jsstring) : jsstring :=
  match exec_at r [] s with
  | Some x => substitution (length (groups r)) x t ++ m_after x
  | None => s
  end.

(** [extractCodeFence]; [None] is [undefined]. *)
Definition extractCodeFence (text : jsstring) : option jsstring :=
  match match_ codeFence text with
  | None => None
  | Some codeBlock =>
      let raw :=
        replace_one fenceClose []
          (replace_at_start fenceOpen [] (m_text codeBlock)) in
      Some (trim raw)
  end.

(** The patch [generateFixDiff] returns for the content of an answer:
    [sanitizeUnifiedDiff(extractCodeFence(content) || content)]. *)
Definition patch_of (content : jsstring) : jsstring :=
  sanitizeUnifiedDiff
    (match extractCodeFence content with
     | Some p => if truthy p then p else content
     | None => content
     end).

End GroqPatch.

(** * Properties *)

(** ** The matcher *)

Module RegExpFacts.
Import RegExp.

Lemma advances_refl st : advances st st.
Proof. by exists []. Qed.

Lemma advances_trans a b c : advances a b → advances b c → advances a c.
Proof.
  intros (w1 & Hp1 & Hq1) (w2 & Hp2 & Hq2). exists (w1 ++ w2).
  rewrite Hp1, Hp2, Hq2, Hq1, rev_app_distr, !app_assoc. done.
Qed.

Lemma advances_length st st' :
  advances st st' → (length (post st') ≤ length (post st))%nat.
Proof. intros (w & -> & _). rewrite length_app. lia. Qed.

Lemma advances_consumed st st' :
  advances st st' → post st = consumed st st' ++ post st'.
Proof.
  intros (w & Hw & _). unfold consumed. rewrite Hw at 2 3.
  rewrite length_app, Nat.add_sub, take_app_length. done.
Qed.

Lemma star_loop_shrinks step g :
  shrinks step → ∀ n, shrinks (fun k => star_loop step g k n).
Proof.
  intros Hstep n. induction n as [|n IH]; intros k st x H; simpl in H.
  - exists st. split; [done | apply advances_refl].
  - assert (Hagain : ∀ y,
      step (fun st' => if (length (post st') <? length (post st))%nat
                       then star_loop step g k n st' else None) st = Some y →
      ∃ st', k st' = Some y ∧ advances st st').
    { intros y Hy. apply Hstep in Hy as (st1 & Hk1 & Hle1).
      destruct (Nat.ltb_spec (length (post st1)) (length (post st))); [|done].
      apply IH in Hk1 as (st2 & Hk2 & Hle2). exists st2.
      split; [done | by eapply advances_trans]. }
    destruct g.
    + destruct (step _ st) as [y|] eqn:Hs.
      * inversion H; subst. by apply Hagain.
      * exists st. split; [done | apply advances_refl].
    + destruct (k st) as [y|] eqn:Hk.
      * inversion H; subst. exists st. split; [done | apply advances_refl].
      * by apply Hagain.
Qed.

Lemma m_shrinks r : shrinks (m r).
Proof.
  induction r as [|p|r1 IH1 r2 IH2|r1 IH1 r2 IH2|g r IH|i r IH|r IH| |];
    intros k st x H; simpl in H.
  - exists st. split; [done | apply advances_refl].
  - destruct st as [pr [|c s'] cs]; simpl in *; [done|].
    destruct (p c); [|done]. eexists. split; [exact H|]. by exists [c].
  - apply IH1 in H as (st1 & H1 & Hle1). apply IH2 in H1 as (st2 & H2 & Hle2).
    exists st2. split; [done | by eapply advances_trans].
  - destruct (m r1 k st) as [y|] eqn:H1.
    + inversion H; subst. by apply IH1.
    + by apply IH2.
  - eapply (star_loop_shrinks _ g) in H; [done|].
    intros k' st' y Hy. by apply IH in Hy.
  - apply IH in H as (st1 & H1 & Hle1). eexists. split; [exact H1 | done].
  - destruct (m r Some st); [done|]. exists st. split; [done | apply advances_refl].
  - destruct (xorb _ _); [|done]. exists st. split; [done | apply advances_refl].
  - exists st. split; [|apply advances_refl].
    destruct (post st) as [|c ?]; [done|]. by destruct (is_line_terminator c).
Qed.

Lemma m_consumes r :
  starts_chr r = true → ∀ k st x, m r k st = Some x →
    ∃ st', k st' = Some x ∧ (length (post st') < length (post st))%nat.
Proof.
  induction r as [|p|r1 IH1 r2 IH2|r1 IH1 r2 IH2|g r IH|i r IH|r IH| |];
    intros Hs k st x H; simpl in Hs, H; try done.
  - destruct st as [pr [|c s'] cs]; simpl in *; [done|].
    destruct (p c); [|done]. eexists. split; [exact H | simpl; lia].
  - apply IH1 in H as (st1 & H1 & Hlt1); [|done].
    apply m_shrinks in H1 as (st2 & H2 & Hle2%advances_length).
    exists st2. split; [done | lia].
  - apply andb_prop in Hs as [Ha Hb]. destruct (m r1 k st) as [y|] eqn:H1.
    + inversion H; subst. by apply IH1.
    + by apply IH2.
  - apply IH in H as (st1 & H1 & Hlt1); [|done].
    eexists. split; [exact H1 | done].
Qed.

Lemma exec_at_Some r before after x :
  exec_at r before after = Some x →
  m_before x = before ∧ after = m_text x ++ m_after x.
Proof.
  unfold exec_at. destruct (m r Some _) as [e|] eqn:He; [|done].
  intros [= <-]. simpl. split; [done|].
  apply m_shrinks in He as (st' & [= ->] & Hadv).
  by apply advances_consumed in Hadv.
Qed.

Lemma exec_at_consumes r before after x :
  starts_chr r = true → exec_at r before after = Some x →
  (length (m_after x) < length after)%nat.
Proof.
  unfold exec_at. intros Hs. destruct (m r Some _) as [e|] eqn:He; [|done].
  intros [= <-]. simpl. by apply m_consumes in He as (st' & [= ->] & Hlt).
Qed.

Lemma search_consumes r before after x :
  starts_chr r = true → search r before after = Some x →
  (length (m_after x) < length after)%nat.
Proof.
  intros Hs. revert before.
  induction after as [|c after IH]; intros before; simpl.
  - destruct (exec_at r before []) eqn:He; [|done].
    intros [= <-]. by apply exec_at_consumes in He.
  - destruct (exec_at r before (c :: after)) eqn:He.
    + intros [= <-]. by apply exec_at_consumes in He.
    + intros H%IH. lia.
Qed.

(** So the [exec] loop of such a pattern ends. *)
Lemma exec_loop_total r :
  starts_chr r = true → ∀ fuel before after,
    (length after < fuel)%nat → is_Some (exec_loop fuel r before after).
Proof.
  intros Hs fuel. induction fuel as [|fuel IH]; intros before after Hlt; [lia|].
  simpl. destruct (search r before after) as [x|] eqn:Hx; [|done].
  apply search_consumes in Hx; [|done].
  destruct (IH (rev (m_text x) ++ m_before x) (m_after x)) as [xs ->]; [lia|done].
Qed.

(** The fuel of [replace_all] is enough: more fuel gives the same text. *)
Lemma replace_go_fuel r t f1 : ∀ f2 b s,
  (length s < f1)%nat → (length s < f2)%nat →
  replace_go f1 r t b s = replace_go f2 r t b s.
Proof.
  induction f1 as [|f1 IH]; intros f2 b s H1 H2; [lia|].
  destruct f2 as [|f2]; [lia|]. cbn [replace_go].
  destruct (exec_at r b s) as [x|] eqn:Hx.
  - apply exec_at_Some in Hx as [_ Hs].
    destruct (m_text x) as [|c w] eqn:Hw.
    + destruct s as [|d s]; [done|]. do 2 f_equal.
      apply IH; simpl in *; lia.
    + f_equal. rewrite Hs, length_app in H1, H2. simpl in *.
      apply IH; lia.
  - destruct s as [|d s]; [done|]. f_equal. apply IH; simpl in *; lia.
Qed.

(** *** Completeness of the matcher

    When a pattern can match [w] and the continuation accepts what follows,
    the backtracking search succeeds (possibly on another match of higher
    priority). *)

Lemma m_complete_gen r b w a :
  Matches r b w a →
  ∀ k, accepts k (rev w ++ b) a →
    accepts (m r k) b (w ++ a) ∧
    (∀ g r', r = Star g r' → ∀ n, (length (w ++ a) ≤ n)%nat →
       accepts (fun st =>
                  star_loop (fun k' st' => m r' k' (clear_caps (groups r') st'))
                    g k n st) b (w ++ a)).
Proof.
  induction 1 as [b a|p c b a Hp|r1 r2 b w1 w2 a _ IH1 _ IH2
                 |r1 r2 b w a _ IH|r1 r2 b w a _ IH|g r b a
                 |g r b w1 w2 a Hne _ IH1 _ IH2|i r b w a _ IH
                 |r b a Hno|b a Hx|b a He]; intros k Hk.
  - split; [exact Hk | done].
  - split; [|done]. intros cs. simpl. rewrite Hp. apply Hk.
  - split; [|done]. rewrite <- app_assoc. simpl. apply IH1, IH2.
    by rewrite rev_app_distr, <- app_assoc in Hk.
  - split; [|done]. intros cs. simpl.
    destruct (IH k Hk) as [Hacc _]. specialize (Hacc cs).
    destruct Hacc as [x Hx]. by rewrite Hx.
  - split; [|done]. intros cs. simpl.
    destruct (m r1 k _); [done|]. by apply IH.
  - assert (Hloop : ∀ n, accepts (fun st =>
        star_loop (fun k' st' => m r k' (clear_caps (groups r) st')) g k n st)
        b a).
    { intros [|n] cs; simpl; [apply Hk|]. destruct g.
      - destruct (m r _ _); [done | apply Hk].
      - destruct (Hk cs) as [x Hx]. simpl in Hx. by rewrite Hx. }
    split; [intros cs; apply Hloop|]. intros g' r' [= <- <-] n _. apply Hloop.
  - assert (Hloop : ∀ n, (length ((w1 ++ w2) ++ a) ≤ n)%nat →
        accepts (fun st =>
          star_loop (fun k' st' => m r k' (clear_caps (groups r) st')) g k n st)
          b ((w1 ++ w2) ++ a)).
    { intros n Hn cs. destruct n as [|n].
      { destruct w1; [done|]. simpl in Hn. lia. }
      simpl.
      set (again := fun st' =>
        if (length (post st') <? length ((w1 ++ w2) ++ a))%nat
        then star_loop (fun k' st' => m r k' (clear_caps (groups r) st'))
               g k n st'
        else None).
      assert (Hagain : is_Some (m r again
                (clear_caps (groups r) (MState b ((w1 ++ w2) ++ a) cs)))).
      { unfold clear_caps. simpl. rewrite <- app_assoc.
        apply (IH1 again). intros cs'. unfold again. simpl.
        destruct (Nat.ltb_spec (length (w2 ++ a)) (length ((w1 ++ w2) ++ a)))
          as [_|Hge].
        2: { rewrite <- app_assoc, length_app in Hge.
             destruct w1; [done|]. simpl in Hge. lia. }
        rewrite rev_app_distr, <- app_assoc in Hk.
        destruct (IH2 k Hk) as [_ Hstar]. apply (Hstar g r eq_refl).
        rewrite <- app_assoc, length_app in Hn.
        destruct w1; [done|]. simpl in Hn. lia. }
      destruct g.
      - destruct Hagain as [x Hx]. by rewrite Hx.
      - destruct (k _); [done | exact Hagain]. }
    split; [intros cs; by apply Hloop|]. intros g' r' [= <- <-] n Hn.
    by apply Hloop.
  - split; [|done]. intros cs. simpl. apply IH. intros cs'. apply Hk.
  - split; [|done]. intros cs. simpl. rewrite Hno. apply Hk.
  - split; [|done]. intros cs. simpl. rewrite Hx. apply Hk.
  - split; [|done]. intros cs. simpl. destruct a as [|c a]; [apply Hk|].
    rewrite He. apply Hk.
Qed.

Lemma m_complete r b w a k :
  Matches r b w a → accepts k (rev w ++ b) a → accepts (m r k) b (w ++ a).
Proof. intros HM Hk. by apply (m_complete_gen r b w a HM k). Qed.

Lemma exec_at_complete r b w a :
  Matches r b w a → is_Some (exec_at r b (w ++ a)).
Proof.
  intros HM. unfold exec_at.
  destruct (m_complete r b w a Some HM) with (cs := @nil (nat * jsstring))
    as [e He]; [by intros cs|].
  by rewrite He.
Qed.

Lemma search_complete r before after b :
  is_Some (exec_at r (rev before ++ b) after) →
  is_Some (search r b (before ++ after)).
Proof.
  revert b. induction before as [|c before IH]; intros b Hex; simpl in *.
  - destruct after; simpl; destruct Hex as [x ->]; done.
  - destruct (exec_at r b (c :: before ++ after)); [done|].
    apply IH. by rewrite <- app_assoc in Hex.
Qed.

(** [rx.test(s)] holds as soon as the pattern can match somewhere in [s]. *)
Lemma test_complete r before w after :
  Matches r (rev before) w after → test r (before ++ w ++ after) = true.
Proof.
  intros HM. unfold test.
  destruct (search_complete r before (w ++ after) []) as [x ->]; [|done].
  rewrite app_nil_r. by apply exec_at_complete.
Qed.

(** Literals match themselves, and runs of characters match repetitions. *)
Lemma Matches_Lit s b a : s ≠ [] → Matches (Lit s) b s a.
Proof.
  revert b. induction s as [|c s IH]; intros b Hne; [done|].
  destruct s as [|d s].
  - apply M_Chr. apply N.eqb_refl.
  - change (Lit (c :: d :: s)) with (Seq (Chr (one c)) (Lit (d :: s))).
    apply (M_Seq _ _ b [c]); [apply M_Chr, N.eqb_refl | by apply IH].
Qed.


Lemma Matches_Star_Chr g (p : N → bool) w b a :
  Forall (fun c => p c = true) w → Matches (Star g (Chr p)) b w a.
Proof.
  intros Hw. revert b. induction Hw as [|c w Hc _ IH]; intros b.
  - apply M_Star0.
  - apply (M_StarS g _ b [c] w); [done | by apply M_Chr | apply IH].
Qed.

Lemma Matches_Plus_Chr (p : N → bool) w b a :
  w ≠ [] → Forall (fun c => p c = true) w → Matches (Plus (Chr p)) b w a.
Proof.
  intros Hne Hw. destruct Hw as [|c w Hc Hw]; [done|].
  apply (M_Seq _ _ b [c] w); [by apply M_Chr | by apply Matches_Star_Chr].
Qed.

(** *** Lazy repetition of any character *)

Lemma clear_caps_nil st : clear_caps [] st = st.
Proof.
  destruct st as [b s cs]. unfold clear_caps. simpl. f_equal.
  induction cs as [|c cs IH]; simpl; [done | by rewrite IH].
Qed.

(** [(.|\n)*?] hands the positions to its continuation from left to
    right. *)
Lemma star_lazy_any (p : N → bool) k :
  (∀ c, p c = true) →
  ∀ n b s cs, (length s ≤ n)%nat →
    star_loop (fun k' st' => m (Chr p) k' (clear_caps (groups (Chr p)) st'))
      false k n (MState b s cs)
    = first_accept k b s cs.
Proof.
  intros Hp n. change (groups (Chr p)) with (@nil nat).
  induction n as [|n IH]; intros b s cs Hn.
  - destruct s; [|simpl in Hn; lia]. simpl. by destruct (k _).
  - destruct s as [|c s]; cbn [star_loop first_accept].
    + destruct (k _); [done|]. by rewrite clear_caps_nil.
    + destruct (k _); [done|]. rewrite clear_caps_nil. cbn [m post pre caps].
      rewrite Hp.
      destruct (Nat.ltb_spec (length s) (length (c :: s))) as [_|Hge];
        [|simpl in Hge; lia].
      apply IH. simpl in Hn. lia.
Qed.

End RegExpFacts.

(** ** The context resolver *)

Module ContextResolverFacts.
Import RegExp RegExpFacts ContextResolver.

Section resolver.
Context (E : Env).

Local Abbreviation resolveImportPath := (resolveImportPath E).
Local Abbreviation expand_item := (expand_item E).
Local Abbreviation expand_loop := (expand_loop E).
Local Abbreviation expandContextByImports := (expandContextByImports E).

Lemma collect_total rs src :
  forallb starts_chr rs = true → is_Some (collect rs src).
Proof.
  induction rs as [|rx rs IH]; simpl; [done|].
  intros [Hrx Hrs]%andb_prop.
  destruct (exec_loop_total rx Hrx (S (length src)) [] src) as [xs Hxs]; [lia|].
  simpl in Hxs. rewrite Hxs. destruct (IH Hrs) as [found ->]. done.
Qed.

Lemma parseRelativeImports_total src : is_Some (parseRelativeImports src).
Proof.
  unfold parseRelativeImports.
  destruct (collect_total regexes src) as [found ->]; [reflexivity | done].
Qed.

(** What one run of the inner loop adds. *)
Lemma expand_item_spec maxFiles from imports st :
  ∃ new,
    out (expand_item maxFiles from imports st) = out st ++ new ∧
    queue (expand_item maxFiles from imports st) = queue st ++ new ∧
    seen (expand_item maxFiles from imports st)
      = list_to_set (path <$> new) ∪ seen st ∧
    NoDup (path <$> new) ∧
    (∀ p, p ∈ path <$> new → p ∉ seen st) ∧
    ((Z.of_nat (length (out st)) < maxFiles)%Z →
     (Z.of_nat (length (out st ++ new)) ≤ maxFiles)%Z).
Proof.
  revert st. induction imports as [|imp rest IH]; intros st; simpl.
  { exists []. rewrite !app_nil_r. simpl.
    repeat split; [set_solver | constructor | set_solver | lia]. }
  destruct (resolveImportPath from imp) as [resolved|]; [|apply IH].
  destruct (truthy resolved); simpl; [|apply IH].
  case_bool_decide as Hseen; [apply IH|].
  destruct (readFileSync E resolved) as [c|]; [|apply IH].
  set (entry := {| path := resolved; content := slice0 20000 c |}).
  set (st' := XState (out st ++ [entry]) ({[resolved]} ∪ seen st)
                (queue st ++ [entry])).
  destruct (Z.geb_spec (Z.of_nat (length (out st ++ [entry]))) maxFiles)
    as [Hge|Hlt].
  - exists [entry]. simpl. repeat split.
    + set_solver.
    + apply NoDup_singleton.
    + intros p ->%list_elem_of_singleton. done.
    + intros Hlen. rewrite length_app in *. simpl in *. lia.
  - destruct (IH st') as (new & Hout & Hq & Hseen' & Hnd & Hfresh & Hlen).
    exists (entry :: new). simpl in *.
    rewrite Hout, Hq, Hseen', <- !app_assoc. simpl. repeat split.
    + set_solver.
    + constructor; [|done]. intros Hin. apply Hfresh in Hin. set_solver.
    + intros p [->|Hin]%elem_of_cons; [done|]. apply Hfresh in Hin. set_solver.
    + intros _. rewrite <- app_assoc in Hlen. apply Hlen. lia.
Qed.

Lemma expand_loop_spec maxFiles fuel : ∀ st,
  (length (queue st) + (Z.to_nat maxFiles - length (out st)) < fuel)%nat →
  ∃ res,
    expand_loop fuel maxFiles st = Some res ∧
    out st `prefix_of` res ∧
    (Z.of_nat (length res) ≤ Z.max (Z.of_nat (length (out st))) maxFiles)%Z ∧
    (seen_ok st → NoDup (path <$> out st) → NoDup (path <$> res)).
Proof.
  induction fuel as [|fuel IH]; intros st Hfuel; [lia|]. simpl.
  destruct (queue st) as [|item queue'] eqn:Hq.
  { exists (out st). repeat split; [done | lia | done]. }
  destruct (Z.ltb_spec (Z.of_nat (length (out st))) maxFiles) as [Hlt|Hge].
  2: { exists (out st). repeat split; [done | lia | done]. }
  destruct (parseRelativeImports_total (content item)) as [imports ->].
  set (st0 := XState (out st) (seen st) queue').
  destruct (expand_item_spec maxFiles (path item) imports st0)
    as (new & Hout & Hq' & Hseen & Hnd & Hfresh & Hlen).
  specialize (Hlen Hlt). simpl in *.
  destruct (IH (expand_item maxFiles (path item) imports st0))
    as (res & Hres & Hpre & Hbound & Hdup).
  { rewrite Hout, Hq'. rewrite !length_app in *. simpl in *. lia. }
  exists res. repeat split.
  - done.
  - rewrite Hout in Hpre. etrans; [|exact Hpre]. by apply prefix_app_r.
  - rewrite Hout in Hbound. lia.
  - intros Hok Hnd0. apply Hdup.
    + unfold seen_ok. rewrite Hseen, Hout, fmap_app, list_to_set_app_L, Hok.
      set_solver.
    + rewrite Hout, fmap_app. apply NoDup_app. repeat split; [done| |done].
      intros p Hp Hp'. apply Hfresh in Hp'. rewrite Hok in Hp'. set_solver.
Qed.

Lemma expandContextByImports_spec seed maxFiles :
  ∃ res,
    expandContextByImports seed maxFiles = Some res ∧
    seed `prefix_of` res ∧
    (Z.of_nat (length res) ≤ Z.max (Z.of_nat (length seed)) maxFiles)%Z ∧
    (NoDup (path <$> seed) → NoDup (path <$> res)).
Proof.
  destruct (expand_loop_spec maxFiles (expand_fuel seed maxFiles)
              (init_state seed)) as (res & Hres & Hpre & Hbound & Hdup).
  { unfold expand_fuel. simpl. lia. }
  exists res. repeat split; [done..|].
  intros Hnd. by apply Hdup.
Qed.

(** C1 (amended). For every file system, seed and budget the expansion
    returns; its result starts with the seed, so it holds every seed entry,
    and it has at most [max (length seed) maxFiles] entries: at most
    [maxFiles] whenever the seed itself is within the budget. *)
Theorem expand_budget seed maxFiles :
  ∃ res,
    expandContextByImports seed maxFiles = Some res ∧
    seed `prefix_of` res ∧
    (∀ f, f ∈ seed → f ∈ res) ∧
    (Z.of_nat (length res) ≤ Z.max (Z.of_nat (length seed)) maxFiles)%Z ∧
    ((Z.of_nat (length seed) ≤ maxFiles)%Z →
     (Z.of_nat (length res) ≤ maxFiles)%Z).
Proof.
  destruct (expandContextByImports_spec seed maxFiles)
    as (res & Hres & Hpre & Hbound & _).
  exists res. repeat split; [done.. | | done | lia].
  intros f Hf. destruct Hpre as [new ->]. apply elem_of_app. by left.
Qed.

(** C5 (amended). When no two seed entries have the same path, the
    expansion returns a list in which no two entries have the same path. *)
Theorem expand_no_dup seed maxFiles :
  NoDup (path <$> seed) →
  ∃ res,
    expandContextByImports seed maxFiles = Some res ∧ NoDup (path <$> res).
Proof.
  intros Hnd.
  destruct (expandContextByImports_spec seed maxFiles)
    as (res & Hres & _ & _ & Hdup).
  exists res. split; [done | by apply Hdup].
Qed.

End resolver.

(** The scenario of the specification: [a.ts] imports [./b], [b.ts] is on
    disk and imports nothing. *)
Example expand_a_b :
  expandContextByImports demo_env [file_a] 5 = Some [file_a; file_b].
Proof. vm_compute. reflexivity. Qed.

(** C1, as stated, fails: a seed of two entries with a budget of one comes
    back whole. *)
Lemma expand_budget_counterexample :
  ∃ res,
    expandContextByImports demo_env [file_a; file_b] 1 = Some res ∧
    ¬ (Z.of_nat (length res) ≤ 1)%Z.
Proof.
  exists [file_a; file_b]. split; [vm_compute; reflexivity | simpl; lia].
Qed.

(** C5, as stated, fails: a seed that names one path twice comes back with
    both entries. *)
Lemma expand_no_dup_counterexample :
  ∃ res,
    expandContextByImports demo_env [file_b; file_b] 5 = Some res ∧
    ¬ NoDup (path <$> res).
Proof.
  exists [file_b; file_b]. split; [vm_compute; reflexivity|].
  intros Hnd. apply NoDup_cons in Hnd as [Hnotin _]. apply Hnotin. by left.
Qed.

Lemma expand_budget_witness :
  ∃ res,
    expandContextByImports demo_env [file_a] 5 = Some res ∧
    (Z.of_nat (length res) ≤ 5)%Z.
Proof.
  destruct (expand_budget demo_env [file_a] 5) as (res & H1 & _ & _ & _ & H5).
  exists res. split; [exact H1 | apply H5; simpl; lia].
Defined.

Lemma expand_no_dup_witness :
  NoDup (path <$> [file_a]) ∧
  ∃ res,
    expandContextByImports demo_env [file_a] 5 = Some res ∧
    NoDup (path <$> res).
Proof.
  split; [apply NoDup_singleton|].
  apply expand_no_dup. apply NoDup_singleton.
Defined.

End ContextResolverFacts.

(** ** [JSON.parse] *)

Module JsonFacts.
Import Json.

Lemma skip_ws_length s : (length (skip_ws s) ≤ length s)%nat.
Proof.
  induction s as [|c s IH]; simpl; [done|]. destruct (is_json_ws c); simpl; lia.
Qed.

Lemma span_digits_length s ds r :
  span_digits s = (ds, r) → (length r ≤ length s)%nat.
Proof.
  revert ds r. induction s as [|c s IH]; intros ds r; simpl.
  - by intros [= <- <-].
  - destruct (is_digit c).
    + destruct (span_digits s) as [ds' r']. intros [= <- <-].
      specialize (IH ds' r' eq_refl). lia.
    + intros [= <- <-]. simpl. lia.
Qed.

Lemma parse_exp_length lx s lx' r :
  parse_exp lx s = Some (lx', r) → (length r ≤ length s)%nat.
Proof.
  unfold parse_exp. destruct s as [|e s]; [by intros [= <- <-]|].
  destruct ((e =? 101) || (e =? 69)); [|by intros [= <- <-]].
  destruct s as [|sg s']; [|destruct ((sg =? 43) || (sg =? 45))];
    cbv zeta beta iota;
    (destruct (span_digits _) as [[|d ds] r2] eqn:Hsp; [done|]);
    intros [= <- <-]; apply span_digits_length in Hsp; simpl in *; lia.
Qed.

Lemma parse_frac_length lx s lx' r :
  parse_frac lx s = Some (lx', r) → (length r ≤ length s)%nat.
Proof.
  unfold parse_frac. destruct s as [|c s]; [apply parse_exp_length|].
  destruct (c =? 46); [|apply parse_exp_length].
  destruct (span_digits s) as [[|d ds] r1] eqn:Hsp; [done|].
  intros H%parse_exp_length. apply span_digits_length in Hsp. simpl. lia.
Qed.

Lemma parse_int_length sign s lx r :
  parse_int sign s = Some (lx, r) → (length r < length s)%nat.
Proof.
  unfold parse_int. destruct s as [|c s]; [done|].
  destruct (c =? 48).
  - intros H%parse_frac_length. simpl. lia.
  - destruct (is_digit c); [|done].
    destruct (span_digits s) as [ds r1] eqn:Hsp.
    intros H%parse_frac_length. apply span_digits_length in Hsp. simpl. lia.
Qed.

Lemma parse_number_length s lx r :
  parse_number s = Some (lx, r) → (length r < length s)%nat.
Proof.
  unfold parse_number. destruct s as [|c s]; [done|].
  destruct (c =? 45); intros H%parse_int_length; simpl in *; lia.
Qed.

Lemma parse_chars_length n : ∀ s acc str r,
  (length s ≤ n)%nat →
  parse_chars s acc = Some (str, r) → (length r < length s)%nat.
Proof.
  induction n as [|n IH]; intros s acc str r Hn.
  - destruct s; [done | simpl in Hn; lia].
  - destruct s as [|c s]; [done|]. cbn [parse_chars].
    destruct (c =? 34); [intros [= <- <-]; simpl; lia|].
    destruct (c =? 92).
    + destruct s as [|e s]; [done|]. destruct (e =? 117).
      * destruct s as [|a [|b [|c' [|d s]]]]; try done.
        destruct (hex4 a b c' d); [|done].
        intros H%IH; simpl in *; lia.
      * destruct (escape_char e); [|done].
        intros H%IH; simpl in *; lia.
    + destruct (c <? 32); [done|]. intros H%IH; simpl in *; lia.
Qed.

(** A value, a list of elements and a list of members all take at least
    one character. *)
Lemma parse_consumes fuel :
  (∀ s v r, parse_value fuel s = Ok v r → (length r < length s)%nat) ∧
  (∀ s acc v r, parse_elems fuel s acc = Ok v r → (length r < length s)%nat) ∧
  (∀ s acc v r, parse_members fuel s acc = Ok v r → (length r < length s)%nat).
Proof.
  induction fuel as [|f (IHv & IHe & IHm)]; [done|]. repeat split.
  - intros s v r. cbn [parse_value]. pose proof (skip_ws_length s) as Hs.
    destruct (skip_ws s) as [|c s1]; [done|]. simpl in Hs.
    destruct (c =? 123).
    { pose proof (skip_ws_length s1) as Hs1.
      destruct (skip_ws s1) as [|c1 r1]; [done|]. simpl in Hs1.
      destruct (c1 =? 125); [intros [= <- <-]; lia|].
      intros H%IHm. simpl in H. lia. }
    destruct (c =? 91).
    { pose proof (skip_ws_length s1) as Hs1.
      destruct (skip_ws s1) as [|c1 r1]; [done|]. simpl in Hs1.
      destruct (c1 =? 93); [intros [= <- <-]; lia|].
      intros H%IHe. simpl in H. lia. }
    destruct (c =? 34).
    { destruct (parse_chars s1 []) as [[str r1]|] eqn:Hc; [|done].
      intros [= <- <-]. apply (parse_chars_length (length s1)) in Hc; lia. }
    destruct (startsWith (c :: s1) (lit "true")).
    { intros [= <- <-]. rewrite length_drop. simpl. lia. }
    destruct (startsWith (c :: s1) (lit "false")).
    { intros [= <- <-]. rewrite length_drop. simpl. lia. }
    destruct (startsWith (c :: s1) (lit "null")).
    { intros [= <- <-]. rewrite length_drop. simpl. lia. }
    destruct (parse_number (c :: s1)) as [[lx r1]|] eqn:Hn; [|done].
    intros [= <- <-]. apply parse_number_length in Hn. simpl in Hn. lia.
  - intros s acc v r. cbn [parse_elems].
    destruct (parse_value f s) as [| |v1 r1] eqn:Hv; try done.
    apply IHv in Hv. pose proof (skip_ws_length r1) as Hr1.
    destruct (skip_ws r1) as [|c r2]; [done|]. simpl in Hr1.
    destruct (c =? 44); [intros H%IHe; lia|].
    destruct (c =? 93); [|done]. intros [= <- <-]. lia.
  - intros s acc v r. cbn [parse_members]. pose proof (skip_ws_length s) as Hs.
    destruct (skip_ws s) as [|q s1]; [done|]. simpl in Hs.
    destruct (q =? 34); [|done].
    destruct (parse_chars s1 []) as [[key r1]|] eqn:Hc; [|done].
    apply (parse_chars_length (length s1)) in Hc; [|lia].
    pose proof (skip_ws_length r1) as Hr1.
    destruct (skip_ws r1) as [|c r2]; [done|]. simpl in Hr1.
    destruct (c =? 58); [|done].
    destruct (parse_value f r2) as [| |v1 r3] eqn:Hv; try done.
    apply IHv in Hv. pose proof (skip_ws_length r3) as Hr3.
    destruct (skip_ws r3) as [|d r4]; [done|]. simpl in Hr3.
    destruct (d =? 44); [intros H%IHm; lia|].
    destruct (d =? 125); [|done]. intros [= <- <-]. lia.
Qed.

(** With fuel for two steps per character the parser does not stop for
    lack of fuel. *)
Lemma parse_fuel fuel :
  (∀ s, (2 * length s + 1 ≤ fuel)%nat → parse_value fuel s ≠ NoFuel) ∧
  (∀ s acc, (2 * length s + 2 ≤ fuel)%nat → parse_elems fuel s acc ≠ NoFuel) ∧
  (∀ s acc, (2 * length s + 2 ≤ fuel)%nat → parse_members fuel s acc ≠ NoFuel).
Proof.
  induction fuel as [|f (IHv & IHe & IHm)]; [repeat split; intros; lia|].
  destruct (parse_consumes f) as (Cv & Ce & Cm). repeat split.
  - intros s Hf. cbn [parse_value]. pose proof (skip_ws_length s) as Hs.
    destruct (skip_ws s) as [|c s1]; [done|]. simpl in Hs.
    destruct (c =? 123).
    { pose proof (skip_ws_length s1) as Hs1.
      destruct (skip_ws s1) as [|c1 r1]; [done|]. simpl in Hs1.
      destruct (c1 =? 125); [done|]. apply IHm. simpl. lia. }
    destruct (c =? 91).
    { pose proof (skip_ws_length s1) as Hs1.
      destruct (skip_ws s1) as [|c1 r1]; [done|]. simpl in Hs1.
      destruct (c1 =? 93); [done|]. apply IHe. simpl. lia. }
    destruct (c =? 34); [by destruct (parse_chars s1 []) as [[]|]|].
    destruct (startsWith _ _); [done|].
    destruct (startsWith _ _); [done|].
    destruct (startsWith _ _); [done|].
    by destruct (parse_number _) as [[]|].
  - intros s acc Hf. cbn [parse_elems].
    destruct (parse_value f s) as [| |v1 r1] eqn:Hv; [|done|].
    { exfalso. revert Hv. apply IHv. lia. }
    apply Cv in Hv. pose proof (skip_ws_length r1) as Hr1.
    destruct (skip_ws r1) as [|c r2]; [done|]. simpl in Hr1.
    destruct (c =? 44); [apply IHe; lia|]. by destruct (c =? 93).
  - intros s acc Hf. cbn [parse_members]. pose proof (skip_ws_length s) as Hs.
    destruct (skip_ws s) as [|q s1]; [done|]. simpl in Hs.
    destruct (q =? 34); [|done].
    destruct (parse_chars s1 []) as [[key r1]|] eqn:Hc; [|done].
    apply (parse_chars_length (length s1)) in Hc; [|lia].
    pose proof (skip_ws_length r1) as Hr1.
    destruct (skip_ws r1) as [|c r2]; [done|]. simpl in Hr1.
    destruct (c =? 58); [|done].
    destruct (parse_value f r2) as [| |v1 r3] eqn:Hv; [|done|].
    { exfalso. revert Hv. apply IHv. lia. }
    apply Cv in Hv. pose proof (skip_ws_length r3) as Hr3.
    destruct (skip_ws r3) as [|d r4]; [done|]. simpl in Hr3.
    destruct (d =? 44); [apply IHm; lia|]. by destruct (d =? 125).
Qed.

(** So [JSON_parse] is [None] only for a text that is not JSON. *)
Lemma JSON_parse_fuel text :
  parse_value (2 * length text + 1) text ≠ NoFuel.
Proof. by apply parse_fuel. Qed.

End JsonFacts.

(** ** The analyzer and its heuristic scanner *)

Module GroqFacts.
Import RegExp RegExpFacts Json Groq.

(** C2. The code does not do what the claim states: after the hunk header
    [@@ -1,3 +10,3 @@] the three added lines are numbered 11, 12 and 13,
    because the counter is set to 10 and then incremented before each
    use. *)
Theorem hunk_lines_off_by_one :
  List.map line (heuristicScan diff_three_added [])
  = [Some (Fin 11); Some (Fin 12); Some (Fin 13)].
Proof. vm_compute. reflexivity. Qed.

(** Without a hunk header, as in the diffs [buildSyntheticDiff] makes, the
    same increment numbers the lines from 1. *)
Example synthetic_lines :
  List.map line (heuristicScan diff_three_synthetic [])
  = [Some (Fin 1); Some (Fin 2); Some (Fin 3)].
Proof. vm_compute. reflexivity. Qed.

(** The same holds for any three added lines: every issue found in them
    carries 11, 12 or 13. *)
Lemma scan_hunk_header st :
  scan_line st hunk_header = Scan (results st) (currentFile st) 10%Z.
Proof. vm_compute. reflexivity. Qed.

Lemma Forall_when (P : ReviewIssue → Prop) b i : P i → Forall P (when b i).
Proof. intros Hi. destruct b; repeat constructor; done. Qed.

Lemma line_issues_line currentFile lineNumber added :
  Forall (fun i => file i = currentFile ∧ line i = Some lineNumber)
    (line_issues currentFile lineNumber added).
Proof.
  unfold line_issues. repeat (apply Forall_app; split);
    by apply Forall_when.
Qed.

(** C7. The code does not do what the claim states: an image that has an
    [alt] attribute is reported as missing it, and an image tag without
    any attribute is not reported. *)
Theorem missing_alt_misfires :
  List.map problem (heuristicScan diff_img_with_alt []) = [missing_alt] ∧
  heuristicScan diff_img_bare [] = [].
Proof. split; vm_compute; reflexivity. Qed.

(** *** The rule for hard-coded secrets *)

Lemma startsWith_app s p rest :
  startsWith s p = true → startsWith (s ++ rest) p = true.
Proof.
  revert p. induction s as [|c s IH]; intros [|d p]; simpl; try done.
  intros [-> H]%andb_prop. simpl. by apply IH.
Qed.

Lemma startsWith_cons c s p : startsWith (c :: s) (c :: p) = startsWith s p.
Proof. simpl. by rewrite N.eqb_refl. Qed.

Lemma startsWith_prefix s p q :
  startsWith s (p ++ q) = true → startsWith s p = true.
Proof.
  revert s. induction p as [|d p IH]; intros [|c s]; simpl; try done.
  intros [-> H]%andb_prop. simpl. by apply IH.
Qed.

Lemma includes_app_l s p rest :
  includes s p = true → includes (s ++ rest) p = true.
Proof.
  induction s as [|c s IH]; simpl.
  - rewrite orb_false_r. intros H. destruct p; [|done].
    destruct rest; reflexivity.
  - intros [H|H]%orb_prop; apply orb_true_iff.
    + left. by apply (startsWith_app (c :: s)).
    + right. by apply IH.
Qed.

Lemma includes_app_r s p before :
  includes s p = true → includes (before ++ s) p = true.
Proof.
  intros H. induction before as [|c before IH]; [done|].
  simpl. rewrite IH. apply orb_true_r.
Qed.

Lemma includes_middle s p before after :
  includes s p = true → includes (before ++ s ++ after) p = true.
Proof. intros H. by apply includes_app_r, includes_app_l. Qed.





Lemma stating_app p l1 l2 : stating p (l1 ++ l2) = stating p l1 ++ stating p l2.
Proof. apply List.filter_app. Qed.

Lemma stating_when p b i :
  stating p (when b i) = if b && streq (problem i) p then [i] else [].
Proof. destruct b; simpl; [|done]. by destruct (streq _ _). Qed.


(** Below [2 ^ 53] the counter counts as the integers do. *)
Lemma to_number_small n : (n < 2 ^ 53)%Z → to_number n = Fin n.
Proof. intros Hn. unfold to_number. by apply Z.ltb_lt in Hn as ->. Qed.

Lemma increment_small n : (n + 1 < 2 ^ 53)%Z → increment (Fin n) = Fin (n + 1).
Proof. apply to_number_small. Qed.


(** What the scanner does on an added line. *)
Lemma scan_line_added st added :
  startsWith added (lit "++") = false →
  scan_line st (43 :: added)
  = Scan (results st
          ++ line_issues (currentFile st) (increment (lineNumber st)) added)
      (currentFile st) (increment (lineNumber st)).
Proof.
  intros Hplus. unfold scan_line.
  assert (H2 : startsWith (43 :: added) (lit "+++") = false).
  { change (lit "+++") with (43 :: lit "++"). by rewrite startsWith_cons. }
  assert (H1 : startsWith (43 :: added) (lit "+++ b/") = false).
  { destruct (startsWith (43 :: added) (lit "+++ b/")) eqn:E; [|done].
    apply (startsWith_prefix _ (lit "+++") (lit " b/")) in E. congruence. }
  assert (H3 : startsWith (43 :: added) (lit "@@") = false) by done.
  assert (H4 : startsWith (43 :: added) (lit "+") = true) by done.
  rewrite H1, H2, H3, H4. done.
Qed.

Lemma hunk_numbering st l1 l2 l3 :
  startsWith l1 (lit "++") = false →
  startsWith l2 (lit "++") = false →
  startsWith l3 (lit "++") = false →
  results (fold_left scan_line [hunk_header; 43 :: l1; 43 :: l2; 43 :: l3] st)
  = results st
    ++ line_issues (currentFile st) 11%Z l1
    ++ line_issues (currentFile st) 12%Z l2
    ++ line_issues (currentFile st) 13%Z l3.
Proof.
  intros H1 H2 H3. cbn [fold_left].
  rewrite scan_hunk_header, !scan_line_added by done.
  cbn [results currentFile lineNumber]. by rewrite <- !app_assoc.
Qed.


(** *** The rule for images without [alt] *)

Lemma gt_split s : s = upto_gt s ++ from_gt s.
Proof.
  induction s as [|c s IH]; simpl; [done|].
  destruct (c =? 62); simpl; [done | by rewrite <- IH].
Qed.

Lemma noneof_gt c : c ≠ 62 → noneof (lit ">") c = true.
Proof.
  intros Hc. unfold noneof, oneof. change (lit ">") with [62].
  cbn [existsb]. rewrite orb_false_r. by apply negb_true_iff, N.eqb_neq.
Qed.

Lemma upto_gt_Forall s : Forall (fun c => noneof (lit ">") c = true) (upto_gt s).
Proof.
  induction s as [|c s IH]; simpl; [constructor|].
  destruct (N.eqb_spec c 62) as [->|Hc]; [constructor|].
  constructor; [by apply noneof_gt | done].
Qed.

Lemma from_gt_no_alt s b cs :
  m (Lit (lit "alt=")) Some (MState b (from_gt s) cs) = None.
Proof.
  induction s as [|c s IH]; simpl from_gt; [done|].
  destruct (N.eqb_spec c 62) as [->|Hc]; [done | apply IH].
Qed.

(** The pattern [missingAlt] matches whenever [<img] is followed by a
    character other than [>], whether the tag has an [alt] or not. *)
Lemma missingAlt_test before c rest :
  c ≠ 62 → test missingAlt (before ++ lit "<img" ++ c :: rest) = true.
Proof.
  intros Hc. rewrite (gt_split rest).
  replace (lit "<img" ++ c :: upto_gt rest ++ from_gt rest)
    with ((lit "<img" ++ c :: upto_gt rest) ++ from_gt rest)
    by (by rewrite <- app_assoc).
  apply test_complete. unfold missingAlt. cbn [seqs].
  apply M_Seq; [by apply Matches_Lit|].
  rewrite <- (app_nil_r (c :: upto_gt rest)).
  apply M_Seq.
  - apply Matches_Plus_Chr; [done|].
    constructor; [by apply noneof_gt | apply upto_gt_Forall].
  - apply M_NotAhead. intros cs. apply from_gt_no_alt.
Qed.

Lemma imgTag_test before rest :
  test imgTag (before ++ lit "<img" ++ rest) = true.
Proof. apply test_complete. by apply Matches_Lit. Qed.

Lemma line_issues_alt currentFile lineNumber added :
  stating missing_alt (line_issues currentFile lineNumber added)
  = when (includes added (lit "<img") && test imgTag added
          && test missingAlt added)
      (found "Accessibility: Missing alt attribute"
         "Add alt text for screen readers" "warning"
         currentFile lineNumber added).
Proof.
  unfold line_issues. rewrite !stating_app, !stating_when.
  unfold found at 1 2 3 4 5 6 7 8 9 10. cbn [problem].
  repeat match goal with
  | |- context [streq (lit ?p) missing_alt] =>
      let b := eval vm_compute in (streq (lit p) missing_alt) in
      change (streq (lit p) missing_alt) with b
  end.
  rewrite !andb_false_r, andb_true_r. done.
Qed.

(** So every added line in which [<img] is followed by a character other
    than [>] is reported as missing [alt]. *)
Lemma img_attribute_flagged currentFile lineNumber before c rest :
  c ≠ 62 →
  stating missing_alt
    (line_issues currentFile lineNumber (before ++ lit "<img" ++ c :: rest))
  = [found "Accessibility: Missing alt attribute"
       "Add alt text for screen readers" "warning"
       currentFile lineNumber (before ++ lit "<img" ++ c :: rest)].
Proof.
  intros Hc. rewrite line_issues_alt, missingAlt_test, imgTag_test by done.
  rewrite (includes_middle (lit "<img")); done.
Qed.

(** *** The pattern that extracts a block from a free text *)

(** After the opening bracket, the match ends at the first closing
    bracket. *)
Lemma first_accept_close st1 b s cs :
  match first_accept
          (fun st' => m (Chr (one 93)) Some
                        (set_cap 1 (consumed st1 st') st')) b s cs with
  | Some e => ∃ t, upto_close s = Some t ∧ s = t ++ post e
  | None => upto_close s = None
  end.
Proof.
  revert b. induction s as [|c s IH]; intros b; [done|].
  cbn [first_accept m post pre caps set_cap upto_close].
  unfold one at 1. rewrite (N.eqb_sym 93 c).
  destruct (N.eqb_spec c 93) as [->|Hc].
  - by exists [93].
  - specialize (IH (c :: b)). destruct (first_accept _ _ s cs) as [e|].
    + destruct IH as (t & -> & Hs). exists (c :: t). by rewrite Hs at 1.
    + by rewrite IH.
Qed.

Lemma any_char_true c : any_char c = true.
Proof. unfold any_char. by destruct (is_space c). Qed.

Lemma jsonBlock_m b c s cs :
  m jsonBlock Some (MState b (c :: s) cs)
  = if 91 =? c then
      star_loop
        (fun k' st' =>
           m (Chr any_char) k' (clear_caps (groups (Chr any_char)) st'))
        false
        (fun st' =>
           m (Chr (one 93)) Some
             (set_cap 1 (consumed (MState (c :: b) s cs) st') st'))
        (length s) (MState (c :: b) s cs)
    else None.
Proof. reflexivity. Qed.

Lemma jsonBlock_exec b s :
  option_map m_text (exec_at jsonBlock b s)
  = match s with
    | c :: s' =>
        if c =? 91 then
          match upto_close s' with
          | Some t => Some (91 :: t)
          | None => None
          end
        else None
    | [] => None
    end.
Proof.
  unfold exec_at. destruct s as [|c s]; [done|]. rewrite jsonBlock_m.
  rewrite (N.eqb_sym 91 c).
  destruct (N.eqb_spec c 91) as [->|Hc]; [|done].
  rewrite star_lazy_any by (apply any_char_true || done).
  pose proof (first_accept_close (MState (91 :: b) s []) (91 :: b) s []) as H.
  destruct (first_accept _ _ s []) as [e|].
  - destruct H as (t & -> & Hs). cbn [option_map m_text post]. f_equal.
    rewrite Hs. change (91 :: t ++ post e) with ((91 :: t) ++ post e).
    by rewrite length_app, Nat.add_sub, take_app_length.
  - by rewrite H.
Qed.

Lemma upto_close_None_block s : upto_close s = None → first_block s = None.
Proof.
  induction s as [|c s IH]; simpl; [done|].
  destruct (c =? 93); [done|].
  destruct (upto_close s); [done|]. intros _.
  destruct (c =? 91); [done | by apply IH].
Qed.

(** The block the pattern finds is the text from the first opening bracket
    to the first closing bracket after it. *)
Lemma jsonBlock_first_block s :
  option_map m_text (match_ jsonBlock s) = first_block s.
Proof.
  unfold match_. generalize (@nil N) as b.
  induction s as [|c s IH]; intros b.
  - simpl. pose proof (jsonBlock_exec b []) as H.
    by destruct (exec_at jsonBlock b []).
  - simpl. pose proof (jsonBlock_exec b (c :: s)) as H.
    destruct (exec_at jsonBlock b (c :: s)) as [x|]; simpl in H.
    + destruct (c =? 91); [|done]. simpl. by destruct (upto_close s).
    + rewrite IH. destruct (c =? 91); [|done].
      destruct (upto_close s) eqn:Hs; [done|]. by apply upto_close_None_block.
Qed.

(** [first_block], stated on the text. *)
Lemma first_block_Some before mid after :
  91 ∉ before → 93 ∉ mid →
  first_block (before ++ 91 :: mid ++ 93 :: after) = Some (91 :: mid ++ [93]).
Proof.
  intros Hb Hm. induction before as [|c before IH]; simpl.
  - assert (Hu : upto_close (mid ++ 93 :: after) = Some (mid ++ [93])).
    { induction mid as [|d mid IHm]; simpl; [done|].
      destruct (N.eqb_spec d 93) as [->|_]; [set_solver|].
      rewrite IHm; [done | set_solver]. }
    by rewrite Hu.
  - destruct (N.eqb_spec c 91) as [->|_]; [set_solver|].
    apply IH. set_solver.
Qed.

Lemma upto_close_None s : 93 ∉ s → upto_close s = None.
Proof.
  induction s as [|c s IH]; simpl; [done|]. intros Hs.
  destruct (N.eqb_spec c 93) as [->|_]; [set_solver|].
  rewrite IH; [done | set_solver].
Qed.

Lemma first_block_None before after :
  91 ∉ before → 93 ∉ after →
  first_block before = None ∧ first_block (before ++ 91 :: after) = None.
Proof.
  intros Hb Ha. induction before as [|c before IH]; simpl.
  - by rewrite upto_close_None.
  - destruct (N.eqb_spec c 91) as [->|_]; [set_solver|].
    apply IH. set_solver.
Qed.

Section analyzer.
Context (number_to_string : jsstring → jsstring).

Local Abbreviation normalize_one := (normalize_one number_to_string).
Local Abbreviation normalizeIssues := (normalizeIssues number_to_string).
Local Abbreviation try_parse := (try_parse number_to_string).
Local Abbreviation safeParseIssues := (safeParseIssues number_to_string).
Local Abbreviation safeParseIssues_any := (safeParseIssues_any number_to_string).
Local Abbreviation analyze_try := (analyze_try number_to_string).
Local Abbreviation analyzeWithGroq := (analyzeWithGroq number_to_string).
Local Abbreviation remote_failed := (remote_failed number_to_string).

(** C3. With an API key in the environment, whenever the request throws,
    the response is not OK, or the extraction finds no issue,
    [analyzeWithGroq] returns what the heuristic scanner finds in the
    diff; it does not throw. *)
Theorem analyze_falls_back apiKey res diff contextFiles :
  truthy apiKey = true →
  remote_failed res →
  analyzeWithGroq (Some apiKey) res diff contextFiles
  = Return (heuristicScan diff contextFiles).
Proof.
  intros Hkey Hfail. unfold Groq.analyzeWithGroq.
  destruct apiKey as [|c key]; [done|]. clear Hkey.
  destruct Hfail as [|r Hok|r Hjson|r data Hjson Hthrow|r data Hjson Hnone];
    simpl.
  - done.
  - by rewrite Hok.
  - rewrite Hjson. by destruct (ok r).
  - rewrite Hjson, Hthrow. by destruct (ok r).
  - rewrite Hjson, Hnone. by destruct (ok r).
Qed.

(** With an API key, the call never throws, whatever the remote side
    does. *)
Lemma analyze_returns apiKey res diff contextFiles :
  truthy apiKey = true →
  ∃ issues, analyzeWithGroq (Some apiKey) res diff contextFiles = Return issues.
Proof.
  intros Hkey. unfold Groq.analyzeWithGroq.
  destruct apiKey as [|c key]; [done|].
  destruct (Groq.analyze_try _ res diff contextFiles); eauto.
Qed.


Lemma map_outcome_Forall {A B} (f : A → outcome B) (P : B → Prop) l ys :
  (∀ x y, f x = Return y → P y) →
  map_outcome f l = Return ys → Forall P ys.
Proof.
  intros Hf. revert ys. induction l as [|x l IH]; intros ys; simpl.
  - intros [= <-]. constructor.
  - destruct (f x) as [y|] eqn:Hx; [|done].
    destruct (map_outcome f l) as [ys'|]; [|done].
    intros [= <-]. constructor; eauto.
Qed.





(** C8 (amended). The extraction first parses the whole text and keeps
    the result when it is an array whose elements can be normalized;
    otherwise it parses the text from the first opening bracket to the
    first closing bracket that follows it; when neither gives such an
    array, or the text has no such block, it returns no issue. *)
Theorem extraction_order text :
  safeParseIssues text
  = match try_parse text with
    | Some issues => issues
    | None =>
        match first_block text with
        | Some block => default [] (try_parse block)
        | None => []
        end
    end.
Proof.
  unfold Groq.safeParseIssues. destruct (Groq.try_parse _ text); [done|].
  rewrite <- jsonBlock_first_block.
  destruct (match_ jsonBlock text) as [x|]; [|done]. simpl.
  by destruct (Groq.try_parse _ (m_text x)).
Qed.

End analyzer.

(** An array without inner bracket is extracted from the prose around
    it. *)
Example extraction_flat : safeParseIssues id answer_flat = [issue_loop].
Proof. vm_compute. reflexivity. Qed.

(** An element whose [file] cannot be converted to a string makes
    [normalizeIssues] throw in both attempts: nothing is extracted, and
    the analyzer falls back on the scanner. *)
Example extraction_unconvertible :
  safeParseIssues id answer_unconvertible = [] ∧
  remote_failed id (Resolved (response_with (JString answer_unconvertible))) ∧
  analyzeWithGroq id (Some (lit "gsk_key"))
    (Resolved (response_with (JString answer_unconvertible)))
    diff_three_added []
  = Return (heuristicScan diff_three_added []).
Proof.
  split; [vm_compute; reflexivity|]. split; [|vm_compute; reflexivity].
  eapply failed_no_issue; [reflexivity|]. vm_compute. reflexivity.
Qed.

(** C8, as stated, fails: when the array of the answer holds a nested
    array, the block of the code ends at the inner closing bracket and
    nothing is extracted, where the first balanced array gives the issue. *)
Lemma extraction_nested_counterexample :
  safeParseIssues id answer_nested = [] ∧
  safeParseIssues_spec id answer_nested = [issue_loop].
Proof. split; vm_compute; reflexivity. Qed.

Lemma analyze_falls_back_witness :
  truthy (lit "gsk_key") = true ∧
  remote_failed id Rejected ∧
  analyzeWithGroq id (Some (lit "gsk_key")) Rejected diff_three_added []
  = Return (heuristicScan diff_three_added []).
Proof.
  split; [reflexivity|]. split; [constructor|].
  apply analyze_falls_back; [reflexivity | constructor].
Defined.


(** Nor is an added line whose own text starts with two plus signs: in the
    diff it starts with three, and the scanner passes over it. *)
Example secret_after_increment :
  assigns_secret added_increment ∧
  heuristicScan (lit "+++ b/src/a.ts" ++ [LF] ++ 43 :: added_increment) []
  = [].
Proof.
  split; [|vm_compute; reflexivity].
  exists (lit "++n; "), (lit "token"), (lit " "), (lit " "), squote,
    (lit "abc123"), squote, (lit ";").
  split; [reflexivity|]. split; [unfold secret_names; simpl; set_solver|].
  repeat split; try reflexivity; try done; repeat constructor.
Qed.


End GroqFacts.

(** ** The auto-fix engine *)

Module AutofixFacts.
Import RegExp RegExpFacts Json Groq GroqFacts Autofix.

(** *** The transform that removes trailing white space *)

Lemma is_blank_not_terminator c :
  is_blank c = true → is_line_terminator c = false.
Proof.
  unfold is_blank, oneof. simpl.
  destruct (N.eqb_spec c 32) as [->|_]; [done|].
  destruct (N.eqb_spec c 9) as [->|_]; done.
Qed.

Lemma blank_split s : s = blank_run s ++ after_blank s.
Proof.
  induction s as [|c s IH]; simpl; [done|].
  destruct (is_blank c); simpl; [by rewrite <- IH | done].
Qed.

Lemma after_blank_length s : (length (after_blank s) ≤ length s)%nat.
Proof. rewrite (blank_split s) at 2. rewrite length_app. lia. Qed.

(** The greedy run of blanks before the end of a line: it succeeds when
    the blanks reach the end of the line, with all of them. *)
Lemma blanks_to_eol n : ∀ b s cs,
  (length s ≤ n)%nat →
  star_loop
    (fun k' st' => m (Chr is_blank) k' (clear_caps (groups (Chr is_blank)) st'))
    true (m EndLine Some) n (MState b s cs)
  = if blank_to_eol s
    then Some (MState (rev (blank_run s) ++ b) (after_blank s) cs)
    else None.
Proof.
  change (groups (Chr is_blank)) with (@nil nat).
  induction n as [|n IH]; intros b s cs Hn.
  - destruct s; [done | simpl in Hn; lia].
  - destruct s as [|c s]; cbn [star_loop]; rewrite clear_caps_nil;
      cbn [m post pre caps]; [done|].
    cbn [blank_to_eol blank_run after_blank].
    destruct (is_blank c) eqn:Hc.
    + destruct (Nat.ltb_spec (length s) (length (c :: s))) as [_|Hge];
        [|simpl in Hge; lia].
      rewrite IH by (simpl in Hn; lia).
      destruct (blank_to_eol s).
      * simpl. by rewrite <- app_assoc.
      * by rewrite (is_blank_not_terminator c Hc).
    + by destruct (is_line_terminator c).
Qed.

Lemma trim_m b c s cs :
  m trim_whitespace_rx Some (MState b (c :: s) cs)
  = if is_blank c then
      star_loop
        (fun k' st' =>
           m (Chr is_blank) k' (clear_caps (groups (Chr is_blank)) st'))
        true (m EndLine Some) (length s) (MState (c :: b) s cs)
    else None.
Proof. reflexivity. Qed.

(** Where the pattern matches: at a blank from which blanks run to the end
    of the line; it then matches all these blanks. *)
Lemma trim_exec b s :
  exec_at trim_whitespace_rx b s
  = match s with
    | c :: s' =>
        if is_blank c && blank_to_eol s'
        then Some (RMatch b (c :: blank_run s') (after_blank s') [])
        else None
    | [] => None
    end.
Proof.
  unfold exec_at. destruct s as [|c s]; [done|]. rewrite trim_m.
  destruct (is_blank c); [|done]. rewrite blanks_to_eol by done.
  destruct (blank_to_eol s); [|done]. cbn [andb post caps]. f_equal. f_equal.
  rewrite (blank_split s) at 1 3.
  change (c :: blank_run s ++ after_blank s)
    with ((c :: blank_run s) ++ after_blank s).
  by rewrite length_app, Nat.add_sub, take_app_length.
Qed.

Lemma trim_spec_skip s :
  blank_to_eol s = true → trim_spec s = trim_spec (after_blank s).
Proof.
  induction s as [|c s IH]; simpl; [done|].
  destruct (is_blank c) eqn:Hc.
  - intros Hs. rewrite Hs. simpl. by apply IH.
  - intros _. simpl. by rewrite Hc.
Qed.

Lemma replace_go_trim fuel : ∀ b s,
  (length s < fuel)%nat →
  replace_go fuel trim_whitespace_rx [] b s = trim_spec s.
Proof.
  induction fuel as [|fuel IH]; intros b s Hfuel; [lia|].
  cbn [replace_go]. rewrite trim_exec. destruct s as [|c s]; [done|].
  cbn [trim_spec]. destruct (is_blank c && blank_to_eol s) eqn:Hc.
  - cbn [m_text m_after substitution app].
    apply andb_prop in Hc as [_ Hs].
    rewrite IH, <- trim_spec_skip; [done..|].
    pose proof (after_blank_length s). simpl in Hfuel. lia.
  - f_equal. apply IH. simpl in Hfuel. lia.
Qed.

Lemma trim_whitespace_spec code : trim_whitespace code = trim_spec code.
Proof. unfold trim_whitespace, replace_all. apply replace_go_trim. lia. Qed.

Lemma blank_to_eol_trim s : blank_to_eol (trim_spec s) = blank_to_eol s.
Proof.
  induction s as [|c s IH]; simpl; [done|].
  destruct (is_blank c) eqn:Hc; simpl.
  - destruct (blank_to_eol s) eqn:Hs; simpl; [done|]. by rewrite Hc.
  - by rewrite Hc.
Qed.

Lemma trim_spec_idempotent s : trim_spec (trim_spec s) = trim_spec s.
Proof.
  induction s as [|c s IH]; simpl; [done|].
  destruct (is_blank c && blank_to_eol s) eqn:Hc; [done|].
  simpl. by rewrite blank_to_eol_trim, Hc, IH.
Qed.

(** C4 (amended). For every text, removing the trailing white space twice
    gives the same result as removing it once. *)
Theorem trim_whitespace_idempotent code :
  trim_whitespace (trim_whitespace code) = trim_whitespace code.
Proof. rewrite !trim_whitespace_spec. apply trim_spec_idempotent. Qed.

(** C4, as stated, fails for the two other transforms: in [a==b==c] the
    second comparison is rewritten by the second pass only, and a call of
    [console.log] can come together from what a removal leaves. *)
Lemma idempotence_counterexample :
  strict_equality (strict_equality (lit "a==b==c"))
    ≠ strict_equality (lit "a==b==c") ∧
  remove_console (remove_console (lit "conconsole.log(1);sole.log(2);x"))
    ≠ remove_console (lit "conconsole.log(1);sole.log(2);x") ∧
  fix_three (fix_three (lit "a==b==c")) ≠ fix_three (lit "a==b==c").
Proof. repeat split; vm_compute; discriminate. Qed.

Example strict_equality_twice :
  strict_equality (lit "a==b==c") = lit "a===b==c" ∧
  strict_equality (lit "a===b==c") = lit "a===b===c".
Proof. split; vm_compute; reflexivity. Qed.

(** The scenario of the specification: an existing [===] or [!==] is not
    matched again. *)
Example strict_equality_fixed :
  strict_equality (var_to_const (lit "var x = 1; if (x == 1) {}"))
    = lit "const x = 1; if (x === 1) {}" ∧
  strict_equality (lit "const x = 1; if (x === 1 && x !== 2) {}")
    = lit "const x = 1; if (x === 1 && x !== 2) {}".
Proof. split; vm_compute; reflexivity. Qed.

Example remove_console_twice :
  remove_console (lit "conconsole.log(1);sole.log(2);x")
    = lit "console.log(2);x" ∧
  remove_console (lit "console.log(2);x") = lit "x".
Proof. split; vm_compute; reflexivity. Qed.

Section engine.
Context (toLowerCase : jsstring → jsstring).
Context (cwd : jsstring) (path_join : list jsstring → jsstring).

Local Abbreviation target := (target cwd path_join).
Local Abbreviation backup_path := (backup_path cwd path_join).
Local Abbreviation applyIssueFix := (applyIssueFix toLowerCase).
Local Abbreviation pattern_fix := (pattern_fix toLowerCase).
Local Abbreviation fix_file := (fix_file toLowerCase cwd path_join).
Local Abbreviation fix_files := (fix_files toLowerCase cwd path_join).
Local Abbreviation applyAutoFixes := (applyAutoFixes toLowerCase cwd path_join).

(** *** Issues parsed from an answer *)



(** *** A dry run with backups *)

Lemma backup_path_ne f : target f ≠ backup_path f.
Proof.
  unfold Autofix.backup_path. intros H.
  apply (f_equal length) in H. rewrite length_app in H. simpl in H. lia.
Qed.

Lemma backup_path_inj f g : backup_path f = backup_path g → target f = target g.
Proof. unfold Autofix.backup_path. apply app_inv_tail. Qed.

(** One file of a dry run: either nothing is written, or the content read
    from the file is written to its backup, and to no other path. *)
Lemma fix_file_dry f l fs fs' r :
  fix_file dry_run_with_backup f l fs = Return (fs', r) →
  match r with
  | None => fs' = fs
  | Some x =>
      result_file x = f ∧
      ∃ original,
        fs !! target f = Some (File original) ∧
        fs' = <[backup_path f := File original]> fs
  end.
Proof.
  unfold Autofix.fix_file.
  destruct (List.filter _ l) as [|i l'] eqn:Hl; [by intros [= <- <-]|].
  fold (target f). unfold existsSync, readFileSync.
  destruct (fs !! target f) as [[original|]|] eqn:Ht; cbn [negb];
    [|done|by intros [= <- <-]].
  destruct (apply_fixes toLowerCase _ original 0) as [content fixCount].
  destruct (fixCount >? 0)%Z; [|by intros [= <- <-]].
  unfold writeFileSync. fold (backup_path f).
  destruct (fs !! backup_path f) as [[|]|]; try done;
    intros [= <- <-]; (split; [done|]); by exists original.
Qed.

(** A dry run writes backups only. *)
Lemma fix_files_frame files : ∀ fs fs' rs,
  fix_files dry_run_with_backup files fs = (fs', Return rs) →
  ∀ p, (∀ r, r ∈ rs → p ≠ backup_path (result_file r)) →
    fs' !! p = fs !! p.
Proof.
  induction files as [|[f l] files IH]; intros fs fs' rs; simpl.
  { by intros [= <- <-]. }
  destruct (Autofix.fix_file _ _ _ _ f l fs) as [[fs1 r]|] eqn:Hf;
    [|by intros [= _ ?]].
  destruct (Autofix.fix_files _ _ _ _ files fs1) as [fs2 [rs'|]] eqn:Hfs;
    [|by intros [= _ ?]].
  intros [= <- <-] p Hp. apply fix_file_dry in Hf.
  rewrite (IH _ _ _ Hfs p).
  2: { intros r0 Hr0. apply Hp. destruct r; [by right | done]. }
  destruct r as [x|]; [|by subst].
  destruct Hf as (Hx & original & _ & ->).
  rewrite lookup_insert_ne; [done|]. intros <-. eapply Hp; [by left|].
  by rewrite Hx.
Qed.

(** The file of a result held a content when the run started, unless an
    earlier backup of the run was written over it. *)
Lemma fix_files_target files : ∀ fs fs' rs,
  fix_files dry_run_with_backup files fs = (fs', Return rs) →
  ∀ r, r ∈ rs →
    (∀ r', r' ∈ rs → target (result_file r) ≠ backup_path (result_file r')) →
    ∃ original, fs !! target (result_file r) = Some (File original).
Proof.
  induction files as [|[f l] files IH]; intros fs fs' rs; simpl.
  { intros [= <- <-] r Hr. by apply elem_of_nil in Hr. }
  destruct (Autofix.fix_file _ _ _ _ f l fs) as [[fs1 ro]|] eqn:Hf;
    [|by intros [= _ ?]].
  destruct (Autofix.fix_files _ _ _ _ files fs1) as [fs2 [rs'|]] eqn:Hfs;
    [|by intros [= _ ?]].
  intros [= <- <-] r Hr Hfree. apply fix_file_dry in Hf.
  destruct ro as [x|].
  - destruct Hf as (Hx & original & Ht & ->).
    apply elem_of_cons in Hr as [->|Hr].
    + exists original. by rewrite Hx.
    + destruct (IH _ _ _ Hfs r Hr) as [c Hc].
      { intros r' Hr'. apply Hfree. by right. }
      exists c. rewrite lookup_insert_ne in Hc; [done|].
      intros Heq. eapply Hfree; [by left|]. by rewrite Hx.
  - subst fs1. apply (IH _ _ _ Hfs r Hr Hfree).
Qed.

(** Once the backup of a file that is left alone holds its content, or is
    still to be written, it holds that content at the end. *)
Lemma fix_files_backup files : ∀ fs fs' rs,
  fix_files dry_run_with_backup files fs = (fs', Return rs) →
  ∀ t original,
    fs !! t = Some (File original) →
    (∀ r, r ∈ rs → t ≠ backup_path (result_file r)) →
    fs !! (t ++ backup_suffix) = Some (File original)
    ∨ (∃ r, r ∈ rs ∧ target (result_file r) = t) →
    fs' !! (t ++ backup_suffix) = Some (File original).
Proof.
  induction files as [|[f l] files IH]; intros fs fs' rs; simpl.
  { intros [= <- <-] t c Ht _ [H|(r & Hr & _)]; [done|].
    by apply elem_of_nil in Hr. }
  destruct (Autofix.fix_file _ _ _ _ f l fs) as [[fs1 ro]|] eqn:Hf;
    [|by intros [= _ ?]].
  destruct (Autofix.fix_files _ _ _ _ files fs1) as [fs2 [rs'|]] eqn:Hfs;
    [|by intros [= _ ?]].
  intros [= <- <-] t c Ht Hfree Hb. apply fix_file_dry in Hf.
  destruct ro as [x|].
  - destruct Hf as (Hx & original & Htf & ->).
    apply (IH _ _ _ Hfs t c).
    + rewrite lookup_insert_ne; [done|]. intros Heq.
      eapply Hfree; [by left|]. by rewrite Hx.
    + intros r Hr. apply Hfree. by right.
    + destruct (decide (target f = t)) as [<-|Hne].
      * left. fold (backup_path f). rewrite lookup_insert_eq.
        congruence.
      * destruct Hb as [Hb|(r & Hr & Hrt)].
        -- left. rewrite lookup_insert_ne; [done|].
           unfold Autofix.backup_path. intros Heq.
           by apply app_inv_tail in Heq.
        -- apply elem_of_cons in Hr as [->|Hr]; [by rewrite Hx in Hrt|].
           right. by exists r.
  - subst fs1. apply (IH _ _ _ Hfs t c Ht Hfree).
    destruct Hb as [Hb|(r & Hr & Hrt)]; [by left | right; by exists r].
Qed.

End engine.

(** C10, as stated, fails: the backup of [a.js] is written on
    [a.js.prefl-backup], a file of the same dry run whose content in
    memory a fix changes too. *)
Lemma dry_run_overwrites_target :
  ∃ results,
    (run [issue_var "a.js"; issue_var "a.js.prefl-backup"] disk).2
      = Return results ∧
    List.map result_file results = [lit "a.js"; lit "a.js.prefl-backup"] ∧
    disk !! lit "/w/a.js.prefl-backup" = Some (File (lit "var old = 0;")) ∧
    (run [issue_var "a.js"; issue_var "a.js.prefl-backup"] disk).1
      !! lit "/w/a.js.prefl-backup" = Some (File (lit "var a = 1;")) ∧
    (run [issue_var "a.js"; issue_var "a.js.prefl-backup"] disk).1
      !! lit "/w/a.js.prefl-backup" ≠ disk !! lit "/w/a.js.prefl-backup".
Proof.
  eexists. split; [vm_compute; reflexivity|].
  repeat split; vm_compute; (reflexivity || discriminate).
Qed.


End AutofixFacts.

(** ** More on strings and on the matcher *)

Module RegExpProps.
Import RegExp RegExpFacts GroqFacts.

Lemma startsWith_spec s p : startsWith s p = true ↔ ∃ rest, s = p ++ rest.
Proof.
  revert s. induction p as [|a p IH]; intros s; simpl.
  { split; [by exists s | done]. }
  destruct s as [|b s]; [split; [done | by intros [? ?]]|].
  rewrite andb_true_iff, N.eqb_eq, IH. split.
  - intros [-> [rest ->]]. by exists rest.
  - intros [rest [= -> ->]]. split; [done | by exists rest].
Qed.

Lemma includes_spec s p :
  includes s p = true ↔ ∃ before after, s = before ++ p ++ after.
Proof.
  induction s as [|c s IH]; simpl.
  - rewrite orb_false_r, startsWith_spec. split.
    + intros [rest H]. by exists [], rest.
    + intros (b & a & H). destruct b; [by exists a|done].
  - rewrite orb_true_iff, startsWith_spec, IH. split.
    + intros [[rest H]|(b & a & ->)]; [by exists [], rest|].
      by exists (c :: b), a.
    + intros ([|d b] & a & H); [left; by exists a|].
      injection H as -> ->. right. by exists b, a.
Qed.

Lemma includes_prefix s p q : includes s (p ++ q) = true → includes s p = true.
Proof.
  rewrite !includes_spec. intros (b & a & ->). exists b, (q ++ a).
  by rewrite <- app_assoc.
Qed.

(** A literal matches exactly where the input starts with it. *)
Lemma m_Lit s k : s ≠ [] → ∀ st,
  m (Lit s) k st
  = if startsWith (post st) s
    then k (MState (rev s ++ pre st) (drop (length s) (post st)) (caps st))
    else None.
Proof.
  induction s as [|a s IH]; intros Hne st; [done|].
  destruct s as [|a' s].
  - cbn [Lit m]. destruct st as [b [|c r] cs]; cbn [post pre caps]; [done|].
    cbn [startsWith]. unfold one. rewrite andb_true_r.
    destruct (N.eqb_spec a c) as [->|_]; [|done]. done.
  - change (Lit (a :: a' :: s)) with (Seq (Chr (one a)) (Lit (a' :: s))).
    cbn [m]. destruct st as [b [|c r] cs]; cbn [post pre caps]; [done|].
    change (startsWith (c :: r) (a :: a' :: s))
      with ((a =? c) && startsWith r (a' :: s)).
    unfold one. destruct (N.eqb_spec a c) as [->|_]; [|done].
    rewrite IH by done. cbn [post pre caps andb].
    destruct (startsWith r (a' :: s)); [|done].
    f_equal. f_equal. cbn [rev]. by rewrite <- !app_assoc.
Qed.

Lemma exec_at_Lit s b a :
  s ≠ [] → is_Some (exec_at (Lit s) b a) ↔ startsWith a s = true.
Proof.
  intros Hne. unfold exec_at. rewrite m_Lit by done. cbn [post].
  destruct (startsWith a s).
  - split; [done|]. intros _. by eexists.
  - split; [by intros [? [=]] | done].
Qed.

Lemma search_Some_iff r b a :
  is_Some (search r b a) ↔
  ∃ w rest, a = w ++ rest ∧ is_Some (exec_at r (rev w ++ b) rest).
Proof.
  revert b. induction a as [|c a IH]; intros b; simpl.
  - destruct (exec_at r b []) eqn:He.
    + split; [|done]. intros _. exists [], []. split; [done|].
      cbn [rev app]. by rewrite He.
    + split; [by intros [? [=]]|]. intros ([|] & rest & H & Hs); [|done].
      destruct rest; [|done]. cbn [rev app] in Hs. rewrite He in Hs.
      by destruct Hs.
  - destruct (exec_at r b (c :: a)) eqn:He.
    + split; [|done]. intros _. exists [], (c :: a). split; [done|].
      cbn [rev app]. by rewrite He.
    + rewrite IH. split.
      * intros (w & rest & -> & Hs). exists (c :: w), rest. split; [done|].
        cbn [rev]. by rewrite <- app_assoc.
      * intros ([|d w] & rest & H & Hs).
        { cbn [rev app] in *. subst rest. rewrite He in Hs. by destruct Hs. }
        injection H as -> ->. exists w, rest. split; [done|].
        cbn [rev] in Hs. by rewrite <- app_assoc in Hs.
Qed.

(** So [test] on a literal is [includes]. *)
Lemma test_Lit s x : s ≠ [] → test (Lit s) x = includes x s.
Proof.
  intros Hne. apply eq_true_iff_eq. rewrite includes_spec. unfold test.
  transitivity (is_Some (search (Lit s) [] x)).
  { destruct (search (Lit s) [] x).
    - split; [by eexists | done].
    - split; [done | by intros [? [=]]]. }
  rewrite search_Some_iff. split.
  - intros (w & rest & -> & Hs). apply exec_at_Lit in Hs; [|done].
    apply startsWith_spec in Hs as [after ->]. by exists w, after.
  - intros (before & after & ->). exists before, (s ++ after). split; [done|].
    apply exec_at_Lit; [done|]. apply startsWith_spec. by exists after.
Qed.

Lemma exec_at_Alt r1 r2 b a :
  is_Some (exec_at (Alt r1 r2) b a)
  ↔ is_Some (exec_at r1 b a) ∨ is_Some (exec_at r2 b a).
Proof.
  unfold exec_at. cbn [m].
  destruct (m r1 Some _); [split; [by left | done]|].
  destruct (m r2 Some _); [split; [by right | done]|].
  split; [by intros [? [=]] | by intros [[? [=]]|[? [=]]]].
Qed.

(** [test] on an alternative is the disjunction of the tests. *)
Lemma test_Alt r1 r2 x : test (Alt r1 r2) x = test r1 x || test r2 x.
Proof.
  apply eq_true_iff_eq. rewrite orb_true_iff. unfold test.
  assert (Hs : ∀ r, match search r [] x with Some _ => true | None => false end
                    = true ↔ is_Some (search r [] x)).
  { intros r. destruct (search r [] x).
    - split; [by eexists | done].
    - split; [done | by intros [? [=]]]. }
  rewrite !Hs, !search_Some_iff. split.
  - intros (w & rest & -> & [H|H]%exec_at_Alt); [left|right]; by exists w, rest.
  - intros [(w & rest & -> & H)|(w & rest & -> & H)]; exists w, rest;
      (split; [done|]); apply exec_at_Alt; [by left | by right].
Qed.

Lemma exec_at_Seq_Lit s r b a :
  s ≠ [] → startsWith a s = false → exec_at (Seq (Lit s) r) b a = None.
Proof.
  intros Hne Hs. unfold exec_at. cbn [m]. rewrite m_Lit by done.
  cbn [post]. by rewrite Hs.
Qed.

Lemma m_Seq r1 r2 k st : m (Seq r1 r2) k st = m r1 (m r2 k) st.
Proof. reflexivity. Qed.

Lemma m_Star g r k st :
  m (Star g r) k st
  = star_loop (fun k' st' => m r k' (clear_caps (groups r) st')) g k
      (length (post st)) st.
Proof. reflexivity. Qed.

Lemma exec_at_Alt_None r1 r2 b a :
  exec_at r1 b a = None → exec_at (Alt r1 r2) b a = exec_at r2 b a.
Proof.
  unfold exec_at. cbn [m]. by destruct (m r1 Some _).
Qed.

Lemma exec_at_Alt_Some r1 r2 b a x :
  exec_at r1 b a = Some x → exec_at (Alt r1 r2) b a = Some x.
Proof.
  unfold exec_at. cbn [m]. by destruct (m r1 Some _).
Qed.

Lemma search_None r : ∀ b s,
  (∀ b' s', s' `suffix_of` s → exec_at r b' s' = None) → search r b s = None.
Proof.
  intros b s. revert b. induction s as [|c s IH]; intros b H; cbn [search].
  - by rewrite H.
  - rewrite H by done. apply IH. intros b' s' Hs. apply H.
    by apply suffix_cons_r.
Qed.

(** A search passes over the positions at which the pattern fails. *)
Lemma search_skip r w : ∀ b s,
  (∀ w1 c w2, w = w1 ++ c :: w2 →
     exec_at r (rev w1 ++ b) (c :: w2 ++ s) = None) →
  search r b (w ++ s) = search r (rev w ++ b) s.
Proof.
  induction w as [|c w IH]; intros b s Hw; [done|].
  cbn [app search]. pose proof (Hw [] c w eq_refl) as H0.
  cbn [rev app] in H0. rewrite H0, IH.
  - cbn [rev]. by rewrite <- app_assoc.
  - intros w1 d w2 ->. specialize (Hw (c :: w1) d w2 eq_refl).
    cbn [rev] in Hw. by rewrite <- app_assoc in Hw.
Qed.

End RegExpProps.


(** ** More on the context resolver *)

Module ContextResolverProps.
Import RegExp RegExpFacts ContextResolver ContextResolverFacts ContextNotions.
Import Analyze.

Lemma slice0_length n s : (N.of_nat (length (slice0 n s)) ≤ n)%N.
Proof.
  revert n. induction s as [|c s IH]; intros n; simpl; [lia|].
  destruct (N.eqb_spec n 0) as [->|Hn]; simpl; [lia|].
  specialize (IH (N.pred n)). lia.
Qed.

Lemma slice0_prefix n s : slice0 n s `prefix_of` s.
Proof.
  revert n. induction s as [|c s IH]; intros n; simpl; [done|].
  destruct (n =? 0); [apply prefix_nil | by apply prefix_cons].
Qed.

Lemma uniq_spec seen l :
  NoDup (uniq seen l) ∧
  ∀ x, x ∈ uniq seen l ↔ x ∈ l ∧ x ∉ seen.
Proof.
  revert seen. induction l as [|y l IH]; intros seen; simpl.
  { split; [constructor|]. set_solver. }
  destruct (existsb (streq y) seen) eqn:Hy.
  - apply existsb_exists in Hy as (z & Hz%list_elem_of_In & Hyz).
    unfold streq in Hyz. apply bool_decide_eq_true in Hyz as ->.
    destruct (IH seen) as [Hnd Hin]. split; [done|].
    intros x. rewrite Hin. set_solver.
  - assert (Hnot : y ∉ seen).
    { intros Hin%list_elem_of_In.
      assert (existsb (streq y) seen = true); [|congruence].
      apply existsb_exists. exists y. split; [done|].
      unfold streq. by apply bool_decide_eq_true. }
    destruct (IH (y :: seen)) as [Hnd Hin]. split.
    + constructor; [|done]. rewrite Hin. set_solver.
    + intros x. rewrite elem_of_cons, Hin. rewrite !elem_of_cons.
      destruct (decide (x = y)) as [->|Hne]; [tauto|]. tauto.
Qed.

Lemma found_of_truthy xs : Forall (fun t => t ≠ []) (found_of xs).
Proof.
  induction xs as [|x xs IH]; simpl; [constructor|].
  unfold found_of in *. simpl.
  destruct (group x 1) as [s|]; simpl; [|done].
  destruct s; simpl; [done|]. by constructor.
Qed.

Lemma collect_truthy rs src found :
  collect rs src = Some found → Forall (fun t => t ≠ []) found.
Proof.
  revert found. induction rs as [|rx rs IH]; intros found; cbn [collect].
  { intros [= <-]. constructor. }
  destruct (exec_loop _ rx [] src) as [xs|]; [|done].
  destruct (collect rs src) as [f|]; [|done].
  intros [= <-]. apply Forall_app. split; [apply found_of_truthy | by apply IH].
Qed.

(** X1. The parser of imports always returns: no pattern of its bank matches
    the empty string, so no [exec] loop runs for ever. It returns each
    token once, and never an empty token. *)
Theorem imports_distinct src :
  ∃ imports,
    parseRelativeImports src = Some imports ∧
    NoDup imports ∧ Forall (fun t => t ≠ []) imports.
Proof.
  unfold parseRelativeImports.
  destruct (collect_total regexes src) as [found Hf]; [reflexivity|].
  rewrite Hf. exists (uniq [] found).
  destruct (uniq_spec [] found) as [Hnd Hin]. repeat split; [done|].
  apply collect_truthy in Hf. rewrite Forall_forall in *.
  intros x Hx. apply Hf. apply Hin in Hx. tauto.
Qed.

Section resolver.
Context (E : Env).

Local Abbreviation resolveImportPath := (resolveImportPath E).
Local Abbreviation expand_item := (expand_item E).
Local Abbreviation expand_loop := (expand_loop E).
Local Abbreviation expandContextByImports := (expandContextByImports E).
Local Abbreviation pickContextFiles := (pickContextFiles E).
Local Abbreviation read_all := (read_all E).

Local Abbreviation readable := (readable E).
Local Abbreviation from_disk := (from_disk E).
Local Abbreviation imports_path := (imports_path E).
Local Abbreviation closed_at := (closed_at E).
Local Abbreviation justified := (justified E).

Lemma read_all_paths files :
  path <$> read_all files = List.filter readable files.
Proof.
  induction files as [|f files IH]; [done|].
  cbn [ContextResolver.read_all List.filter]. unfold readable at 1.
  destruct (readFileSync E f); [|done].
  rewrite fmap_cons. cbn [path]. by rewrite IH.
Qed.

Lemma List_filter_sublist {A} (f : A → bool) l : List.filter f l `sublist_of` l.
Proof.
  induction l as [|x l IH]; simpl; [done|].
  destruct (f x); [by apply sublist_skip | by apply sublist_cons].
Qed.

Lemma read_all_from_disk files : Forall from_disk (read_all files).
Proof.
  induction files as [|f files IH]; simpl; [constructor|].
  destruct (readFileSync E f) as [c|] eqn:Hc; [|done].
  constructor; [|done]. by exists c.
Qed.


(** X2. [pickContextFiles] reads the first [limit] files in their order and
    keeps those it can read: it returns at most [limit] entries, each with
    the text on disk cut at 20000 code units. *)
Theorem pick_reads_first files limit :
  (0 ≤ limit)%Z →
  path <$> pickContextFiles files limit
    = List.filter readable (take (Z.to_nat limit) files) ∧
  (length (pickContextFiles files limit) ≤ Z.to_nat limit)%nat ∧
  Forall (fun f => from_disk f ∧ (N.of_nat (length (content f)) ≤ 20000)%N)
    (pickContextFiles files limit).
Proof.
  intros Hl. unfold ContextResolver.pickContextFiles, slice_limit.
  destruct (Z.ltb_spec limit 0) as [?|_]; [lia|].
  split; [apply read_all_paths|]. split.
  - rewrite <- (length_fmap path), read_all_paths.
    etrans; [apply List.filter_length_le|]. rewrite length_take. lia.
  - eapply Forall_impl; [apply read_all_from_disk|].
    intros f Hf. split; [done|]. destruct Hf as (c & _ & ->).
    apply slice0_length.
Qed.

Lemma expand_item_more maxFiles from imports st :
  ∃ new,
    out (expand_item maxFiles from imports st) = out st ++ new ∧
    queue (expand_item maxFiles from imports st) = queue st ++ new ∧
    seen st ⊆ seen (expand_item maxFiles from imports st) ∧
    Forall (fun f => truthy (path f) = true ∧ from_disk f ∧
                     ∃ imp, imp ∈ imports ∧
                            resolveImportPath from imp = Some (path f)) new ∧
    ((Z.of_nat (length (out (expand_item maxFiles from imports st)))
        < maxFiles)%Z →
     ∀ imp p, imp ∈ imports → resolveImportPath from imp = Some p →
       truthy p = true → readable p = true →
       p ∈ seen (expand_item maxFiles from imports st)).
Proof.
  revert st. induction imports as [|imp rest IH]; intros st.
  { exists []. rewrite !app_nil_r. repeat split; [done|constructor|].
    intros _ imp p Himp. by apply elem_of_nil in Himp. }
  cbn [ContextResolver.expand_item].
  assert (Hskip : ∀ P : Prop,
    (∀ p, resolveImportPath from imp = Some p → truthy p = true →
          readable p = true → p ∈ seen st) →
    ∃ new,
      out (expand_item maxFiles from rest st) = out st ++ new ∧
      queue (expand_item maxFiles from rest st) = queue st ++ new ∧
      seen st ⊆ seen (expand_item maxFiles from rest st) ∧
      Forall (fun f => truthy (path f) = true ∧ from_disk f ∧
                ∃ imp0, imp0 ∈ imp :: rest ∧
                        resolveImportPath from imp0 = Some (path f)) new ∧
      ((Z.of_nat (length (out (expand_item maxFiles from rest st)))
          < maxFiles)%Z →
       ∀ imp0 p, imp0 ∈ imp :: rest → resolveImportPath from imp0 = Some p →
         truthy p = true → readable p = true →
         p ∈ seen (expand_item maxFiles from rest st))).
  { intros _ Hhead.
    destruct (IH st) as (new & Hout & Hq & Hsub & Hnew & Hclosed).
    exists new. repeat split; [done..| |].
    - eapply Forall_impl; [exact Hnew|]. intros f (? & ? & imp0 & ? & ?).
      repeat split; [done..|]. exists imp0. split; [by right | done].
    - intros Hlen imp0 p [->|Hin]%elem_of_cons Hres Ht Hr.
      + apply Hsub. by apply Hhead.
      + by eapply Hclosed. }
  destruct (resolveImportPath from imp) as [resolved|] eqn:Hres.
  2: { apply (Hskip True). intros p [=]. }
  destruct (truthy resolved) eqn:Ht; cbn [negb].
  2: { apply (Hskip True). intros p [= <-]. congruence. }
  case_bool_decide as Hseen.
  { apply (Hskip True). by intros p [= <-]. }
  destruct (readFileSync E resolved) as [c|] eqn:Hc.
  2: { apply (Hskip True). intros p [= <-] _. unfold ContextNotions.readable.
       by rewrite Hc. }
  set (entry := {| path := resolved; content := slice0 20000 c |}).
  set (st' := XState (out st ++ [entry]) ({[resolved]} ∪ seen st)
                (queue st ++ [entry])).
  assert (Hentry : truthy (path entry) = true ∧ from_disk entry ∧
            ∃ imp0, imp0 ∈ imp :: rest ∧
                    resolveImportPath from imp0 = Some (path entry)).
  { repeat split; [done | by exists c |]. exists imp. split; [by left | done]. }
  destruct (Z.geb_spec (Z.of_nat (length (out st'))) maxFiles) as [Hge|Hlt].
  - exists [entry]. repeat split; [set_solver | by constructor |].
    intros Hlen. lia.
  - destruct (IH st') as (new & Hout & Hq & Hsub & Hnew & Hclosed).
    exists (entry :: new). rewrite Hout, Hq. subst st'. cbn [out queue seen] in *.
    rewrite <- !app_assoc. repeat split; [set_solver| |].
    + constructor; [done|]. eapply Forall_impl; [exact Hnew|].
      intros f (? & ? & imp0 & ? & ?). repeat split; [done..|].
      exists imp0. split; [by right | done].
    + intros Hlen imp0 p [->|Hin]%elem_of_cons Hres' Ht' Hr'.
      * apply Hsub. rewrite Hres in Hres'. injection Hres' as <-. set_solver.
      * eapply Hclosed; [|done..]. by rewrite Hout, <- app_assoc.
Qed.

Lemma expand_loop_prefix maxFiles fuel : ∀ st res,
  expand_loop fuel maxFiles st = Some res → out st `prefix_of` res.
Proof.
  induction fuel as [|fuel IH]; intros st res; [done|]. simpl.
  destruct (queue st) as [|item queue'] eqn:Hq; [by intros [= <-]|].
  destruct (Z.ltb_spec (Z.of_nat (length (out st))) maxFiles) as [Hlt|Hge];
    [|by intros [= <-]].
  destruct (parseRelativeImports (content item)) as [imports|]; [|done].
  intros H%IH.
  destruct (expand_item_spec E maxFiles (path item) imports
              (XState (out st) (seen st) queue')) as (new & Hout & _).
  rewrite Hout in H. etrans; [|exact H]. by apply prefix_app_r.
Qed.

Lemma justified_mono seed res res' f :
  (∀ g, g ∈ res → g ∈ res') → justified seed res f → justified seed res' f.
Proof.
  intros Hsub [Hs|(Ht & Hd & g & Hg & Hi)]; [by left|].
  right. repeat split; [done..|]. exists g. split; [by apply Hsub | done].
Qed.

Lemma expand_loop_justified seed maxFiles fuel : ∀ st res,
  expand_loop fuel maxFiles st = Some res →
  (∀ f, f ∈ queue st → f ∈ out st) →
  Forall (justified seed (out st)) (out st) →
  Forall (justified seed res) res.
Proof.
  induction fuel as [|fuel IH]; intros st res; [done|]. simpl.
  destruct (queue st) as [|item queue'] eqn:Hq; [by intros [= <-]|].
  destruct (Z.ltb_spec (Z.of_nat (length (out st))) maxFiles) as [Hlt|Hge];
    [|by intros [= <-]].
  destruct (parseRelativeImports (content item)) as [imports|] eqn:Himp;
    [|done].
  intros Hres Hqueue Hout. apply (IH _ _ Hres); clear IH Hres.
  - destruct (expand_item_more maxFiles (path item) imports
                (XState (out st) (seen st) queue'))
      as (new & Ho & Hq' & _). rewrite Ho, Hq'. cbn [out queue].
    intros f [Hf|Hf]%elem_of_app; apply elem_of_app; [left|by right].
    apply Hqueue. by right.
  - destruct (expand_item_more maxFiles (path item) imports
                (XState (out st) (seen st) queue'))
      as (new & Ho & _ & _ & Hnew & _). rewrite Ho. cbn [out].
    apply Forall_app. split.
    + eapply Forall_impl; [exact Hout|]. intros f. apply justified_mono.
      intros g Hg. apply elem_of_app. by left.
    + eapply Forall_impl; [exact Hnew|]. intros f (Ht & Hd & imp & Hin & Hr).
      right. repeat split; [done..|]. exists item. split.
      * apply elem_of_app. left. apply Hqueue. by left.
      * by exists imports, imp.
Qed.

Lemma closed_at_mono S S' f : S ⊆ S' → closed_at S f → closed_at S' f.
Proof. intros Hsub Hc p Hi Ht Hr. apply Hsub. by apply Hc. Qed.

Lemma expand_loop_closed maxFiles fuel : ∀ st res,
  expand_loop fuel maxFiles st = Some res →
  (Z.of_nat (length res) < maxFiles)%Z →
  seen_ok st →
  (∀ f, f ∈ out st → f ∈ queue st ∨ closed_at (seen st) f) →
  Forall (closed_at (list_to_set (path <$> res))) res.
Proof.
  induction fuel as [|fuel IH]; intros st res; [done|]. simpl.
  destruct (queue st) as [|item queue'] eqn:Hq.
  { intros [= <-] _ Hok Hinv. apply Forall_forall. intros f Hf.
    destruct (Hinv f Hf) as [Hin|Hc]; [by apply elem_of_nil in Hin|].
    by rewrite <- Hok. }
  destruct (Z.ltb_spec (Z.of_nat (length (out st))) maxFiles) as [Hlt|Hge].
  2: { intros [= <-]. lia. }
  destruct (parseRelativeImports (content item)) as [imports|] eqn:Himp;
    [|done].
  intros Hres Hlen Hok Hinv.
  set (st0 := XState (out st) (seen st) queue') in *.
  pose proof (expand_loop_prefix _ _ _ _ Hres) as Hpre.
  destruct (expand_item_spec E maxFiles (path item) imports st0)
    as (new & Hout & Hq' & Hseen & _).
  destruct (expand_item_more maxFiles (path item) imports st0)
    as (new' & Hout' & _ & Hsub & _ & Hclosed).
  apply (IH _ _ Hres Hlen); clear IH Hres.
  - unfold seen_ok. rewrite Hseen, Hout, fmap_app, list_to_set_app_L.
    cbn [out seen st0]. rewrite Hok. set_solver.
  - assert (Hshort : (Z.of_nat (length (out (expand_item maxFiles (path item)
                                               imports st0))) < maxFiles)%Z).
    { apply prefix_length in Hpre. lia. }
    specialize (Hclosed Hshort). intros f Hf. rewrite Hout in Hf. rewrite Hq'.
    cbn [out queue st0] in *. apply elem_of_app in Hf as [Hf|Hf].
    2: { left. apply elem_of_app. by right. }
    destruct (Hinv f Hf) as [[->|Hin]%elem_of_cons|Hc].
    + right. intros p (imports' & imp & Hi & Him & Hr) Ht Hrd.
      rewrite Himp in Hi. injection Hi as <-. by eapply Hclosed.
    + left. apply elem_of_app. by left.
    + right. by eapply closed_at_mono.
Qed.

(** X3. Where the entries of an expansion come from: every entry is a seed
    entry, or has a non-empty path that an entry of the result imports and
    holds the text read from disk at that path, cut at 20000 code units. A
    path that cannot be read is never added. *)
Theorem expansion_justified seed maxFiles :
  ∃ res,
    expandContextByImports seed maxFiles = Some res ∧
    Forall (justified seed res) res.
Proof.
  destruct (expandContextByImports_spec E seed maxFiles) as (res & Hres & _).
  exists res. split; [done|].
  apply (expand_loop_justified seed _ _ _ _ Hres); [done|].
  apply Forall_forall. intros f Hf. by left.
Qed.

(** X4. When the expansion ends below its budget, it is closed under imports:
    every readable file that an entry of the result imports has its path
    in the result. *)
Theorem expansion_closed seed maxFiles :
  ∃ res,
    expandContextByImports seed maxFiles = Some res ∧
    ((Z.of_nat (length res) < maxFiles)%Z →
     ∀ g p, g ∈ res → imports_path g p → truthy p = true →
       readable p = true → p ∈ path <$> res).
Proof.
  destruct (expandContextByImports_spec E seed maxFiles) as (res & Hres & _).
  exists res. split; [done|]. intros Hlen g p Hg Hi Ht Hr.
  assert (Hc : Forall (closed_at (list_to_set (path <$> res))) res).
  { apply (expand_loop_closed _ _ _ _ Hres Hlen); [done|].
    intros f Hf. by left. }
  rewrite Forall_forall in Hc.
  pose proof (Hc g Hg p Hi Ht Hr) as Hp.
  by apply elem_of_list_to_set in Hp.
Qed.

(** X5. The context of a run: with a base limit that is not negative, it has
    at most as many files as the larger of the two limits; every entry
    holds the text on disk at its path, cut at 20000 code units; and no
    path comes twice when the list of files names none twice. *)
Theorem run_context_within_limits filtered baseLimit importExpansionLimit :
  (0 ≤ baseLimit)%Z →
  ∃ res,
    contextFiles E filtered baseLimit importExpansionLimit = Some res ∧
    (Z.of_nat (length res) ≤ Z.max baseLimit importExpansionLimit)%Z ∧
    Forall from_disk res ∧
    (NoDup filtered → NoDup (path <$> res)).
Proof.
  intros Hbase. unfold contextFiles.
  set (seed := ContextResolver.pickContextFiles E filtered baseLimit).
  assert (Hpaths : path <$> seed
                   = List.filter readable (take (Z.to_nat baseLimit) filtered)).
  { unfold seed, ContextResolver.pickContextFiles, slice_limit.
    destruct (Z.ltb_spec baseLimit 0) as [?|_]; [lia|]. apply read_all_paths. }
  assert (Hlen : (length seed ≤ Z.to_nat baseLimit)%nat).
  { rewrite <- (length_fmap path), Hpaths.
    etrans; [apply List.filter_length_le|]. rewrite length_take. lia. }
  destruct (expandContextByImports_spec E seed importExpansionLimit)
    as (res & Hres & _ & Hbound & Hdup).
  exists res. split; [done|]. split; [lia|]. split.
  - pose proof (expand_loop_justified seed _ _ _ _ Hres) as Hj.
    eapply Forall_impl; [apply Hj|].
    + done.
    + apply Forall_forall. intros f Hf. by left.
    + intros f [Hf|(_ & Hd & _)]; [|done].
      pose proof (read_all_from_disk (slice_limit filtered baseLimit)) as Hs.
      rewrite Forall_forall in Hs. by apply Hs.
  - intros Hnd. apply Hdup. rewrite Hpaths.
    eapply sublist_NoDup; [|apply List_filter_sublist].
    eapply sublist_NoDup; [exact Hnd | apply sublist_take].
Qed.

End resolver.

Lemma run_context_witness :
  ∃ res,
    contextFiles demo_env [lit "a.ts"] 10 20 = Some res ∧
    (Z.of_nat (length res) ≤ 20)%Z.
Proof.
  destruct (run_context_within_limits demo_env [lit "a.ts"] 10 20)
    as (res & Hres & Hlen & _); [lia|].
  exists res. split; [exact Hres | exact Hlen].
Defined.

Lemma pick_reads_first_witness :
  path <$> pickContextFiles demo_env [lit "a.ts"; lit "none.ts"; lit "b.ts"] 2
  = [lit "a.ts"].
Proof.
  destruct (pick_reads_first demo_env
              [lit "a.ts"; lit "none.ts"; lit "b.ts"] 2) as [H _]; [lia|].
  rewrite H. vm_compute. reflexivity.
Defined.

Lemma expansion_closed_witness :
  ∃ res,
    expandContextByImports demo_env [file_a] 5 = Some res ∧
    lit "b.ts" ∈ path <$> res.
Proof.
  destruct (expansion_closed demo_env [file_a] 5) as (res & Hres & Hc).
  exists res. split; [exact Hres|].
  assert (Hr : res = [file_a; file_b]).
  { vm_compute in Hres. by injection Hres as <-. }
  apply (Hc ltac:(rewrite Hr; simpl; lia) file_a).
  - rewrite Hr. by left.
  - eexists _, (lit "./b"). split; [vm_compute; reflexivity|].
    split; [by left | vm_compute; reflexivity].
  - reflexivity.
  - vm_compute. reflexivity.
Defined.

End ContextResolverProps.


Module GroqProps.
Import RegExp RegExpFacts RegExpProps Json Groq GroqFacts GroqNotions.

(** *** [trim] *)

Lemma trimStart_idem s : trimStart (trimStart s) = trimStart s.
Proof.
  induction s as [|c s IH]; simpl; [done|].
  destruct (is_space c) eqn:Hc; [done|]. simpl. by rewrite Hc.
Qed.

Lemma trimStart_suffix s : ∃ w, s = w ++ trimStart s ∧ forallb is_space w = true.
Proof.
  induction s as [|c s IH]; simpl; [by exists []|].
  destruct (is_space c) eqn:Hc; [|by exists []].
  destruct IH as (w & Hw & Hs). exists (c :: w). simpl. rewrite Hc, Hs.
  split; [by rewrite Hw at 1 | done].
Qed.

(** What [trimStart] leaves starts with a character that is not white
    space. *)
Lemma trimStart_head s c r : trimStart s = c :: r → is_space c = false.
Proof.
  induction s as [|d s IH]; simpl; [done|].
  destruct (is_space d) eqn:Hd; [done|]. by intros [= <- <-].
Qed.

Lemma trimStart_id s :
  match s with c :: _ => is_space c = false | [] => True end →
  trimStart s = s.
Proof. destruct s as [|c s]; simpl; [done|]. by intros ->. Qed.

(** Trimming the end keeps the first character. *)
Lemma trimEnd_head c r :
  is_space c = false →
  ∃ r', rev (trimStart (rev (c :: r))) = c :: r'.
Proof.
  intros Hc. destruct (trimStart_suffix (rev (c :: r))) as (w & Hw & Hs).
  destruct (trimStart (rev (c :: r))) as [|d t] eqn:Ht.
  - rewrite app_nil_r in Hw. assert (Hin : In c w).
    { rewrite <- Hw. apply in_rev. rewrite rev_involutive. by left. }
    rewrite forallb_forall in Hs. apply Hs in Hin. congruence.
  - assert (Hrev : c :: r = rev (d :: t) ++ rev w).
    { rewrite <- rev_app_distr, <- Hw. by rewrite rev_involutive. }
    destruct (rev (d :: t)) as [|e t'] eqn:He.
    + apply (f_equal (@length N)) in He. rewrite length_rev in He. done.
    + injection Hrev as <- _. by exists t'.
Qed.

Lemma trim_idem s : trim (trim s) = trim s.
Proof.
  unfold trim. destruct (trimStart s) as [|c r] eqn:Hs; [done|].
  pose proof (trimStart_head _ _ _ Hs) as Hc.
  destruct (trimEnd_head c r Hc) as (r' & Hr). rewrite Hr.
  rewrite (trimStart_id (c :: r')) by done. rewrite <- Hr.
  by rewrite rev_involutive, trimStart_idem.
Qed.

(** *** The rules of the scanner *)

(** The issues of one line that state the problem [p]: the other rules
    drop out. *)
Ltac stating_rule p :=
  unfold line_issues; rewrite !stating_app, !stating_when;
  unfold found at 1 2 3 4 5 6 7 8 9 10; cbn [problem];
  repeat match goal with
  | |- context [streq (lit ?q) p] =>
      let b := eval vm_compute in (streq (lit q) p) in
      change (streq (lit q) p) with b
  end;
  rewrite !andb_false_r, ?andb_true_r; cbn [app]; rewrite ?app_nil_r.

Lemma guard_Lit added p q :
  q ≠ [] → includes added p && test (Lit (p ++ q)) added = includes added (p ++ q).
Proof.
  intros Hq. rewrite test_Lit by (by destruct p).
  destruct (includes added (p ++ q)) eqn:H; [|apply andb_false_r].
  by rewrite (includes_prefix _ _ _ H).
Qed.

(** X6. The rules for [eval(], [addEventListener(] and [setInterval(] fire on
    exactly the added lines that contain that text, once each. *)
Theorem literal_rules currentFile lineNumber added :
  stating unsafe_eval (line_issues currentFile lineNumber added)
  = when (includes added (lit "eval("))
      (found "Security: eval() executes arbitrary code"
         "Use JSON.parse() or safer alternatives" "critical"
         currentFile lineNumber added) ∧
  stating listener_leak (line_issues currentFile lineNumber added)
  = when (includes added (lit "addEventListener("))
      (found "Memory leak: addEventListener without cleanup"
         "Remove listener in cleanup function" "warning"
         currentFile lineNumber added) ∧
  stating interval_leak (line_issues currentFile lineNumber added)
  = when (includes added (lit "setInterval("))
      (found "Memory leak: setInterval without clearInterval"
         "Call clearInterval in cleanup" "warning"
         currentFile lineNumber added).
Proof.
  split; [|split].
  - stating_rule unsafe_eval.
    change eval with (Lit (lit "eval" ++ lit "(")). by rewrite guard_Lit.
  - stating_rule listener_leak.
    change addEventListener with (Lit (lit "addEventListener" ++ lit "(")).
    by rewrite guard_Lit.
  - stating_rule interval_leak.
    change setInterval with (Lit (lit "setInterval" ++ lit "(")).
    by rewrite guard_Lit.
Qed.

Lemma test_sanitize added :
  test sanitize added
  = includes added (lit "DOMPurify") || includes added (lit "sanitize").
Proof. unfold sanitize. by rewrite test_Alt, !test_Lit. Qed.

(** X7. A line that mentions [DOMPurify] or [sanitize] anywhere is never
    reported for [innerHTML], and a line that contains [catch(] is never
    reported for an unhandled promise. *)
Theorem mentions_suppress currentFile lineNumber added :
  (includes added (lit "DOMPurify") = true ∨
   includes added (lit "sanitize") = true →
   stating xss_inner_html (line_issues currentFile lineNumber added) = []) ∧
  (includes added (lit "catch(") = true →
   stating unhandled_promise (line_issues currentFile lineNumber added) = []).
Proof.
  split.
  - intros H. stating_rule xss_inner_html. rewrite test_sanitize.
    destruct H as [-> | ->]; by rewrite ?orb_true_r, andb_false_r.
  - intros H. stating_rule unhandled_promise.
    unfold catchHandler. rewrite test_Lit, H by done. by rewrite andb_false_r.
Qed.

(** X8. An assignment to [innerHTML] on a line that mentions neither
    [DOMPurify] nor [sanitize] is reported once, as critical. *)
Theorem inner_html_flagged currentFile lineNumber before ws after :
  Forall (fun c => is_space c = true) ws →
  includes (before ++ lit "innerHTML" ++ ws ++ lit "=" ++ after)
    (lit "DOMPurify") = false →
  includes (before ++ lit "innerHTML" ++ ws ++ lit "=" ++ after)
    (lit "sanitize") = false →
  stating xss_inner_html
    (line_issues currentFile lineNumber
       (before ++ lit "innerHTML" ++ ws ++ lit "=" ++ after))
  = [found "XSS vulnerability: innerHTML without sanitization"
       "Use textContent or sanitize with DOMPurify" "critical"
       currentFile lineNumber
       (before ++ lit "innerHTML" ++ ws ++ lit "=" ++ after)].
Proof.
  intros Hws Hd Hs. stating_rule xss_inner_html.
  rewrite test_sanitize, Hd, Hs.
  rewrite (includes_middle (lit "innerHTML")) by done.
  replace (lit "innerHTML" ++ ws ++ lit "=" ++ after)
    with ((lit "innerHTML" ++ ws ++ lit "=") ++ after)
    by (by rewrite <- !app_assoc).
  rewrite test_complete; [done|]. unfold innerHTML. cbn [seqs].
  apply M_Seq; [by apply Matches_Lit|].
  apply M_Seq; [by apply Matches_Star_Chr | by apply Matches_Lit].
Qed.

(** X9. An image whose [src] is empty between double quotes is reported
    once; an empty [src] between single quotes never is, although the
    pattern of the rule accepts both quotes: the rule first looks for the
    text [src=] followed by two double quotes. *)
Theorem empty_src_rule currentFile lineNumber added :
  (includes added (lit "src=" ++ [dquote; dquote]) = false →
   stating empty_src (line_issues currentFile lineNumber added) = []) ∧
  ∀ before attrs after,
    added = before ++ lit "<img" ++ attrs ++ lit "src="
                   ++ dquote :: dquote :: after →
    attrs ≠ [] → Forall (fun c => c ≠ 62) attrs →
    stating empty_src (line_issues currentFile lineNumber added)
    = [found "Empty img src causes 404 errors"
         "Provide valid src or remove tag" "critical"
         currentFile lineNumber added].
Proof.
  split.
  - intros H. stating_rule empty_src. by rewrite H, andb_false_r.
  - intros before attrs after -> Hne Hattrs. stating_rule empty_src.
    rewrite (includes_middle (lit "<img")) by done.
    assert (H1 : includes (before ++ lit "<img" ++ attrs ++ lit "src="
                             ++ dquote :: dquote :: after)
                   (lit "src=" ++ [dquote; dquote]) = true).
    { apply includes_spec. exists (before ++ lit "<img" ++ attrs), after.
      by rewrite <- !app_assoc. }
    rewrite H1.
    replace (before ++ lit "<img" ++ attrs ++ lit "src="
               ++ dquote :: dquote :: after)
      with (before ++ (lit "<img" ++ attrs ++ lit "src" ++ [] ++ lit "=" ++ []
                         ++ [dquote] ++ [] ++ [dquote]) ++ after)
      by (by rewrite <- !app_assoc).
    rewrite test_complete; [done|]. unfold emptySrc. cbn [seqs].
    apply M_Seq; [by apply Matches_Lit|].
    apply M_Seq.
    { apply Matches_Plus_Chr; [done|]. eapply Forall_impl; [exact Hattrs|].
      intros c Hc. by apply noneof_gt. }
    apply M_Seq; [by apply Matches_Lit|].
    apply M_Seq; [by apply Matches_Star_Chr|].
    apply M_Seq; [by apply Matches_Lit|].
    apply M_Seq; [by apply Matches_Star_Chr|].
    apply M_Seq; [by apply M_Chr|].
    apply M_Seq; [by apply Matches_Star_Chr | by apply M_Chr].
Qed.

(** *** What every issue of the scanner looks like *)

Lemma decimal_nonneg s : (0 ≤ decimal s)%Z.
Proof.
  unfold decimal.
  assert (H : ∀ n, (0 ≤ n)%Z → (0 ≤ fold_left
             (fun (n : Z) (c : N) => (10 * n + Z.of_N (c - 48))%Z) s n)%Z).
  { induction s as [|c s IH]; intros n Hn; simpl; [done|].
    apply IH. lia. }
  by apply H.
Qed.

(** Rounding to a double keeps a number at or above a bound the doubles
    hold exactly. *)
Lemma to_number_ge k n :
  (k ≤ 1)%Z → (k ≤ n)%Z → number_le (Fin k) (to_number n).
Proof.
  intros Hk Hn. unfold to_number.
  destruct (Z.ltb_spec n (2 ^ 53)) as [_|Hbig]; [done|].
  set (e := (Z.log2 n - 52)%Z).
  set (q := (n / 2 ^ e)%Z).
  match goal with
  | |- context [if ?b then (q + 1)%Z else q] =>
      set (q' := if b then (q + 1)%Z else q)
  end.
  destruct (q' * 2 ^ e <? 2 ^ 1024)%Z; [|done]. simpl.
  assert (Hpos : (0 < n)%Z) by lia.
  assert (Hlog : (53 ≤ Z.log2 n)%Z) by (by apply Z.log2_le_pow2).
  assert (He : (0 < 2 ^ e)%Z) by (apply Z.pow_pos_nonneg; lia).
  assert (Hle : (2 ^ e ≤ n)%Z).
  { etrans; [|apply Z.log2_spec, Hpos].
    apply Z.pow_le_mono_r; lia. }
  assert (Hq : (1 ≤ q)%Z).
  { apply Z.div_le_lower_bound; lia. }
  assert (Hq' : (q ≤ q')%Z).
  { unfold q'. destruct (orb _ _); lia. }
  nia.
Qed.

Lemma parseInt_nonneg s : number_le 0%Z (parseInt s).
Proof. apply to_number_ge; [lia | apply decimal_nonneg]. Qed.

Lemma increment_positive x : number_le 0%Z x → number_le 1%Z (increment x).
Proof.
  destruct x as [n|]; [|done]. simpl. intros Hn. apply to_number_ge; lia.
Qed.

Lemma number_le_0_1 x : number_le 1%Z x → number_le 0%Z x.
Proof. destruct x; simpl; [lia | done]. Qed.

Lemma found_shape p r sv currentFile lineNumber added :
  number_le 1%Z lineNumber → sv = "critical"%string ∨ sv = "warning"%string →
  scanner_issue (found p r sv currentFile lineNumber added).
Proof.
  intros Hn Hsv. unfold scanner_issue, found. cbn. repeat split.
  - by exists lineNumber.
  - destruct Hsv as [-> | ->]; [by left | by right].
  - exists (trim added). split; [done | apply trim_idem].
Qed.

Lemma line_issues_shape currentFile lineNumber added :
  number_le 1%Z lineNumber →
  Forall scanner_issue (line_issues currentFile lineNumber added).
Proof.
  intros Hn. unfold line_issues.
  repeat (apply Forall_app; split); apply Forall_when, found_shape; auto.
Qed.

(** A line that is not read as added leaves the issues as they are. *)
Lemma scan_line_other st l :
  is_added l = false → results (scan_line st l) = results st.
Proof.
  unfold is_added, scan_line. intros ->.
  destruct (startsWith l (lit "+++ b/")); [done|].
  destruct (startsWith l (lit "@@")); [|done].
  by destruct (match_ hunkStart l).
Qed.

Lemma scan_line_shape st l :
  number_le 0%Z (lineNumber st) → Forall scanner_issue (results st) →
  number_le 0%Z (lineNumber (scan_line st l)) ∧
  Forall scanner_issue (results (scan_line st l)).
Proof.
  intros Hn Hr. unfold scan_line.
  destruct (startsWith l (lit "+++ b/")); [done|].
  destruct (startsWith l (lit "@@")).
  { destruct (match_ hunkStart l); [|done]. split; [apply parseInt_nonneg|done]. }
  destruct (startsWith l (lit "+") && negb (startsWith l (lit "+++"))); [|done].
  cbn [results lineNumber].
  split; [by apply number_le_0_1, increment_positive|].
  apply Forall_app. split; [done|].
  by apply line_issues_shape, increment_positive.
Qed.

Lemma scan_shape ls : ∀ st,
  number_le 0%Z (lineNumber st) → Forall scanner_issue (results st) →
  Forall scanner_issue (results (fold_left scan_line ls st)).
Proof.
  induction ls as [|l ls IH]; intros st Hn Hr; [done|]. simpl.
  destruct (scan_line_shape st l Hn Hr). by apply IH.
Qed.

(** X10. Every issue of the scanner, whatever the diff, carries a line number
    that is at least 1, the severity [critical] or [warning], and a
    snippet without white space at its ends; it has no fixed code. *)
Theorem scanner_issue_shape diff context :
  Forall scanner_issue (heuristicScan diff context).
Proof.
  unfold heuristicScan. apply scan_shape; [simpl; lia | constructor].
Qed.

(** X11. Only added lines are scanned: a diff in which no line starts with a
    single or a double plus sign gives no issue, whatever the removed or
    unchanged lines hold. *)
Theorem no_added_line_no_issue diff context :
  Forall (fun l => is_added l = false) (split LF diff) →
  heuristicScan diff context = [].
Proof.
  unfold heuristicScan.
  assert (H : ∀ ls st, Forall (fun l => is_added l = false) ls →
              results (fold_left scan_line ls st) = results st).
  { induction ls as [|l ls IH]; intros st Hls; [done|]. simpl.
    apply Forall_cons in Hls as [Hl Hls]. rewrite IH by done.
    by apply scan_line_other. }
  intros Hls. by rewrite H.
Qed.

(** *** The answer of the remote analyzer *)

Lemma skip_ws_suffix s : ∃ w, s = w ++ skip_ws s.
Proof.
  induction s as [|c s IH]; simpl; [by exists []|].
  destruct (is_json_ws c); [|by exists []].
  destruct IH as [w Hw]. exists (c :: w). simpl. by rewrite <- Hw.
Qed.

Lemma parse_members_object fuel : ∀ s acc v r,
  parse_members fuel s acc = Ok v r → ∃ ms, v = JObject ms.
Proof.
  induction fuel as [|fuel IH]; intros s acc v r; [done|].
  cbn [parse_members]. destruct (skip_ws s) as [|q r0]; [done|].
  destruct (q =? 34); [|done].
  destruct (parse_chars r0 []) as [[key r1]|]; [|done].
  destruct (skip_ws r1) as [|c r2]; [done|].
  destruct (c =? 58); [|done].
  destruct (parse_value fuel r2) as [| |v0 r3]; [done..|].
  destruct (skip_ws r3) as [|d r4]; [done|].
  destruct (d =? 44); [apply IH|].
  destruct (d =? 125); [|done]. intros [= <- _]. by eexists.
Qed.

(** A text that parses to an array holds an opening bracket. *)
Lemma parse_array_bracket fuel s l r :
  parse_value fuel s = Ok (JArray l) r → 91 ∈ s.
Proof.
  destruct fuel as [|fuel]; [done|]. cbn [parse_value].
  destruct (skip_ws_suffix s) as [w Hw].
  destruct (skip_ws s) as [|c r0]; [done|].
  destruct (N.eqb_spec c 123) as [->|_].
  { destruct (skip_ws r0) as [|c1 r1]; [done|].
    destruct (c1 =? 125); [done|].
    intros H. apply parse_members_object in H as [ms [=]]. }
  destruct (N.eqb_spec c 91) as [->|_].
  { intros _. rewrite Hw. apply elem_of_app. right. by left. }
  destruct (c =? 34).
  { by destruct (parse_chars r0 []) as [[? ?]|]. }
  destruct (startsWith _ (lit "true")); [done|].
  destruct (startsWith _ (lit "false")); [done|].
  destruct (startsWith _ (lit "null")); [done|].
  by destruct (parse_number _) as [[? ?]|].
Qed.

Section analyzer.
Context (number_to_string : jsstring → jsstring).

Local Abbreviation normalize_one := (normalize_one number_to_string).
Local Abbreviation normalizeIssues := (normalizeIssues number_to_string).
Local Abbreviation try_parse := (try_parse number_to_string).
Local Abbreviation safeParseIssues := (safeParseIssues number_to_string).
Local Abbreviation safeParseIssues_any := (safeParseIssues_any number_to_string).
Local Abbreviation analyze_try := (analyze_try number_to_string).
Local Abbreviation analyzeWithGroq := (analyzeWithGroq number_to_string).
Local Abbreviation remote_failed := (remote_failed number_to_string).

Lemma nullish_not_null v d : d ≠ JNull → nullish v d ≠ JNull.
Proof. intros Hd. by destruct v as [[]|]. Qed.

Lemma normalize_one_shape it i :
  normalize_one it = Return i →
  severity i ≠ None ∧ severity i ≠ Some JNull ∧ bare i.
Proof.
  unfold Groq.normalize_one.
  destruct it; try done;
    repeat (destruct (String_ _ _); [|done]);
    intros [= <-]; cbn [severity];
    (split; [done|]); (split; [|by repeat split]);
    intros [= Hn];
    exact (nullish_not_null _ (JString (lit "warning")) ltac:(discriminate) Hn).
Qed.

Lemma normalizeIssues_shape arr issues :
  normalizeIssues arr = Return issues →
  (length issues ≤ length arr)%nat ∧ Forall answer_issue issues.
Proof.
  unfold Groq.normalizeIssues.
  destruct (map_outcome _ arr) as [its|] eqn:Hmap; [|done].
  intros [= <-]. split.
  - etrans; [apply List.filter_length_le|].
    clear -Hmap. revert its Hmap. induction arr as [|x arr IH]; intros its.
    + by intros [= <-].
    + simpl. destruct (Groq.normalize_one _ x); [|done].
      destruct (map_outcome _ arr) as [ys|]; [|done].
      intros [= <-]. simpl. specialize (IH ys eq_refl). lia.
  - assert (Hone : Forall (fun i => severity i ≠ None ∧ severity i ≠ Some JNull
                                     ∧ bare i) its).
    { apply (map_outcome_Forall _ _ _ _ normalize_one_shape Hmap). }
    rewrite Forall_forall in *. intros i Hi%list_elem_of_In.
    apply filter_In in Hi as [Hi Ht]. apply list_elem_of_In, Hone in Hi.
    destruct Hi as (Hs1 & Hs2 & Hl & Hsn & Ha & Hf).
    apply andb_prop in Ht as [[Ht1 Ht2]%andb_prop Ht3].
    unfold answer_issue. repeat split; try done.
    all: intros Heq; rewrite Heq in *; done.
Qed.

Lemma try_parse_shape text issues :
  try_parse text = Some issues → Forall answer_issue issues.
Proof.
  unfold Groq.try_parse. destruct (JSON_parse text) as [[]|]; try done.
  destruct (Groq.normalizeIssues _ elems) eqn:Hn; [|done].
  intros [= <-]. by apply normalizeIssues_shape in Hn as [_ Hn].
Qed.

Lemma safeParseIssues_shape text : Forall answer_issue (safeParseIssues text).
Proof.
  unfold Groq.safeParseIssues.
  destruct (Groq.try_parse _ text) eqn:H1; [by eapply try_parse_shape|].
  destruct (match_ jsonBlock text) as [x|]; [|constructor].
  destruct (Groq.try_parse _ (m_text x)) eqn:H2;
    [by eapply try_parse_shape | constructor].
Qed.

(** X14. Whatever the answer, every issue taken from it has a non-empty file,
    problem and fix and a severity that is not [null]; it has no line, no
    snippet and no fixed code; and there are no more issues than the
    array has elements. *)
Theorem answer_issue_shape text :
  Forall answer_issue (safeParseIssues text) ∧
  ∀ arr issues,
    normalizeIssues arr = Return issues →
    (length issues ≤ length arr)%nat ∧ Forall answer_issue issues.
Proof.
  split; [apply safeParseIssues_shape|]. apply normalizeIssues_shape.
Qed.

Lemma try_parse_bracket text issues :
  try_parse text = Some issues → 91 ∈ text.
Proof.
  unfold Groq.try_parse, JSON_parse.
  destruct (parse_value _ text) as [| |v rest] eqn:Hp; try done.
  destruct (skip_ws rest); [|done]. destruct v; try done.
  intros _. by eapply parse_array_bracket.
Qed.

(** X15. An answer without an opening bracket gives no issue. *)
Theorem no_bracket_no_issue text : 91 ∉ text → safeParseIssues text = [].
Proof.
  intros Hno. unfold Groq.safeParseIssues.
  destruct (Groq.try_parse _ text) eqn:H1.
  { by apply try_parse_bracket in H1. }
  pose proof (jsonBlock_first_block text) as Hb.
  destruct (first_block_None text [] Hno) as [Hnone _]; [set_solver|].
  rewrite Hnone in Hb. by destruct (match_ jsonBlock text).
Qed.

Lemma safeParseIssues_any_shape content issues :
  safeParseIssues_any content = Return issues → Forall answer_issue issues.
Proof.
  unfold Groq.safeParseIssues_any.
  destruct content;
    try (destruct (String_ _ _) as [text|]; [|done];
         destruct (Groq.try_parse _ text) eqn:H1; [|done];
         intros [= <-]; by eapply try_parse_shape).
  intros [= <-]. apply safeParseIssues_shape.
Qed.

(** X16. The call throws exactly when the API key is missing or empty: with a
    key, no failure of the request or of the answer reaches the caller.
    What it returns is one of two lists, never a mix of them: what the
    scanner finds in the diff, when the remote analysis failed or found
    nothing; or else the very list that [safeParseIssues] extracts from
    the content of the answer of an OK response, which is then not empty
    and holds well-formed issues only. *)
Theorem analyze_outcome apiKey res diff contextFiles :
  (analyzeWithGroq apiKey res diff contextFiles = Throw
   ↔ apiKey = None ∨ apiKey = Some []) ∧
  ∀ issues,
    analyzeWithGroq apiKey res diff contextFiles = Return issues →
    (remote_failed res ∧ issues = heuristicScan diff contextFiles) ∨
    (∃ r data,
       res = Resolved r ∧ ok r = true ∧ json r = Some data ∧
       safeParseIssues_any (content_of data) = Return issues ∧
       issues ≠ [] ∧ Forall answer_issue issues).
Proof.
  unfold Groq.analyzeWithGroq. split.
  - destruct apiKey as [[|c key]|].
    + split; [by right | done].
    + destruct (Groq.analyze_try _ res diff contextFiles);
        (split; [done | by intros [|]]).
    + split; [by left | done].
  - intros issues. destruct apiKey as [[|c key]|]; [done| |done].
    unfold Groq.analyze_try.
    destruct res as [|r]; [intros [= <-]; left; split; [constructor|done]|].
    destruct (ok r) eqn:Hok; cbn [negb];
      [|intros [= <-]; left; split; [by apply failed_not_ok|done]].
    destruct (json r) as [data|] eqn:Hjson;
      [|intros [= <-]; left; split; [by apply failed_no_json|done]].
    destruct (Groq.safeParseIssues_any _ (content_of data)) as [found|] eqn:Hp;
      [|intros [= <-]; left; split; [by eapply failed_extraction|done]].
    pose proof (safeParseIssues_any_shape _ _ Hp) as Hshape.
    destruct found as [|i l]; intros [= <-].
    + left. split; [by eapply failed_no_issue|done].
    + right. by exists r, data.
Qed.

End analyzer.

Lemma mentions_suppress_witness :
  stating xss_inner_html
    (line_issues (lit "a.js") 1 (lit "el.innerHTML = sanitize(x)")) = [] ∧
  stating unhandled_promise
    (line_issues (lit "a.js") 1 (lit "a.b().then(f) // no catch(e)")) = [].
Proof.
  destruct (mentions_suppress (lit "a.js") 1
              (lit "el.innerHTML = sanitize(x)")) as [H1 _].
  destruct (mentions_suppress (lit "a.js") 1
              (lit "a.b().then(f) // no catch(e)")) as [_ H2].
  split; [apply H1; right; reflexivity | apply H2; reflexivity].
Defined.

Lemma empty_src_rule_witness :
  stating empty_src
    (line_issues (lit "index.html") 3 (lit "<img src=''>")) = [] ∧
  List.map severity
    (stating empty_src
       (line_issues (lit "index.html") 3
          (lit "<img src=" ++ [dquote; dquote] ++ lit ">")))
  = [Some (JString (lit "critical"))].
Proof.
  destruct (empty_src_rule (lit "index.html") 3 (lit "<img src=''>"))
    as [H1 _].
  destruct (empty_src_rule (lit "index.html") 3
              (lit "<img src=" ++ [dquote; dquote] ++ lit ">")) as [_ H2].
  split; [apply H1; reflexivity|].
  rewrite (H2 [] (lit " ") (lit ">")); [reflexivity | reflexivity | done|].
  by repeat constructor.
Defined.

Lemma inner_html_flagged_witness :
  List.map severity
    (stating xss_inner_html
       (line_issues (lit "a.js") 1 (lit "el.innerHTML = x")))
  = [Some (JString (lit "critical"))].
Proof.
  change (lit "el.innerHTML = x")
    with (lit "el." ++ lit "innerHTML" ++ lit " " ++ lit "=" ++ lit " x").
  rewrite (inner_html_flagged (lit "a.js") 1 (lit "el.") (lit " ") (lit " x"));
    [reflexivity | by repeat constructor | reflexivity | reflexivity].
Defined.

Lemma no_added_line_witness :
  heuristicScan (lit "--- a/x.js" ++ [LF] ++ lit "-eval(a)" ++ [LF]
                 ++ lit " eval(b)") [] = [].
Proof. apply no_added_line_no_issue. vm_compute. by repeat constructor. Defined.

Lemma no_bracket_witness :
  safeParseIssues id (lit "I found no issue in this diff.") = [].
Proof.
  apply no_bracket_no_issue. apply (bool_decide_unpack _). vm_compute.
  reflexivity.
Defined.

End GroqProps.

Module GroqTextProps.
Import RegExp RegExpFacts RegExpProps Json Groq GroqFacts GroqNotions GroqProps.
Import GroqText SyntheticDiff.

(** *** [truncate] *)

(** X17. For a bound that is not negative: a text within the bound is
    returned as it is; the result keeps the first [max] code units and
    has at most fifteen more; truncating again changes nothing. *)
Theorem truncate_bounded s max :
  (0 ≤ max)%Z →
  ((Z.of_nat (length s) ≤ max)%Z → truncate s max = s) ∧
  (Z.of_nat (length (truncate s max)) ≤ max + 15)%Z ∧
  take (Z.to_nat max) (truncate s max) = take (Z.to_nat max) s ∧
  truncate (truncate s max) max = truncate s max.
Proof.
  intros Hmax. unfold truncate, ContextResolver.slice_limit.
  destruct (Z.ltb_spec max 0) as [?|_]; [lia|].
  destruct (Z.leb_spec (Z.of_nat (length s)) max) as [Hle|Hgt].
  { split; [done|]. split; [lia|]. split; [done|].
    destruct (Z.leb_spec (Z.of_nat (length s)) max); [done | lia]. }
  assert (Hlen : length (take (Z.to_nat max) s) = Z.to_nat max).
  { rewrite length_take. lia. }
  split; [lia|]. split; [|split].
  - rewrite length_app, Hlen. simpl. lia.
  - by rewrite take_app_length'.
  - rewrite length_app, Hlen.
    destruct (Z.leb_spec (Z.of_nat (Z.to_nat max + length truncated_mark)) max)
      as [Hle|_]; [simpl in Hle; lia|].
    by rewrite take_app_length'.
Qed.

Lemma truncate_bounded_witness :
  truncate (lit "0123456789") 4 = lit "0123" ++ truncated_mark ∧
  truncate (truncate (lit "0123456789") 4) 4 = truncate (lit "0123456789") 4.
Proof.
  split; [reflexivity|].
  apply (truncate_bounded (lit "0123456789") 4). lia.
Defined.

(** *** Hunk headers *)

Lemma m_Chr_cons (p : N → bool) k b c s cs :
  m (Chr p) k (MState b (c :: s) cs)
  = if p c then k (MState (c :: b) s cs) else None.
Proof. reflexivity. Qed.

Lemma m_Chr_nil (p : N → bool) k b cs : m (Chr p) k (MState b [] cs) = None.
Proof. reflexivity. Qed.

(** A greedy repetition of a character class takes the whole run when the
    continuation accepts what follows. *)
Lemma star_greedy_run (p : N → bool) k w : ∀ n b rest cs x,
  Forall (fun c => p c = true) w →
  match rest with c :: _ => p c = false | [] => True end →
  (length (w ++ rest) ≤ n)%nat →
  k (MState (rev w ++ b) rest cs) = Some x →
  star_loop (fun k' st' => m (Chr p) k' (clear_caps (groups (Chr p)) st'))
    true k n (MState b (w ++ rest) cs) = Some x.
Proof.
  change (groups (Chr p)) with (@nil nat).
  induction w as [|c w IH]; intros n b rest cs x Hw Hrest Hn Hk.
  - destruct n as [|n]; [done|]. cbn [star_loop app]. rewrite clear_caps_nil.
    destruct rest as [|c rest]; [by rewrite m_Chr_nil|].
    by rewrite m_Chr_cons, Hrest.
  - apply Forall_cons in Hw as [Hc Hw].
    destruct n as [|n]; [simpl in Hn; lia|].
    cbn [star_loop app]. rewrite clear_caps_nil, m_Chr_cons, Hc.
    cbn [post].
    destruct (Nat.ltb_spec (length (w ++ rest)) (length (c :: w ++ rest)))
      as [_|Hge]; [|simpl in Hge; lia].
    rewrite (IH n (c :: b) rest cs x); [done..| |].
    + simpl in Hn. lia.
    + cbn [rev] in Hk. by rewrite <- app_assoc in Hk.
Qed.

(** The pattern [hunkStart] at a plus sign that digits follow. *)
Lemma hunkStart_exec b ds rest :
  ds ≠ [] → Forall (fun c => is_digit c = true) ds →
  match rest with c :: _ => is_digit c = false | [] => True end →
  exec_at hunkStart b (43 :: ds ++ rest)
  = Some (RMatch b (43 :: ds) rest [(1%nat, ds)]).
Proof.
  intros Hne Hds Hrest. destruct ds as [|d ds]; [done|].
  apply Forall_cons in Hds as [Hd Hds].
  unfold exec_at, hunkStart. change (lit "+") with [43]. cbn [Lit].
  cbn [m post pre caps]. unfold one at 1. rewrite N.eqb_refl.
  unfold Plus. cbn [m post pre caps app]. rewrite Hd.
  rewrite (star_greedy_run is_digit _ ds (length (ds ++ rest)) (d :: 43 :: b)
             rest [] (MState (rev ds ++ d :: 43 :: b) rest [(1%nat, d :: ds)]));
    [|done..| |].
  - cbn [post caps]. f_equal. f_equal.
    change (43 :: d :: ds ++ rest) with ((43 :: d :: ds) ++ rest).
    by rewrite length_app, Nat.add_sub, take_app_length.
  - done.
  - unfold set_cap, consumed. cbn [post pre caps]. do 3 f_equal.
    change (d :: ds ++ rest) with ((d :: ds) ++ rest).
    by rewrite length_app, Nat.add_sub, take_app_length.
Qed.

Lemma hunkStart_skip b c s : c ≠ 43 → exec_at hunkStart b (c :: s) = None.
Proof.
  intros Hc. unfold exec_at, hunkStart. change (lit "+") with [43]. cbn [Lit].
  cbn [m post]. unfold one. by destruct (N.eqb_spec 43 c) as [<-|_].
Qed.

Lemma hunkStart_search pre ds rest : ∀ b,
  43 ∉ pre → ds ≠ [] → Forall (fun c => is_digit c = true) ds →
  match rest with c :: _ => is_digit c = false | [] => True end →
  search hunkStart b (pre ++ 43 :: ds ++ rest)
  = Some (RMatch (rev pre ++ b) (43 :: ds) rest [(1%nat, ds)]).
Proof.
  induction pre as [|c pre IH]; intros b Hpre Hne Hds Hrest.
  - cbn [app rev]. destruct (43 :: ds ++ rest) eqn:Hs; [done|]. cbn [search].
    rewrite <- Hs. by rewrite hunkStart_exec.
  - cbn [app search]. rewrite hunkStart_skip by set_solver.
    rewrite IH; [|set_solver|done..]. cbn [rev]. by rewrite <- app_assoc.
Qed.

(** The counter counts as the integers do as long as it stays below
    [2 ^ 53]. *)
Lemma counter_counts k : ∀ n,
  (0 ≤ n)%Z → (n + Z.of_nat k < 2 ^ 53)%Z →
  Nat.iter k increment (Fin n) = Fin (n + Z.of_nat k).
Proof.
  induction k as [|k IH]; intros n Hn Hk.
  - simpl. f_equal. lia.
  - rewrite Nat.iter_succ, IH by lia. rewrite increment_small by lia.
    f_equal. lia.
Qed.

(** X12. After a hunk header that gives the digits [ds] as the first line of
    the new file, the counter holds [parseInt] of [ds], and the first
    added line that follows carries that number incremented, both as the
    doubles of the code. This is the integer [ds] denotes plus one when
    that integer is below [2 ^ 53 - 1]; at [2 ^ 53] the increment is
    lost. *)
Theorem hunk_header_numbering st before ds rest added :
  startsWith before (lit "@@") = true → 43 ∉ before →
  ds ≠ [] → Forall (fun c => is_digit c = true) ds →
  match rest with c :: _ => is_digit c = false | [] => True end →
  startsWith added (lit "++") = false →
  results (fold_left scan_line [before ++ 43 :: ds ++ rest; 43 :: added] st)
  = results st
    ++ line_issues (currentFile st) (increment (parseInt ds)) added ∧
  ((decimal ds + 1 < 2 ^ 53)%Z →
   increment (parseInt ds) = Fin (decimal ds + 1)) ∧
  (decimal ds = 2 ^ 53 → increment (parseInt ds) = Fin (2 ^ 53))%Z.
Proof.
  intros Hat Hplus Hne Hds Hrest Hadd. split; [|split].
  - cbn [fold_left].
    assert (H1 : scan_line st (before ++ 43 :: ds ++ rest)
                 = Scan (results st) (currentFile st) (parseInt ds)).
    { unfold scan_line.
      assert (Hb : startsWith (before ++ 43 :: ds ++ rest) (lit "@@") = true).
      { by apply startsWith_app. }
      destruct (startsWith (before ++ 43 :: ds ++ rest) (lit "+++ b/")) eqn:H3.
      { apply startsWith_spec in Hb as [r1 Hr1].
        apply startsWith_spec in H3 as [r2 Hr2]. rewrite Hr1 in Hr2. done. }
      rewrite Hb. unfold match_. rewrite hunkStart_search by done. done. }
    rewrite H1, scan_line_added by done. done.
  - intros Hsmall. unfold parseInt.
    rewrite to_number_small by lia. by apply increment_small.
  - intros Hbig. unfold parseInt. rewrite Hbig. vm_compute. reflexivity.
Qed.

Lemma hunk_header_numbering_witness :
  List.map line
    (results (fold_left scan_line
                [lit "@@ -1,3 +10,3 @@"; lit "+eval(a)"]
                (Scan [] (lit "a.ts") 0)))
  = [Some (Fin 11)].
Proof.
  assert (H : results (fold_left scan_line
                [lit "@@ -1,3 " ++ 43 :: lit "10" ++ lit ",3 @@";
                 43 :: lit "eval(a)"] (Scan [] (lit "a.ts") 0))
              = [] ++ line_issues (lit "a.ts") (increment (parseInt (lit "10")))
                        (lit "eval(a)")).
  { apply (hunk_header_numbering (Scan [] (lit "a.ts") 0)).
    - reflexivity.
    - apply (bool_decide_unpack _). vm_compute. reflexivity.
    - done.
    - by repeat constructor.
    - reflexivity.
    - reflexivity. }
  exact (f_equal (List.map line) H).
Defined.

End GroqTextProps.

(** ** The scanner on a synthetic diff *)

Module SyntheticDiffProps.
Import RegExp RegExpFacts RegExpProps Json Groq GroqFacts GroqNotions GroqProps.
Import GroqText SyntheticDiff GroqTextProps.

(** *** [split] *)

Lemma split_app_sep sep l rest :
  sep ∉ l → split sep (l ++ sep :: rest) = l :: split sep rest.
Proof.
  induction l as [|c l IH]; intros Hl; simpl.
  - by rewrite N.eqb_refl.
  - destruct (N.eqb_spec c sep) as [->|_]; [set_solver|].
    rewrite IH by set_solver. done.
Qed.

Lemma split_no_sep sep s : Forall (fun l => sep ∉ l) (split sep s).
Proof.
  induction s as [|c s IH]; simpl.
  - constructor; [set_solver | constructor].
  - destruct (N.eqb_spec c sep) as [->|Hc].
    + constructor; [set_solver | done].
    + destruct (split sep s) as [|l ls]; [constructor; [set_solver|done]|].
      apply Forall_cons in IH as [Hl Hls]. constructor; [set_solver | done].
Qed.

Section files.
Context (readFileSync : jsstring → option jsstring).

Local Abbreviation file_diff := (file_diff readFileSync).
Local Abbreviation buildSyntheticDiff := (buildSyntheticDiff readFileSync).
Local Abbreviation issues_of_files := (issues_of_files readFileSync).

Lemma added_fold lines : ∀ acc,
  fold_left (fun out line => out ++ lit "+" ++ line ++ [LF]) lines acc
  = acc ++ plus_lines lines.
Proof.
  induction lines as [|l lines IH]; intros acc; simpl.
  - by rewrite app_nil_r.
  - rewrite IH, <- app_assoc. done.
Qed.

Lemma build_fold files : ∀ acc,
  fold_left (fun out f => out ++ file_diff f) files acc
  = acc ++ flat_map file_diff files.
Proof.
  induction files as [|f files IH]; intros acc; simpl.
  - by rewrite app_nil_r.
  - by rewrite IH, <- app_assoc.
Qed.

Lemma split_plus_lines lines rest :
  Forall (fun l => LF ∉ l) lines →
  split LF (plus_lines lines ++ rest)
  = List.map (cons 43) lines ++ split LF rest.
Proof.
  induction 1 as [|l lines Hl _ IH]; [done|].
  assert (Heq : plus_lines (l :: lines) ++ rest
                = (43 :: l) ++ LF :: (plus_lines lines ++ rest)).
  { unfold plus_lines. simpl. by rewrite <- !app_assoc. }
  rewrite Heq. cbn [List.map].
  rewrite split_app_sep; [by rewrite IH|].
  intros [?|?]%elem_of_cons; done.
Qed.

(** A line that starts neither with [+] nor with [@@] is passed over. *)
Lemma scan_line_ignored st l :
  startsWith l (lit "+") = false → startsWith l (lit "@@") = false →
  scan_line st l = st.
Proof.
  intros H1 H2. unfold scan_line. rewrite H2, H1.
  destruct (startsWith l (lit "+++ b/")) eqn:H3; [|done].
  apply (startsWith_prefix l (lit "+") (lit "++ b/")) in H3. congruence.
Qed.

Lemma scan_file_header st f :
  scan_line st (lit "+++ b/" ++ f) = Scan (results st) (trim f) 0.
Proof.
  unfold scan_line.
  assert (H : startsWith (lit "+++ b/" ++ f) (lit "+++ b/") = true).
  { apply startsWith_spec. by exists f. }
  rewrite H. unfold replace_str.
  destruct (lit "+++ b/" ++ f) as [|c r] eqn:Hl; [done|].
  cbn [find_str]. rewrite H. cbn [m_before m_after rev substitution app].
  rewrite <- Hl. by rewrite drop_app_length.
Qed.

Lemma scan_added_lines name lines : ∀ st n,
  Forall (fun l => startsWith l (lit "++") = false) lines →
  fold_left scan_line (List.map (cons 43) lines) (Scan st name n)
  = Scan (st ++ issues_from name (increment n) lines) name
      (Nat.iter (length lines) increment n).
Proof.
  induction lines as [|l lines IH]; intros st n Hl.
  - simpl. by rewrite app_nil_r.
  - apply Forall_cons in Hl as [Hl Hls]. cbn [List.map fold_left].
    rewrite scan_line_added by done. cbn [results currentFile lineNumber].
    rewrite IH by done. cbn [issues_from length]. rewrite <- app_assoc.
    by rewrite Nat.iter_succ_r.
Qed.

(** Below [2 ^ 53] the numbers of the lines are consecutive integers. *)
Lemma issues_from_next name n l ls :
  (n + 1 < 2 ^ 53)%Z →
  issues_from name (Fin n) (l :: ls)
  = line_issues name (Fin n) l ++ issues_from name (Fin (n + 1)) ls.
Proof. intros Hn. cbn [issues_from]. by rewrite increment_small. Qed.

Lemma split_file_diff f content rest :
  LF ∉ f → readFileSync f = Some content →
  split LF (file_diff f ++ rest)
  = [lit "diff --git a/" ++ f ++ lit " b/" ++ f; lit "--- a/" ++ f;
     lit "+++ b/" ++ f]
    ++ List.map (cons 43) (split LF content) ++ split LF rest.
Proof.
  intros Hf Hc. unfold SyntheticDiff.file_diff. rewrite Hc, added_fold.
  assert (Hlit : ∀ a : string, bool_decide (LF ∉ lit a) = true → LF ∉ lit a).
  { intros a. apply bool_decide_eq_true. }
  cbn [app]. rewrite <- !app_assoc.
  rewrite (app_assoc (lit "diff --git a/")), (app_assoc _ (lit " b/")),
    (app_assoc _ f). cbn [app].
  rewrite split_app_sep.
  2: { rewrite <- !app_assoc. rewrite !elem_of_app.
       intros [H|[H|[H|H]]]; try done; revert H; by apply Hlit. }
  rewrite <- !app_assoc. f_equal.
  rewrite (app_assoc (lit "--- a/")). rewrite split_app_sep.
  2: { rewrite !elem_of_app. intros [H|H]; try done; revert H; by apply Hlit. }
  f_equal.
  rewrite (app_assoc (lit "+++ b/")). rewrite split_app_sep.
  2: { rewrite !elem_of_app. intros [H|H]; try done; revert H; by apply Hlit. }
  f_equal. apply split_plus_lines, split_no_sep.
Qed.

Lemma scan_file f content st :
  Forall (fun l => startsWith l (lit "++") = false) (split LF content) →
  results
    (fold_left scan_line
       ([lit "diff --git a/" ++ f ++ lit " b/" ++ f; lit "--- a/" ++ f;
         lit "+++ b/" ++ f] ++ List.map (cons 43) (split LF content)) st)
  = results st ++ issues_from (trim f) 1 (split LF content).
Proof.
  intros Hl. rewrite fold_left_app. cbn [fold_left].
  rewrite (scan_line_ignored st (lit "diff --git a/" ++ f ++ lit " b/" ++ f))
    by reflexivity.
  rewrite (scan_line_ignored st (lit "--- a/" ++ f)) by reflexivity.
  rewrite scan_file_header, scan_added_lines by done. done.
Qed.

Lemma scan_files files : ∀ st,
  Forall (fun f => LF ∉ f) files →
  Forall (fun f => ∀ content, readFileSync f = Some content →
            Forall (fun l => startsWith l (lit "++") = false)
              (split LF content)) files →
  results (fold_left scan_line (split LF (flat_map file_diff files)) st)
  = results st ++ issues_of_files files.
Proof.
  induction files as [|f files IH]; intros st Hf Hl.
  { simpl. by rewrite app_nil_r. }
  apply Forall_cons in Hf as [Hf Hfs]. apply Forall_cons in Hl as [Hl Hls].
  cbn [flat_map]. unfold SyntheticDiff.issues_of_files. cbn [flat_map].
  destruct (readFileSync f) as [content|] eqn:Hc.
  - rewrite (split_file_diff f content) by done.
    rewrite app_assoc, fold_left_app.
    rewrite IH by done. rewrite scan_file by auto. by rewrite <- app_assoc.
  - unfold SyntheticDiff.file_diff at 1. rewrite Hc. cbn [app]. by apply IH.
Qed.

(** X13. In a scan of the whole project, when the remote analyzer gives
    nothing, the diff built from the files is scanned so that every issue
    carries the name of its file and the number of its line in that file,
    counted from 1. It holds for file names without a line feed and files
    in which no line starts with [++]. *)
Theorem synthetic_diff_scan files context :
  Forall (fun f => LF ∉ f) files →
  Forall (fun f => ∀ content, readFileSync f = Some content →
            Forall (fun l => startsWith l (lit "++") = false)
              (split LF content)) files →
  heuristicScan (buildSyntheticDiff files) context = issues_of_files files.
Proof.
  intros Hf Hl. unfold heuristicScan, SyntheticDiff.buildSyntheticDiff.
  rewrite build_fold. cbn [app]. by rewrite scan_files.
Qed.

End files.

Lemma synthetic_diff_scan_witness :
  List.map (fun i => (file i, line i))
    (heuristicScan (buildSyntheticDiff read_demo [lit "none.js"; lit "src/a.js"])
       [])
  = [(lit "src/a.js", Some (Fin 2))].
Proof.
  rewrite (synthetic_diff_scan read_demo [lit "none.js"; lit "src/a.js"]).
  - vm_compute. reflexivity.
  - repeat constructor; apply (bool_decide_unpack _); vm_compute; reflexivity.
  - repeat constructor; intros content [= <-]; vm_compute;
      by repeat constructor.
Defined.

End SyntheticDiffProps.

Module GroqPatchProps.
Import RegExp RegExpFacts RegExpProps Json Groq GroqFacts GroqNotions GroqProps.
Import GroqPatch.

(** *** [trim] again *)

Lemma trim_head s c r : trim s = c :: r → is_space c = false.
Proof.
  unfold trim. destruct (trimStart s) as [|d t] eqn:Hs; [done|].
  pose proof (trimStart_head _ _ _ Hs) as Hd.
  destruct (trimEnd_head d t Hd) as (r' & Hr). rewrite Hr.
  by intros [= <- _].
Qed.

Lemma trim_last s : trimStart (rev (trim s)) = rev (trim s).
Proof.
  unfold trim. rewrite rev_involutive. apply trimStart_idem.
Qed.

(** A line feed added to a trimmed text is trimmed away again. *)
Lemma trim_line_feed s : trim (trim s ++ [LF]) = trim s.
Proof.
  destruct (trim s) as [|c r] eqn:Ht; [done|].
  pose proof (trim_head _ _ _ Ht) as Hc.
  pose proof (trim_last s) as Hl. rewrite Ht in Hl.
  unfold trim at 1. rewrite (trimStart_id ((c :: r) ++ [LF])) by done.
  rewrite rev_app_distr. cbn [rev app trimStart].
  change (is_space LF) with true. cbn [rev] in Hl. rewrite Hl.
  by rewrite <- (rev_involutive (c :: r)).
Qed.

(** *** [sanitizeUnifiedDiff] *)

Lemma sanitizeUnifiedDiff_eq patch :
  sanitizeUnifiedDiff patch = trim patch ++ [LF].
Proof. unfold sanitizeUnifiedDiff. by destruct (_ || _). Qed.

(** X18. Whether the text has a header of a diff or not, the result is the
    trimmed text followed by one line feed: the test of the source
    changes nothing. So the function gives back what it returned. *)
Theorem sanitize_trims patch :
  sanitizeUnifiedDiff patch = trim patch ++ [LF] ∧
  sanitizeUnifiedDiff (sanitizeUnifiedDiff patch) = sanitizeUnifiedDiff patch.
Proof.
  split; [apply sanitizeUnifiedDiff_eq|].
  by rewrite !sanitizeUnifiedDiff_eq, trim_line_feed.
Qed.

(** *** [extractCodeFence] *)

Lemma startsWith_self p rest : startsWith (p ++ rest) p = true.
Proof. apply startsWith_spec. by exists rest. Qed.

(** A text that starts with another character does not start with a
    pattern that starts with a back quote. *)
Lemma startsWith_other c s p :
  c ≠ 96 → startsWith p [96] = true → startsWith (c :: s) p = false.
Proof.
  intros Hc Hp. destruct p as [|d p]; [done|]. cbn [startsWith] in *.
  rewrite andb_true_r in Hp. apply N.eqb_eq in Hp as <-.
  by destruct (N.eqb_spec 96 c) as [<-|_].
Qed.

(** The lazy repetition before a closing fence ends at the first fence. *)
Lemma first_accept_fence body rest : ∀ b cs,
  96 ∉ body →
  first_accept (m (Lit fence) Some) b (body ++ fence ++ rest) cs
  = Some (MState (rev fence ++ rev body ++ b) rest cs).
Proof.
  induction body as [|c body IH]; intros b cs Hb.
  - cbn [app rev]. destruct (fence ++ rest) as [|d s] eqn:Hs; [done|].
    cbn [first_accept]. rewrite <- Hs. rewrite m_Lit by done. cbn [post pre caps].
    rewrite startsWith_self. by rewrite drop_app_length.
  - cbn [app first_accept]. rewrite m_Lit by done. cbn [post].
    rewrite startsWith_other by (set_solver || done).
    rewrite IH by set_solver. cbn [rev]. by rewrite <- !app_assoc.
Qed.

(** A fence that opens with [p], on a text that holds no back quote up
    to the closing fence. *)
Lemma fenced_exec p body rest b :
  p ≠ [] → 96 ∉ body →
  exec_at (seqs [Lit p; Star false (Chr any_char); Lit fence]) b
    (p ++ body ++ fence ++ rest)
  = Some (RMatch b (p ++ body ++ fence) rest []).
Proof.
  intros Hp Hb. unfold exec_at. cbn [seqs]. rewrite m_Seq, m_Lit by done.
  cbn [post pre caps]. rewrite startsWith_self, drop_app_length.
  rewrite m_Seq, m_Star. cbn [post].
  rewrite star_lazy_any by (apply any_char_true || done).
  rewrite first_accept_fence by done. cbn [post caps]. do 2 f_equal.
  rewrite !(app_assoc p), (app_assoc (p ++ body)).
  rewrite <- (app_assoc p). by rewrite length_app, Nat.add_sub, take_app_length.
Qed.

Lemma codeFence_skip b c s : c ≠ 96 → exec_at codeFence b (c :: s) = None.
Proof.
  intros Hc. unfold codeFence. cbn [alts seqs].
  rewrite !exec_at_Alt_None;
    apply exec_at_Seq_Lit; try done; by apply startsWith_other.
Qed.

Lemma codeFence_none text : 96 ∉ text → match_ codeFence text = None.
Proof.
  intros Hno. apply search_None. intros b s' [w ->].
  destruct s' as [|c s'].
  - unfold codeFence. cbn [alts seqs].
    rewrite !exec_at_Alt_None; by apply exec_at_Seq_Lit.
  - apply codeFence_skip. set_solver.
Qed.

Lemma codeFence_exec b lang body after :
  lang ∈ [[]; lit "diff"; lit "patch"] → 96 ∉ body →
  exec_at codeFence b (fence ++ lang ++ LF :: body ++ fence ++ after)
  = Some (RMatch b (fence ++ lang ++ LF :: body ++ fence) after []).
Proof.
  intros Hlang Hb. assert (Hb' : 96 ∉ LF :: body) by set_solver.
  unfold codeFence. cbn [alts].
  rewrite !elem_of_cons, elem_of_nil in Hlang.
  destruct Hlang as [->|[->|[->|[]]]].
  - rewrite exec_at_Alt_None by (by apply exec_at_Seq_Lit).
    rewrite exec_at_Alt_None by (by apply exec_at_Seq_Lit).
    apply (fenced_exec fence (LF :: body) after b); done.
  - apply exec_at_Alt_Some.
    apply (fenced_exec (lit "```diff") (LF :: body) after b); done.
  - rewrite exec_at_Alt_None by (by apply exec_at_Seq_Lit).
    apply exec_at_Alt_Some.
    apply (fenced_exec (lit "```patch") (LF :: body) after b); done.
Qed.

Lemma codeFence_match before lang body after :
  lang ∈ [[]; lit "diff"; lit "patch"] → 96 ∉ before → 96 ∉ body →
  option_map m_text
    (match_ codeFence (before ++ fence ++ lang ++ LF :: body ++ fence ++ after))
  = Some (fence ++ lang ++ LF :: body ++ fence).
Proof.
  intros Hlang Hbefore Hbody. unfold match_. rewrite search_skip.
  - destruct (fence ++ lang ++ LF :: body ++ fence ++ after) eqn:Hs; [done|].
    cbn [search]. rewrite <- Hs. by rewrite codeFence_exec.
  - intros w1 c w2 ->. apply codeFence_skip. set_solver.
Qed.

Lemma fenceOpen_replace lang rest :
  lang ∈ [[]; lit "diff"; lit "patch"] →
  replace_at_start fenceOpen [] (fence ++ lang ++ LF :: rest) = rest.
Proof.
  rewrite !elem_of_cons, elem_of_nil.
  intros [->|[->|[->|[]]]]; reflexivity.
Qed.

Lemma fenceClose_skip b c s : c ≠ 96 → exec_at fenceClose b (c :: s) = None.
Proof.
  intros Hc. apply exec_at_Seq_Lit; [done | by apply startsWith_other].
Qed.

Lemma fenceClose_end b :
  search fenceClose b fence = Some (RMatch b fence [] []).
Proof. reflexivity. Qed.

Lemma fenceClose_replace body :
  96 ∉ body → replace_one fenceClose [] (body ++ fence) = body.
Proof.
  intros Hb. unfold replace_one. rewrite search_skip.
  - rewrite fenceClose_end. cbn [m_before m_after substitution app].
    by rewrite !app_nil_r, rev_involutive.
  - intros w1 c w2 ->. apply fenceClose_skip. set_solver.
Qed.

Lemma extractCodeFence_none text : 96 ∉ text → extractCodeFence text = None.
Proof. intros H. unfold extractCodeFence. by rewrite codeFence_none. Qed.

Lemma extractCodeFence_fenced before lang body after :
  lang ∈ [[]; lit "diff"; lit "patch"] → 96 ∉ before → 96 ∉ body →
  extractCodeFence (before ++ fence ++ lang ++ LF :: body ++ fence ++ after)
  = Some (trim body).
Proof.
  intros Hlang Hbefore Hbody. unfold extractCodeFence.
  pose proof (codeFence_match before lang body after Hlang Hbefore Hbody) as H.
  destruct (match_ codeFence _) as [x|]; [|done].
  cbn [option_map] in H.
  assert (Hx : m_text x = fence ++ lang ++ LF :: body ++ fence) by congruence.
  by rewrite Hx, fenceOpen_replace, fenceClose_replace.
Qed.

(** X19. An answer without a back quote holds no fence. In an answer whose
    first back quotes open a fence, bare or marked [diff] or [patch],
    that a line feed follows, the text up to the closing fence is
    extracted and trimmed, when it holds no back quote itself. *)
Theorem fenced_patch_extracted before lang body after :
  lang ∈ [[]; lit "diff"; lit "patch"] → 96 ∉ before → 96 ∉ body →
  extractCodeFence before = None ∧
  extractCodeFence (before ++ fence ++ lang ++ LF :: body ++ fence ++ after)
  = Some (trim body).
Proof.
  intros Hlang Hbefore Hbody.
  split; [by apply extractCodeFence_none | by apply extractCodeFence_fenced].
Qed.

(** X20. The patch of an answer: for an answer without a back quote it is
    the trimmed answer and a line feed; for an answer with a fence as
    above, around a text that is not blank, it is that text, trimmed, and
    a line feed. *)
Theorem generated_patch before lang body after :
  lang ∈ [[]; lit "diff"; lit "patch"] → 96 ∉ before → 96 ∉ body →
  trim body ≠ [] →
  patch_of before = trim before ++ [LF] ∧
  patch_of (before ++ fence ++ lang ++ LF :: body ++ fence ++ after)
  = trim body ++ [LF].
Proof.
  intros Hlang Hbefore Hbody Hne. unfold patch_of. split.
  - by rewrite extractCodeFence_none, sanitizeUnifiedDiff_eq.
  - rewrite extractCodeFence_fenced by done.
    destruct (trim body) as [|c r] eqn:Ht; [done|]. cbn [truthy].
    by rewrite sanitizeUnifiedDiff_eq, <- Ht, trim_idem.
Qed.

Lemma fenced_patch_witness :
  extractCodeFence (lit "Here is the patch:" ++ [LF] ++ lit "```diff" ++ [LF]
                    ++ lit "+a" ++ [LF] ++ lit "```" ++ lit " Done.")
  = Some (lit "+a").
Proof.
  pose proof (fenced_patch_extracted (lit "Here is the patch:" ++ [LF])
                (lit "diff") (lit "+a" ++ [LF]) (lit " Done.")) as H.
  destruct H as [_ H].
  - rewrite !elem_of_cons. right. by left.
  - apply (bool_decide_unpack _). vm_compute. reflexivity.
  - apply (bool_decide_unpack _). vm_compute. reflexivity.
  - exact H.
Defined.

Lemma generated_patch_witness :
  patch_of (lit "Here is the patch:" ++ [LF] ++ lit "```diff" ++ [LF]
            ++ lit "+a" ++ [LF] ++ lit "```" ++ lit " Done.")
  = lit "+a" ++ [LF].
Proof.
  pose proof (generated_patch (lit "Here is the patch:" ++ [LF])
                (lit "diff") (lit "+a" ++ [LF]) (lit " Done.")) as H.
  destruct H as [_ H].
  - rewrite !elem_of_cons. right. by left.
  - apply (bool_decide_unpack _). vm_compute. reflexivity.
  - apply (bool_decide_unpack _). vm_compute. reflexivity.
  - vm_compute. discriminate.
  - exact H.
Defined.

End GroqPatchProps.


Module GroupingProps.
Import RegExp RegExpFacts RegExpProps Json Groq GroqFacts GroqNotions GroqProps.
Import Autofix AutofixFacts AutofixNotions.

(** *** [groupByFile] *)

Lemma streq_true a b : streq a b = true ↔ a = b.
Proof. unfold streq. apply bool_decide_eq_true. Qed.

Lemma streq_false a b : streq a b = false ↔ a ≠ b.
Proof. unfold streq. apply bool_decide_eq_false. Qed.

Lemma group_of_app P Q k : group_of (P ++ Q) k = group_of P k ++ group_of Q k.
Proof. apply List.filter_app. Qed.

Lemma group_of_nil P k :
  (∀ i, i ∈ P → file i ≠ k) → group_of P k = [].
Proof.
  induction P as [|i P IH]; intros H; simpl; [done|].
  destruct (streq (file i) k) eqn:Hk.
  - apply streq_true in Hk. exfalso. eapply H; [by left | done].
  - apply IH. intros j Hj. apply H. by right.
Qed.

Lemma push_keys issue grouped :
  (push_issue issue grouped).*1
  = if bool_decide (file issue ∈ grouped.*1) then grouped.*1
    else grouped.*1 ++ [file issue].
Proof.
  induction grouped as [|[k l] g IH]; [done|]. cbn [push_issue].
  destruct (streq k (file issue)) eqn:Hk; rewrite !fmap_cons; cbn [fst].
  - apply streq_true in Hk as ->.
    rewrite bool_decide_eq_true_2; [done | by left].
  - apply streq_false in Hk. rewrite IH.
    case_bool_decide as H1; case_bool_decide as H2; try done.
    + exfalso. apply H2. by right.
    + exfalso. apply elem_of_cons in H2 as [?|?]; [by subst | done].
Qed.

Lemma push_Forall P issue g :
  NoDup g.*1 →
  Forall (fun kl => kl.2 = group_of P kl.1 ∧ kl.2 ≠ []) g →
  (file issue ∉ g.*1 → group_of P (file issue) = []) →
  Forall (fun kl => kl.2 = group_of (P ++ [issue]) kl.1 ∧ kl.2 ≠ [])
    (push_issue issue g).
Proof.
  induction g as [|[k l] g IH]; intros Hnd Hg Hnew; simpl.
  - constructor; [|done]. simpl. rewrite group_of_app, Hnew by set_solver.
    simpl. unfold streq. rewrite bool_decide_eq_true_2 by done. done.
  - apply NoDup_cons in Hnd as [Hk Hnd]. apply Forall_cons in Hg as [[Hl Hne] Hg].
    simpl in *. destruct (streq k (file issue)) eqn:Hki.
    + apply streq_true in Hki as ->. constructor; simpl.
      * rewrite group_of_app, <- Hl. simpl. unfold streq.
        rewrite bool_decide_eq_true_2 by done. split; [done|].
        by destruct l.
      * rewrite Forall_forall in *. intros [k' l'] Hin. simpl.
        destruct (Hg _ Hin) as [Hl' Hne']. simpl in *. split; [|done].
        rewrite group_of_app. simpl.
        destruct (streq (file issue) k') eqn:Hk'; [|by rewrite app_nil_r].
        apply streq_true in Hk' as <-. exfalso. apply Hk.
        apply list_elem_of_fmap. by exists (file issue, l').
    + apply streq_false in Hki. constructor; simpl.
      * split; [|done]. rewrite group_of_app. simpl.
        destruct (streq (file issue) k) eqn:Hk'; [|by rewrite app_nil_r].
        apply streq_true in Hk'. congruence.
      * apply IH; [done..|]. intros Hnot. apply Hnew.
        intros [?|?]%elem_of_cons; [congruence | done].
Qed.

Lemma push_ok P issue g :
  groups_ok P g → groups_ok (P ++ [issue]) (push_issue issue g).
Proof.
  intros (Hnd & Hg & Hin). split; [|split].
  - rewrite push_keys. case_bool_decide as Hk; [done|].
    apply NoDup_app. repeat split; [done | | apply NoDup_singleton].
    intros k Hk1 ->%list_elem_of_singleton. done.
  - apply push_Forall; [done..|]. intros Hnot. apply group_of_nil.
    intros i Hi Heq. apply Hnot. rewrite <- Heq. by apply Hin.
  - intros i [Hi|Hi]%elem_of_app; rewrite push_keys;
      case_bool_decide as Hk.
    + by apply Hin.
    + apply elem_of_app. left. by apply Hin.
    + by apply list_elem_of_singleton in Hi as ->.
    + apply list_elem_of_singleton in Hi as ->. apply elem_of_app. right.
      by left.
Qed.

Lemma group_go_ok issues : ∀ P g res,
  groups_ok P g → group_go issues g = Return res → groups_ok (P ++ issues) res.
Proof.
  induction issues as [|issue issues IH]; intros P g res Hok; cbn [group_go].
  - intros [= <-]. by rewrite app_nil_r.
  - destruct (existsb _ object_prototype_keys); [done|].
    intros H. apply (IH (P ++ [issue])) in H; [|by apply push_ok].
    by rewrite <- app_assoc in H.
Qed.

Lemma group_go_Throw issues : ∀ g,
  group_go issues g = Throw
  ↔ Exists (fun i => file i ∈ object_prototype_keys) issues.
Proof.
  induction issues as [|issue issues IH]; intros g; cbn [group_go].
  - split; [done | by intros ?%Exists_nil].
  - rewrite Exists_cons.
    destruct (existsb _ object_prototype_keys) eqn:Hk.
    + split; [|done]. intros _. left.
      apply existsb_exists in Hk as (k & Hk%list_elem_of_In & ->%streq_true).
      done.
    + rewrite IH. split; [by right|]. intros [Hin|H]; [|done]. exfalso.
      assert (existsb (streq (file issue)) object_prototype_keys = true);
        [|congruence].
      apply existsb_exists. exists (file issue).
      split; [by apply list_elem_of_In | by apply streq_true].
Qed.

(** X21. [groupByFile] throws exactly when an issue names a file after a
    property of [Object.prototype], such as [constructor] or [toString]:
    the table then holds a value that is not an array. *)
Theorem grouping_throws_iff issues :
  groupByFile issues = Throw
  ↔ Exists (fun i => file i ∈ object_prototype_keys) issues.
Proof. apply group_go_Throw. Qed.

(** X22. When [groupByFile] returns, its table has one entry per file that an
    issue names: the keys are distinct, every issue names a key, and the
    entry of a key lists, in their order, exactly the issues that name
    it. *)
Theorem grouping_partitions issues fileIssues :
  groupByFile issues = Return fileIssues →
  NoDup fileIssues.*1 ∧
  Forall (fun kl => kl.2 = group_of issues kl.1 ∧ kl.2 ≠ []) fileIssues ∧
  ∀ i, i ∈ issues → file i ∈ fileIssues.*1.
Proof.
  intros H. apply (group_go_ok issues [] []) in H; [done|].
  split; [constructor|]. split; [constructor|]. intros i Hi.
  by apply elem_of_nil in Hi.
Qed.

End GroupingProps.

Module EngineProps.
Import RegExp RegExpFacts RegExpProps Json Groq GroqFacts GroqNotions GroqProps.
Import Autofix AutofixFacts AutofixNotions GroupingProps.

(** *** [Object.entries] *)

Lemma insert_index_perm {A} n (x : A) l : insert_index n x l ≡ₚ (n, x) :: l.
Proof.
  induction l as [|[k y] l IH]; simpl; [done|].
  destruct (n <? k); [done|]. rewrite IH. apply perm_swap.
Qed.

Lemma filter_partition {A} (f : A → bool) l :
  List.filter f l ++ List.filter (fun x => negb (f x)) l ≡ₚ l.
Proof.
  induction l as [|x l IH]; simpl; [done|].
  destruct (f x); simpl.
  - by rewrite IH.
  - rewrite <- Permutation_middle. by rewrite IH.
Qed.

(** [Object.entries] lists every entry of the table once, whatever the
    order it puts them in. *)
Lemma entries_perm {A} (obj : list (jsstring * A)) : entries obj ≡ₚ obj.
Proof.
  unfold entries.
  set (is_index := fun kv : jsstring * A =>
         match array_index kv.1 with Some _ => true | None => false end).
  assert (Hfold : ∀ l acc,
    List.map snd
      (fold_left (fun acc kv =>
                    match array_index kv.1 with
                    | Some n => insert_index n kv acc
                    | None => acc
                    end) l acc)
    ≡ₚ List.map snd acc ++ List.filter is_index l).
  { induction l as [|kv l IH]; intros acc; simpl.
    - by rewrite app_nil_r.
    - rewrite IH. unfold is_index at 2.
      destruct (array_index kv.1) as [n|]; [|done].
      rewrite (Permutation_map snd (insert_index_perm n kv acc)). simpl.
      by rewrite <- Permutation_middle. }
  rewrite Hfold. simpl.
  etrans; [|apply (filter_partition is_index obj)].
  apply Permutation_app_head. apply Permutation_refl'.
  apply List.filter_ext. intros kv. unfold is_index.
  by destruct (array_index kv.1).
Qed.

Section engine.
Context (toLowerCase : jsstring → jsstring).
Context (cwd : jsstring) (path_join : list jsstring → jsstring).

Local Abbreviation target := (target cwd path_join).
Local Abbreviation backup_path := (backup_path cwd path_join).
Local Abbreviation canAutoFix := (canAutoFix toLowerCase).
Local Abbreviation applyIssueFix := (applyIssueFix toLowerCase).
Local Abbreviation pattern_fix := (pattern_fix toLowerCase).
Local Abbreviation apply_fixes := (apply_fixes toLowerCase).
Local Abbreviation fix_file := (fix_file toLowerCase cwd path_join).
Local Abbreviation fix_files := (fix_files toLowerCase cwd path_join).
Local Abbreviation applyAutoFixes := (applyAutoFixes toLowerCase cwd path_join).
Local Abbreviation written := (written cwd path_join).

(** *** One file *)

Lemma apply_fixes_count l : ∀ content n,
  (n ≤ (apply_fixes l content n).2 ≤ n + Z.of_nat (length l))%Z ∧
  ((apply_fixes l content n).2 = n → (apply_fixes l content n).1 = content).
Proof.
  induction l as [|i l IH]; intros content n; cbn [Autofix.apply_fixes].
  { simpl. split; [lia | done]. }
  destruct (streq _ content) eqn:Hs.
  - destruct (IH content n) as [H1 H2]. split; [|done].
    cbn [length]. lia.
  - destruct (IH (applyIssueFix content i) (n + 1)%Z) as [H1 H2].
    split; [cbn [length]; lia|]. intros Heq. lia.
Qed.

Lemma fix_file_writes opts f l fs fs' r :
  fix_file opts f l fs = Return (fs', r) →
  match r with
  | None => fs' = fs
  | Some x =>
      result_file x = f ∧
      issues x = List.filter canAutoFix l ∧
      (1 ≤ fixesApplied x ≤ Z.of_nat (length (issues x)))%Z ∧
      ∃ original,
        fs !! target f = Some (File original) ∧
        fixesApplied x = (apply_fixes (issues x) original 0).2 ∧
        fs' = written opts f original (apply_fixes (issues x) original 0).1 fs
  end.
Proof.
  unfold Autofix.fix_file.
  destruct (List.filter _ l) as [|i l'] eqn:Hl; [by intros [= <- <-]|].
  fold (target f). unfold existsSync, readFileSync.
  destruct (fs !! target f) as [[original|]|] eqn:Ht; cbn [negb];
    [|done|by intros [= <- <-]].
  pose proof (apply_fixes_count (i :: l') original 0) as [Hcount _].
  destruct (Autofix.apply_fixes _ (i :: l') original 0) as [content fixCount]
    eqn:Hfix.
  cbn [snd] in Hcount.
  destruct (Z.gtb_spec fixCount 0) as [Hpos|_]; [|by intros [= <- <-]].
  unfold writeFileSync, written. fold (backup_path f).
  assert (Hne : backup_path f ≠ target f).
  { intros H. by apply (backup_path_ne cwd path_join f). }
  assert (Hdone : ∀ fs2,
    fs2 = (if dryRun opts
           then (if backup opts
                 then <[backup_path f := File original]> fs else fs)
           else <[target f := File content]>
                  (if backup opts
                   then <[backup_path f := File original]> fs else fs)) →
    result_file {| result_file := f; fixesApplied := fixCount;
                   issues := i :: l' |} = f ∧
    i :: l' = i :: l' ∧
    (1 ≤ fixCount ≤ Z.of_nat (length (i :: l')))%Z ∧
    ∃ original0,
      Some (File original) = Some (File original0) ∧
      fixCount = (Autofix.apply_fixes toLowerCase (i :: l') original0 0).2 ∧
      fs2 = (if dryRun opts
             then (if backup opts
                   then <[backup_path f := File original0]> fs else fs)
             else <[target f :=
                      File (Autofix.apply_fixes toLowerCase (i :: l')
                              original0 0).1]>
                    (if backup opts
                     then <[backup_path f := File original0]> fs else fs))).
  { intros fs2 ->. split; [done|]. split; [done|]. split; [lia|].
    exists original. by rewrite Hfix. }
  destruct (backup opts), (dryRun opts); cbn [negb].
  - destruct (fs !! backup_path f) as [[|]|]; try done; intros [= <- <-];
      by apply Hdone.
  - destruct (fs !! backup_path f) as [[|]|]; try done;
      rewrite lookup_insert_ne, Ht by done; intros [= <- <-]; by apply Hdone.
  - intros [= <- <-]. by apply Hdone.
  - rewrite Ht. intros [= <- <-]. by apply Hdone.
Qed.

(** *** All files *)

Lemma written_frame opts f original content fs p :
  (dryRun opts = false → p ≠ target f) →
  (backup opts = true → p ≠ backup_path f) →
  written opts f original content fs !! p = fs !! p.
Proof.
  intros H1 H2. unfold written.
  destruct (dryRun opts), (backup opts);
    rewrite ?lookup_insert_ne; try done;
    intros Heq; symmetry in Heq; revert Heq;
    (by apply H1) || (by apply H2).
Qed.

Lemma fix_files_frame_all opts files : ∀ fs fs' rs,
  fix_files opts files fs = (fs', Return rs) →
  ∀ p,
    (dryRun opts = false → ∀ r, r ∈ rs → p ≠ target (result_file r)) →
    (backup opts = true → ∀ r, r ∈ rs → p ≠ backup_path (result_file r)) →
    fs' !! p = fs !! p.
Proof.
  induction files as [|[f l] files IH]; intros fs fs' rs; simpl.
  { by intros [= <- <-]. }
  destruct (Autofix.fix_file _ _ _ _ f l fs) as [[fs1 r]|] eqn:Hf;
    [|by intros [= _ ?]].
  destruct (Autofix.fix_files _ _ _ _ files fs1) as [fs2 [rs'|]] eqn:Hfs;
    [|by intros [= _ ?]].
  intros [= <- <-] p Ht Hb. apply fix_file_writes in Hf.
  rewrite (IH _ _ _ Hfs p).
  2: { intros Hd r0 Hr0. apply Ht; [done|]. destruct r; [by right | done]. }
  2: { intros Hd r0 Hr0. apply Hb; [done|]. destruct r; [by right | done]. }
  destruct r as [x|]; [|by subst].
  destruct Hf as (Hx & _ & _ & original & _ & _ & ->).
  apply written_frame; intros Hd; rewrite <- Hx; [apply Ht | apply Hb];
    (done || by left).
Qed.

Lemma fix_files_pure opts files : ∀ fs fs' o,
  dryRun opts = true → backup opts = false →
  fix_files opts files fs = (fs', o) → fs' = fs.
Proof.
  induction files as [|[f l] files IH]; intros fs fs' o Hd Hb; simpl.
  { by intros [= <- _]. }
  destruct (Autofix.fix_file _ _ _ _ f l fs) as [[fs1 r]|] eqn:Hf;
    [|by intros [= <- _]].
  apply fix_file_writes in Hf.
  assert (fs1 = fs) as ->.
  { destruct r as [x|]; [|done].
    destruct Hf as (_ & _ & _ & original & _ & _ & ->).
    unfold written. by rewrite Hd, Hb. }
  destruct (Autofix.fix_files _ _ _ _ files fs) as [fs2 [rs'|]] eqn:Hfs;
    intros [= <- _]; by eapply IH.
Qed.

Lemma fix_files_results opts files : ∀ fs fs' rs,
  fix_files opts files fs = (fs', Return rs) →
  result_file <$> rs `sublist_of` files.*1 ∧
  Forall (fun r => ∃ l, (result_file r, l) ∈ files ∧
                        issues r = List.filter canAutoFix l ∧
                        (1 ≤ fixesApplied r ≤ Z.of_nat (length (issues r)))%Z)
    rs.
Proof.
  induction files as [|[f l] files IH]; intros fs fs' rs; simpl.
  { intros [= <- <-]. split; [done | constructor]. }
  destruct (Autofix.fix_file _ _ _ _ f l fs) as [[fs1 r]|] eqn:Hf;
    [|by intros [= _ ?]].
  destruct (Autofix.fix_files _ _ _ _ files fs1) as [fs2 [rs'|]] eqn:Hfs;
    [|by intros [= _ ?]].
  intros [= <- <-]. apply fix_file_writes in Hf.
  destruct (IH _ _ _ Hfs) as [Hsub Hall].
  assert (Hall' : Forall (fun r => ∃ l0, (result_file r, l0) ∈ (f, l) :: files ∧
                        issues r = List.filter canAutoFix l0 ∧
                        (1 ≤ fixesApplied r ≤ Z.of_nat (length (issues r)))%Z)
                    rs').
  { eapply Forall_impl; [exact Hall|]. intros r0 (l0 & ? & ? & ?).
    exists l0. split; [by right | done]. }
  destruct r as [x|].
  - destruct Hf as (Hx & Hi & Hc & _). split.
    + rewrite fmap_cons, Hx. by apply sublist_skip.
    + constructor; [|done]. exists l. rewrite Hx. split; [by left | done].
  - split; [by apply sublist_cons | done].
Qed.

(** A run that writes the fixed files: under distinct paths, the file of
    every result holds the fixed content, and its backup, when asked for,
    the original one. *)
Lemma fix_files_real opts files : ∀ fs fs' rs,
  dryRun opts = false →
  fix_files opts files fs = (fs', Return rs) →
  NoDup ((target <$> (result_file <$> rs))
         ++ (backup_path <$> (result_file <$> rs))) →
  Forall (fun r => ∃ original,
            fs !! target (result_file r) = Some (File original) ∧
            fs' !! target (result_file r)
              = Some (File (apply_fixes (issues r) original 0).1) ∧
            (backup opts = true →
             fs' !! backup_path (result_file r) = Some (File original))) rs.
Proof.
  induction files as [|[f l] files IH]; intros fs fs' rs Hdry; simpl.
  { intros [= <- <-] _. constructor. }
  destruct (Autofix.fix_file _ _ _ _ f l fs) as [[fs1 r]|] eqn:Hf;
    [|by intros [= _ ?]].
  destruct (Autofix.fix_files _ _ _ _ files fs1) as [fs2 [rs'|]] eqn:Hfs;
    [|by intros [= _ ?]].
  intros [= <- <-] Hnd. apply fix_file_writes in Hf.
  destruct r as [x|]; [|subst fs1; by eapply IH].
  destruct Hf as (Hx & _ & _ & original & Ht & _ & ->).
  rewrite !fmap_cons in Hnd. rewrite Hx in Hnd.
  rewrite <- app_comm_cons in Hnd.
  apply NoDup_cons in Hnd as [Hnt Hnd].
  apply NoDup_app in Hnd as (Hnd1 & Hcross & Hnd2).
  apply NoDup_cons in Hnd2 as [Hnb Hnd2].
  assert (Hrest : NoDup ((target <$> (result_file <$> rs'))
                         ++ (backup_path <$> (result_file <$> rs')))).
  { apply NoDup_app. repeat split; [done| |done].
    intros p Hp Hp'. eapply Hcross; [done | by right]. }
  pose proof (IH _ _ _ Hdry Hfs Hrest) as Hall.
  assert (Hin_t : ∀ r, r ∈ rs' → target (result_file r)
                                   ∈ target <$> (result_file <$> rs')).
  { intros r Hr. by do 2 apply list_elem_of_fmap_2. }
  assert (Hin_b : ∀ r, r ∈ rs' → backup_path (result_file r)
                                   ∈ backup_path <$> (result_file <$> rs')).
  { intros r Hr. by do 2 apply list_elem_of_fmap_2. }
  constructor.
  - exists original. rewrite Hx. split; [done|].
    rewrite !(fix_files_frame_all _ _ _ _ _ Hfs);
      [|intros _ r Hr Heq;
        first
          [ by (apply Hnt; rewrite Heq; apply elem_of_app; left; apply Hin_t)
          | by (apply Hnt; rewrite Heq; apply elem_of_app; right; right;
                apply Hin_b)
          | by (apply (Hcross (target (result_file r)));
                [by apply Hin_t | rewrite <- Heq; by left])
          | by (apply Hnb; rewrite Heq; apply Hin_b) ]..].
    unfold written. rewrite Hdry. rewrite lookup_insert_eq. split; [done|].
    intros Hb. rewrite Hb, lookup_insert_ne, lookup_insert_eq; [done|].
    apply backup_path_ne.
  - rewrite Forall_forall in *. intros r Hr.
    destruct (Hall r Hr) as (orig & H1 & H2 & H3).
    exists orig. split; [|done]. rewrite <- H1. symmetry.
    apply written_frame.
    + intros _ Heq. apply Hnt. rewrite <- Heq.
      apply elem_of_app. left. by apply Hin_t.
    + intros _ Heq. apply (Hcross (target (result_file r))); [by apply Hin_t|].
      rewrite Heq. by left.
Qed.

Lemma groupByFile_ok issues fileIssues :
  groupByFile issues = Return fileIssues → groups_ok issues fileIssues.
Proof.
  intros H. apply (group_go_ok issues [] []) in H; [done|].
  split; [constructor|]. split; [constructor|]. intros i Hi.
  by apply elem_of_nil in Hi.
Qed.

(** *** The whole call *)

(** X23. A call that returns gives one result per file, for distinct files;
    a result lists, in their order, all the issues of its file that can
    be fixed, and counts between one fix and as many as it lists. *)
Theorem results_per_file all opts fs fs' results :
  applyAutoFixes all opts fs = (fs', Return results) →
  NoDup (result_file <$> results) ∧
  Forall (fun r =>
            issues r = List.filter canAutoFix (group_of all (result_file r)) ∧
            (1 ≤ fixesApplied r ≤ Z.of_nat (length (issues r)))%Z) results.
Proof.
  unfold Autofix.applyAutoFixes.
  destruct (groupByFile all) as [fileIssues|] eqn:Hg; [|by intros [= _ ?]].
  apply groupByFile_ok in Hg. destruct Hg as (Hnd & Hgroups & _).
  intros Hrun. apply fix_files_results in Hrun as [Hsub Hall]. split.
  - eapply sublist_NoDup; [|exact Hsub].
    by rewrite (fmap_Permutation fst _ _ (entries_perm fileIssues)).
  - eapply Forall_impl; [exact Hall|]. intros r (l & Hin & Hi & Hc).
    split; [|done]. rewrite Hi. f_equal.
    rewrite (entries_perm fileIssues) in Hin.
    rewrite Forall_forall in Hgroups. destruct (Hgroups _ Hin) as [Hl _].
    exact Hl.
Qed.

(** X24. Whatever the options, a call that returns leaves alone every path
    that is neither the file of a result nor its backup; without
    [backup] no backup is written, and in a dry run no file of a result
    is. *)
Theorem writes_only_results all opts fs fs' results p :
  applyAutoFixes all opts fs = (fs', Return results) →
  (dryRun opts = false → ∀ r, r ∈ results → p ≠ target (result_file r)) →
  (backup opts = true → ∀ r, r ∈ results → p ≠ backup_path (result_file r)) →
  fs' !! p = fs !! p.
Proof.
  unfold Autofix.applyAutoFixes.
  destruct (groupByFile all) as [fileIssues|]; [|by intros [= _ ?]].
  intros Hrun. by apply (fix_files_frame_all _ _ _ _ _ Hrun).
Qed.

(** X25. A dry run without backups writes nothing, whether it returns or
    throws. *)
Theorem dry_run_without_backup_pure all fs :
  (applyAutoFixes all {| dryRun := true; backup := false |} fs).1 = fs.
Proof.
  unfold Autofix.applyAutoFixes. destruct (groupByFile all); [|done].
  destruct (Autofix.fix_files _ _ _ _ _ fs) as [fs' o] eqn:Hrun.
  by apply fix_files_pure in Hrun.
Qed.

(** X26. A run that is not a dry run and returns, when the files of its
    results and their backups are pairwise distinct paths: every file of
    a result held a content before the run and holds afterwards what the
    fixes of the result make of it; with [backup], its backup holds the
    content it had before. *)
Theorem real_run_writes all opts fs fs' results :
  dryRun opts = false →
  applyAutoFixes all opts fs = (fs', Return results) →
  NoDup ((target <$> (result_file <$> results))
         ++ (backup_path <$> (result_file <$> results))) →
  Forall (fun r => ∃ original,
            fs !! target (result_file r) = Some (File original) ∧
            fs' !! target (result_file r)
              = Some (File (apply_fixes (issues r) original 0).1) ∧
            (backup opts = true →
             fs' !! backup_path (result_file r) = Some (File original)))
    results.
Proof.
  unfold Autofix.applyAutoFixes. intros Hdry.
  destruct (groupByFile all) as [fileIssues|]; [|by intros [= _ ?]].
  by apply fix_files_real.
Qed.

End engine.
End EngineProps.

Module FixProps.
Import RegExp RegExpFacts RegExpProps Json Groq GroqFacts GroqNotions GroqProps.
Import Autofix AutofixFacts AutofixNotions GroupingProps EngineProps.

(** *** The replacement of a snippet by a fixed code *)

Lemma substitution_other ng x c t :
  c ≠ 36 → substitution ng x (c :: t) = c :: substitution ng x t.
Proof.
  intros Hc. destruct c as [|p]; [done|].
  do 6 (try (destruct p as [p|p|]; try done)).
Qed.

Lemma substitution_literal ng x t : 36 ∉ t → substitution ng x t = t.
Proof.
  induction t as [|c t IH]; intros Ht; [done|].
  rewrite substitution_other by set_solver. rewrite IH; [done | set_solver].
Qed.

Lemma find_str_first pat t : ∀ b s,
  match find_str pat b s with
  | Some x => rev (m_before x) ++ t ++ m_after x
  | None => rev b ++ s
  end = rev b ++ replace_first s pat t.
Proof.
  intros b s. revert b. induction s as [|c s IH]; intros b.
  - cbn [find_str replace_first]. destruct (startsWith [] pat); [done|done].
  - cbn [find_str replace_first]. destruct (startsWith (c :: s) pat); [done|].
    specialize (IH (c :: b)). cbn [rev] in IH. rewrite <- !app_assoc in IH.
    destruct (find_str pat (c :: b) s); exact IH.
Qed.

Lemma find_str_None pat : ∀ b s,
  includes s pat = false → find_str pat b s = None.
Proof.
  intros b s. revert b. induction s as [|c s IH]; intros b; cbn [includes find_str].
  - rewrite orb_false_r. by intros ->.
  - intros [-> H]%orb_false_elim. by apply IH.
Qed.

Section engine.
Context (toLowerCase : jsstring → jsstring).

Local Abbreviation applyIssueFix := (applyIssueFix toLowerCase).
Local Abbreviation canAutoFix := (canAutoFix toLowerCase).

(** X27. For an issue that carries a snippet and a fixed code, both not
    empty: a content without the snippet is left as it is, and when the
    fixed code holds no dollar sign, the first occurrence of the snippet
    gives way to the fixed code and nothing else changes. *)
Theorem exact_fix_replaces_first content issue s f :
  snippet issue = Some s → fixedCode issue = Some f → s ≠ [] → f ≠ [] →
  (includes content s = false → applyIssueFix content issue = content) ∧
  (36 ∉ f → applyIssueFix content issue = replace_first content s f).
Proof.
  intros Hs Hf Hsne Hfne. unfold Autofix.applyIssueFix. rewrite Hs, Hf.
  destruct f as [|c f]; [done|]. destruct s as [|d s]; [done|].
  cbn [truthy andb]. unfold replace_str. split.
  - intros Hno. by rewrite find_str_None.
  - intros Hdollar.
    pose proof (find_str_first (d :: s) (c :: f) [] content) as H.
    destruct (find_str (d :: s) [] content) as [x|]; [|exact H].
    by rewrite substitution_literal.
Qed.

End engine.

Lemma exact_fix_witness :
  applyIssueFix ascii_lower (lit "var x = 1; var x = 2;")
    {| file := lit "a.js"; problem := lit "uses var"; fix_ := lit "use let";
       severity := None; line := None; snippet := Some (lit "var x");
       autoFixable := None; fixedCode := Some (lit "let x") |}
  = lit "let x = 1; var x = 2;".
Proof.
  destruct (exact_fix_replaces_first ascii_lower
              (lit "var x = 1; var x = 2;")
              {| file := lit "a.js"; problem := lit "uses var";
                 fix_ := lit "use let"; severity := None; line := None;
                 snippet := Some (lit "var x"); autoFixable := None;
                 fixedCode := Some (lit "let x") |}
              (lit "var x") (lit "let x")) as [_ H];
    [reflexivity | reflexivity | done | done |].
  rewrite H; [reflexivity|]. apply (bool_decide_unpack _). vm_compute.
  reflexivity.
Defined.

(** A dollar sign in the fixed code is read as a replacement pattern. *)
Example exact_fix_dollar :
  applyIssueFix ascii_lower (lit "price = 5")
    {| file := lit "a.js"; problem := lit "price"; fix_ := lit "fix";
       severity := None; line := None; snippet := Some (lit "5");
       autoFixable := None; fixedCode := Some (lit "$$5 ($&)") |}
  = lit "price = $5 (5)".
Proof. vm_compute. reflexivity. Qed.

(** *** Transforms on a text without what they look for *)

Lemma replace_go_none r t fuel : ∀ b s,
  (length s < fuel)%nat →
  (∀ b' s', s' `suffix_of` s → exec_at r b' s' = None) →
  replace_go fuel r t b s = s.
Proof.
  induction fuel as [|fuel IH]; intros b s Hfuel Hnone; [lia|].
  cbn [replace_go]. rewrite Hnone by done.
  destruct s as [|c s]; [done|]. f_equal. apply IH; [simpl in Hfuel; lia|].
  intros b' s' Hs. apply Hnone. by apply suffix_cons_r.
Qed.

Lemma startsWith_suffix s s' p :
  includes s p = false → s' `suffix_of` s → startsWith s' p = false.
Proof.
  intros Hno [w ->]. destruct (startsWith s' p) eqn:H; [|done].
  assert (includes (w ++ s') p = true); [|congruence].
  apply includes_app_r. destruct s'; simpl; by rewrite H.
Qed.

Lemma remove_console_exec b a :
  startsWith a (lit "console.") = false → exec_at remove_console_rx b a = None.
Proof. intros H. by apply exec_at_Seq_Lit. Qed.

Lemma var_to_const_exec b a :
  startsWith a (lit "var") = false → exec_at var_to_const_rx b a = None.
Proof.
  intros H. unfold exec_at, var_to_const_rx. cbn [seqs m].
  destruct (xorb _ _); [|done]. rewrite m_Lit by done. cbn [post].
  by rewrite H.
Qed.

Lemma strict_equality_exec b a :
  startsWith (drop 1 a) (lit "==") = false →
  exec_at strict_equality_rx b a = None.
Proof.
  intros H. unfold exec_at, strict_equality_rx. cbn [seqs m].
  destruct a as [|c a]; cbn [post]; [done|].
  destruct (noneof (lit "=!") c); [|done]. rewrite m_Lit by done.
  cbn [post set_cap]. change (drop 1 (c :: a)) with a in H. by rewrite H.
Qed.

(** X28. A transform leaves alone a text that does not hold what it looks
    for: [var] for the first, [console.] for the second, [==] for the
    last, a space or a tab for the removal of trailing white space. *)
Theorem transforms_need_trigger code :
  (includes code (lit "var") = false → var_to_const code = code) ∧
  (includes code (lit "console.") = false → remove_console code = code) ∧
  (includes code (lit "==") = false → strict_equality code = code) ∧
  (forallb (fun c => negb (is_blank c)) code = true →
   trim_whitespace code = code).
Proof.
  split; [|split; [|split]].
  - intros H. apply replace_go_none; [lia|]. intros b' s' Hs.
    apply var_to_const_exec. by eapply startsWith_suffix.
  - intros H. apply replace_go_none; [lia|]. intros b' s' Hs.
    apply remove_console_exec. by eapply startsWith_suffix.
  - intros H. apply replace_go_none; [lia|]. intros b' s' Hs.
    apply strict_equality_exec. eapply startsWith_suffix; [exact H|].
    etrans; [|exact Hs]. apply suffix_drop.
  - intros H. rewrite trim_whitespace_spec.
    induction code as [|c code IH]; [done|]. simpl in *.
    apply andb_prop in H as [Hc H]. apply negb_true_iff in Hc.
    rewrite Hc. simpl. by rewrite IH.
Qed.

Lemma transforms_need_trigger_witness :
  var_to_const (lit "let a = b;") = lit "let a = b;" ∧
  remove_console (lit "let a = b;") = lit "let a = b;" ∧
  strict_equality (lit "let a = b;") = lit "let a = b;" ∧
  trim_whitespace (lit "a=b;") = lit "a=b;".
Proof.
  destruct (transforms_need_trigger (lit "let a = b;")) as (H1 & H2 & H3 & _).
  destruct (transforms_need_trigger (lit "a=b;")) as (_ & _ & _ & H4).
  split; [apply H1; reflexivity|]. split; [apply H2; reflexivity|].
  split; [apply H3; reflexivity | apply H4; reflexivity].
Defined.

(** *** The removal of trailing white space *)

Lemma trim_spec_keeps s :
  List.filter (fun c => negb (is_blank c)) (trim_spec s)
  = List.filter (fun c => negb (is_blank c)) s.
Proof.
  induction s as [|c s IH]; [done|]. cbn [trim_spec].
  destruct (is_blank c) eqn:Hc; cbn [andb].
  - destruct (blank_to_eol s); cbn [List.filter]; rewrite ?Hc; cbn [negb];
      exact IH.
  - cbn [List.filter]. rewrite Hc. cbn [negb]. by rewrite IH.
Qed.

Lemma trim_spec_length s : (length (trim_spec s) ≤ length s)%nat.
Proof.
  induction s as [|c s IH]; [done|]. cbn [trim_spec].
  destruct (is_blank c && blank_to_eol s); simpl; lia.
Qed.

Lemma trim_spec_clean s : ∀ before c after,
  trim_spec s = before ++ c :: after → is_blank c = true →
  blank_to_eol after = false.
Proof.
  induction s as [|d s IH]; intros before c after; cbn [trim_spec].
  { by destruct before. }
  destruct (is_blank d && blank_to_eol s) eqn:Hd; [apply IH|].
  destruct before as [|e before]; cbn [app].
  - intros [= -> <-] Hc. rewrite Hc in Hd. cbn [andb] in Hd.
    by rewrite blank_to_eol_trim.
  - intros [= _ H]. by eapply IH.
Qed.

(** X29. The removal of trailing white space deletes spaces and tabs only,
    keeps every other character in its place among the others, and
    leaves no space or tab that only spaces and tabs separate from the
    end of its line. *)
Theorem trim_whitespace_removes_blanks code :
  List.filter (fun c => negb (is_blank c)) (trim_whitespace code)
  = List.filter (fun c => negb (is_blank c)) code ∧
  (length (trim_whitespace code) ≤ length code)%nat ∧
  ∀ before c after,
    trim_whitespace code = before ++ c :: after → is_blank c = true →
    blank_to_eol after = false.
Proof.
  rewrite trim_whitespace_spec. split; [apply trim_spec_keeps|].
  split; [apply trim_spec_length | apply trim_spec_clean].
Qed.

(** *** The scanner and the engine *)

Lemma scan_line_Forall (P : ReviewIssue → Prop) st l :
  (∀ f n added, Forall P (line_issues f n added)) →
  Forall P (results st) → Forall P (results (scan_line st l)).
Proof.
  intros Hl Hr. unfold scan_line.
  destruct (startsWith l (lit "+++ b/")); [done|].
  destruct (startsWith l (lit "@@")); [by destruct (match_ hunkStart l)|].
  destruct (startsWith l (lit "+") && negb (startsWith l (lit "+++"))); [|done].
  cbn [results]. apply Forall_app. by split.
Qed.

Lemma scan_Forall (P : ReviewIssue → Prop) diff context :
  (∀ f n added, Forall P (line_issues f n added)) →
  Forall P (heuristicScan diff context).
Proof.
  intros Hl. unfold heuristicScan.
  assert (H : ∀ ls st, Forall P (results st) →
              Forall P (results (fold_left scan_line ls st))).
  { induction ls as [|l ls IH]; intros st Hst; [done|]. simpl.
    by apply IH, scan_line_Forall. }
  apply H. constructor.
Qed.

Section scanner.
Context (toLowerCase : jsstring → jsstring).

(** X30. No issue of the scanner can be fixed automatically: none of the
    problems it states matches a pattern of [canAutoFix]. It holds for
    every [toLowerCase] that acts on ASCII text as the standard one. *)
Theorem scanner_issue_not_fixable diff context :
  (∀ s, forallb (fun c => c <? 128) s = true →
        toLowerCase s = ascii_lower s) →
  List.filter (canAutoFix toLowerCase) (heuristicScan diff context) = [].
Proof.
  intros Hlower.
  assert (H : Forall (fun i => canAutoFix toLowerCase i = false)
                (heuristicScan diff context)).
  { apply scan_Forall. intros f n added. unfold line_issues.
    repeat (apply Forall_app; split); apply Forall_when;
      unfold canAutoFix, found; cbn [problem];
      rewrite Hlower by (vm_compute; reflexivity); vm_compute; reflexivity. }
  induction H as [|i l Hi _ IH]; [done|]. simpl. by rewrite Hi.
Qed.

End scanner.

Lemma scanner_issue_not_fixable_witness :
  List.filter (canAutoFix ascii_lower) (heuristicScan diff_three_added []) = [].
Proof. by apply scanner_issue_not_fixable. Defined.

End FixProps.

Module EngineRuns.
Import RegExp RegExpFacts RegExpProps Json Groq GroqFacts GroqNotions GroqProps.
Import Autofix AutofixFacts AutofixNotions GroupingProps EngineProps.
Import FixProps AutofixExamples.

Lemma grouping_partitions_witness :
  groupByFile [issue_var "a.js"; issue_var "b.js"; issue_var "a.js"]
  = Return [(lit "a.js", [issue_var "a.js"; issue_var "a.js"]);
            (lit "b.js", [issue_var "b.js"])] ∧
  NoDup [lit "a.js"; lit "b.js"].
Proof.
  assert (H : groupByFile [issue_var "a.js"; issue_var "b.js"; issue_var "a.js"]
              = Return [(lit "a.js", [issue_var "a.js"; issue_var "a.js"]);
                        (lit "b.js", [issue_var "b.js"])])
    by (vm_compute; reflexivity).
  split; [exact H|]. by apply grouping_partitions in H as [Hnd _].
Defined.

Lemma results_per_file_witness :
  NoDup (result_file <$> [result_a]) ∧
  (1 ≤ fixesApplied result_a ≤ Z.of_nat (length (issues result_a)))%Z.
Proof.
  assert (Hrun : run_with write_with_backup [issue_var "a.js"] disk
                 = ((run_with write_with_backup [issue_var "a.js"] disk).1,
                    Return [result_a])) by (vm_compute; reflexivity).
  apply results_per_file in Hrun as [Hnd Hall]. split; [exact Hnd|].
  apply Forall_cons in Hall as [[_ Hc] _]. exact Hc.
Defined.

Lemma writes_only_results_witness :
  (run_with write_with_backup [issue_var "a.js"] disk).1 !! lit "/w/b.js"
  = disk !! lit "/w/b.js".
Proof.
  assert (Hrun : run_with write_with_backup [issue_var "a.js"] disk
                 = ((run_with write_with_backup [issue_var "a.js"] disk).1,
                    Return [result_a])) by (vm_compute; reflexivity).
  apply (writes_only_results _ _ _ _ _ _ _ _ _ Hrun);
    intros _ r ->%list_elem_of_singleton; vm_compute; discriminate.
Defined.

Lemma real_run_writes_witness :
  (run_with write_with_backup [issue_var "a.js"] disk).1 !! lit "/w/a.js"
    = Some (File (lit "const a = 1;")) ∧
  (run_with write_with_backup [issue_var "a.js"] disk).1
    !! lit "/w/a.js.prefl-backup" = Some (File (lit "var a = 1;")).
Proof.
  assert (Hrun : run_with write_with_backup [issue_var "a.js"] disk
                 = ((run_with write_with_backup [issue_var "a.js"] disk).1,
                    Return [result_a])) by (vm_compute; reflexivity).
  apply real_run_writes in Hrun; [|reflexivity|].
  - apply Forall_cons in Hrun as [(original & H1 & H2 & H3) _].
    assert (original = lit "var a = 1;") as ->.
    { vm_compute in H1. by injection H1 as <-. }
    split; [exact H2 | exact (H3 eq_refl)].
  - vm_compute. repeat constructor; rewrite ?elem_of_cons, ?elem_of_nil;
      intros H; repeat destruct H as [H|H]; done.
Defined.

End EngineRuns.


(** ** A dry run with backups, file by file *)

Module DryRunFacts.
Import RegExp RegExpFacts RegExpProps Json Groq GroqFacts GroqNotions GroqProps.
Import Autofix AutofixFacts AutofixNotions GroupingProps EngineProps.

Section engine.
Context (toLowerCase : jsstring → jsstring).
Context (cwd : jsstring) (path_join : list jsstring → jsstring).

Local Abbreviation target := (target cwd path_join).
Local Abbreviation backup_path := (backup_path cwd path_join).
Local Abbreviation canAutoFix := (canAutoFix toLowerCase).
Local Abbreviation apply_fixes := (apply_fixes toLowerCase).
Local Abbreviation fix_file := (fix_file toLowerCase cwd path_join).
Local Abbreviation fix_files := (fix_files toLowerCase cwd path_join).
Local Abbreviation applyAutoFixes := (applyAutoFixes toLowerCase cwd path_join).

(** A file whose content the fixes change is not passed over: when its
    turn returns, it has pushed a result for the file. *)
Lemma fix_file_fixes f l fs fs' r original :
  fix_file dry_run_with_backup f l fs = Return (fs', r) →
  fs !! target f = Some (File original) →
  (0 < (apply_fixes (List.filter canAutoFix l) original 0).2)%Z →
  r = Some {| result_file := f;
              fixesApplied :=
                (apply_fixes (List.filter canAutoFix l) original 0).2;
              issues := List.filter canAutoFix l |}.
Proof.
  unfold Autofix.fix_file. intros Hrun Ht Hcount. revert Hrun.
  destruct (List.filter _ l) as [|i l'] eqn:Hl; [simpl in Hcount; lia|].
  fold (target f). unfold existsSync, readFileSync.
  rewrite Ht. cbn [negb].
  destruct (Autofix.apply_fixes toLowerCase (i :: l') original 0)
    as [content fixCount].
  cbn [snd] in Hcount |- *. apply Z.gtb_lt in Hcount. rewrite Hcount.
  unfold writeFileSync. fold (backup_path f).
  destruct (fs !! backup_path f) as [[|]|]; try done; by intros [= _ <-].
Qed.

(** So every file of the table whose content the fixes change has its
    result, as long as no backup of the run was written over it before
    its turn. *)
Lemma fix_files_complete files : ∀ fs fs' rs,
  fix_files dry_run_with_backup files fs = (fs', Return rs) →
  ∀ f l original,
    (f, l) ∈ files →
    fs !! target f = Some (File original) →
    (0 < (apply_fixes (List.filter canAutoFix l) original 0).2)%Z →
    (∀ r, r ∈ rs → target f ≠ backup_path (result_file r)) →
    ∃ r, r ∈ rs ∧ result_file r = f ∧
         issues r = List.filter canAutoFix l ∧
         fixesApplied r
         = (apply_fixes (List.filter canAutoFix l) original 0).2.
Proof.
  induction files as [|[f0 l0] files IH]; intros fs fs' rs; simpl.
  { intros _ f l original Hin. by apply elem_of_nil in Hin. }
  destruct (Autofix.fix_file _ _ _ _ f0 l0 fs) as [[fs1 ro]|] eqn:Hf;
    [|by intros [= _ ?]].
  destruct (Autofix.fix_files _ _ _ _ files fs1) as [fs2 [rs'|]] eqn:Hfs;
    [|by intros [= _ ?]].
  intros [= <- <-] f l original Hin Ht Hcount Hfree.
  apply elem_of_cons in Hin as [[= -> ->]|Hin].
  - rewrite (fix_file_fixes _ _ _ _ _ _ Hf Ht Hcount).
    eexists. split; [by left|]. done.
  - destruct (IH _ _ _ Hfs f l original Hin) as (r & Hr & Hrest); [|done| |].
    + apply fix_file_dry in Hf. destruct ro as [x|]; [|by subst].
      destruct Hf as (Hx & original0 & _ & ->).
      rewrite lookup_insert_ne; [done|]. intros Heq.
      eapply Hfree; [by left|]. by rewrite Hx.
    + intros r Hr. apply Hfree. destruct ro; [by right | done].
    + exists r. split; [|done]. destruct ro; [by right | done].
Qed.

(** The table of [groupByFile] has an entry for every file that an issue
    names, and the entry holds the issues of that file. *)
Lemma entries_group all fileIssues f :
  groupByFile all = Return fileIssues →
  group_of all f ≠ [] →
  (f, group_of all f) ∈ entries fileIssues.
Proof.
  intros Hg Hne. apply groupByFile_ok in Hg as (_ & Hgroups & Hkeys).
  rewrite (entries_perm fileIssues).
  destruct (group_of all f) as [|i l] eqn:Hgr; [done|].
  assert (Hi : i ∈ group_of all f) by (rewrite Hgr; by left).
  unfold group_of in Hi. apply list_elem_of_In, filter_In in Hi as [Hi Hf].
  apply list_elem_of_In in Hi. apply streq_true in Hf.
  specialize (Hkeys i Hi). rewrite Hf in Hkeys.
  apply list_elem_of_fmap in Hkeys as ([k l'] & Hk & Hin). simpl in Hk.
  subst k. rewrite Forall_forall in Hgroups.
  destruct (Hgroups _ Hin) as [Hl _]. simpl in Hl. rewrite Hl in Hin.
  by rewrite Hgr in Hin.
Qed.

(** C10 (amended). Take a call with [dryRun] and [backup] that returns,
    and a file that holds a content which the fixes of its auto-fixable
    issues, applied in their order, change at least once, and whose path
    is not the backup path of a file fixed in the same call. Then the
    file is fixed in the call: the results report it with these issues
    and the number of fixes that changed the content; the file on disk
    is left unchanged; and its backup, the path of the file followed by
    [.prefl-backup], holds the original content. Nothing but the backups
    of the reported files is written. *)
Theorem dry_run_keeps_target all fs fs' results f original :
  applyAutoFixes all dry_run_with_backup fs = (fs', Return results) →
  fs !! target f = Some (File original) →
  (0 < (apply_fixes (List.filter canAutoFix (group_of all f)) original 0).2)%Z →
  (∀ r', r' ∈ results → target f ≠ backup_path (result_file r')) →
  (∃ r, r ∈ results ∧ result_file r = f ∧
        issues r = List.filter canAutoFix (group_of all f) ∧
        fixesApplied r
        = (apply_fixes (List.filter canAutoFix (group_of all f))
             original 0).2) ∧
  fs' !! target f = Some (File original) ∧
  fs' !! backup_path f = Some (File original) ∧
  ∀ p, (∀ r', r' ∈ results → p ≠ backup_path (result_file r')) →
    fs' !! p = fs !! p.
Proof.
  unfold Autofix.applyAutoFixes.
  destruct (groupByFile all) as [fileIssues|] eqn:Hg; [|by intros [= _ ?]].
  intros Hrun Ht Hcount Hfree.
  assert (Hne : group_of all f ≠ []).
  { intros Hnil. rewrite Hnil in Hcount. simpl in Hcount. lia. }
  pose proof (entries_group _ _ f Hg Hne) as Hin.
  destruct (fix_files_complete _ _ _ _ Hrun f _ original Hin Ht Hcount Hfree)
    as (r & Hr & Hrf & Hri & Hrc).
  split; [by exists r|]. split; [|split].
  - by rewrite (fix_files_frame _ _ _ _ _ _ _ Hrun _ Hfree).
  - apply (fix_files_backup _ _ _ _ _ _ _ Hrun _ _ Ht Hfree).
    right. exists r. by rewrite Hrf.
  - intros p Hp. by apply (fix_files_frame _ _ _ _ _ _ _ Hrun).
Qed.

End engine.

Lemma dry_run_keeps_target_witness :
  run [issue_var "a.js"] disk
    = (<[lit "/w/a.js.prefl-backup" := File (lit "var a = 1;")]> disk,
       Return [result_a]) ∧
  (<[lit "/w/a.js.prefl-backup" := File (lit "var a = 1;")]> disk)
    !! lit "/w/a.js" = Some (File (lit "var a = 1;")) ∧
  (<[lit "/w/a.js.prefl-backup" := File (lit "var a = 1;")]> disk)
    !! lit "/w/a.js.prefl-backup" = Some (File (lit "var a = 1;")).
Proof.
  assert (Hrun : run [issue_var "a.js"] disk
    = (<[lit "/w/a.js.prefl-backup" := File (lit "var a = 1;")]> disk,
       Return [result_a])) by (vm_compute; reflexivity).
  split; [exact Hrun|].
  destruct (dry_run_keeps_target ascii_lower (lit "/w")
              ContextResolver.posix_join [issue_var "a.js"] disk _ _
              (lit "a.js") (lit "var a = 1;") Hrun)
    as (_ & H2 & H3 & _).
  - vm_compute. reflexivity.
  - vm_compute. reflexivity.
  - intros r' ->%list_elem_of_singleton. apply backup_path_ne.
  - split; [exact H2 | exact H3].
Defined.

End DryRunFacts.

